(** * AllFind search orchestrator: a shallow embedding of [src/orchestrator.py]
    and [src/types.py], with the properties of the query classifier, of the
    per-platform dispatch loop and of the aggregation step.
    Further sections embed [sanitize_filename] of [src/export_drive_files.py]
    and [normalize], [process_docs] and [process_slides] of
    [src/embedding.py].

    Conventions of the embedding.
    - A Python [str] is a Rocq [string]; a character [c : ascii] stands for
      the code point [N_of_ascii c], so the texts covered are those whose
      code points lie in 0..255.  The builtins of [PyStr] and [Re]
      ([str.lower], [str.strip], [str.split], the [in] operator, and the
      subset of [re] that the source uses) are written for that range.
      [determine_search_method], which never calls [str.lower], is given
      a second time in [Uni] on texts of arbitrary code points.
    - A Python [int] is a [Z]; an [Optional[T]] is an [option T]; a [dict]
      with string keys is a [gmap string _].
    - A [float] is a [PyFloat]: NaN, an infinity, or a finite value given
      by the rational number it denotes; the source only ever compares
      scores with [<]. *)

From Stdlib Require Import ZArith QArith Ascii String List Lia Permutation Sorted.
From Stdlib Require Import DecimalString DecimalNat.
From stdpp Require Import base strings gmap list.

(** * Part I. The embedding *)

(** ** Python string builtins *)

Module PyStr.

Definition code (c : ascii) : N := N_of_ascii c.

(** [str.isspace] on one character: the Unicode white space code points
    below 256 (TAB..CR, FS..US, SPACE, NEL, NBSP).  [str.strip],
    [str.split] and the regular expression class [\s] all use this set. *)
Definition isspace (c : ascii) : bool :=
  let n := code c in
  ((9 <=? n) && (n <=? 13) || (28 <=? n) && (n <=? 32)
   || (n =? 133) || (n =? 160))%N.

(** The simple lower-case mapping on code points below 256: A..Z and the
    Latin-1 capitals 0xC0..0xDE (without the multiplication sign 0xD7)
    move up by 32. *)
Definition lower_char (c : ascii) : ascii :=
  let n := code c in
  if ((65 <=? n) && (n <=? 90)
      || (192 <=? n) && (n <=? 222) && negb (n =? 215))%N
  then ascii_of_N (n + 32) else c.

(** [s.lower()] *)
Fixpoint lower (s : string) : string :=
  match s with
  | EmptyString => EmptyString
  | String c s' => String (lower_char c) (lower s')
  end.

(** [s.lstrip()], [s.rstrip()], [s.strip()] *)
Fixpoint lstrip (s : string) : string :=
  match s with
  | EmptyString => EmptyString
  | String c s' => if isspace c then lstrip s' else s
  end.

Fixpoint rstrip (s : string) : string :=
  match s with
  | EmptyString => EmptyString
  | String c s' =>
      match rstrip s' with
      | EmptyString => if isspace c then EmptyString else String c EmptyString
      | r => String c r
      end
  end.

Definition strip (s : string) : string := rstrip (lstrip s).

(** [s.startswith(p)] *)
Fixpoint startswith (p s : string) : bool :=
  match p, s with
  | EmptyString, _ => true
  | String a p', String b s' => Ascii.eqb a b && startswith p' s'
  | String _ _, EmptyString => false
  end.

(** [needle in hay] on strings: substring test. *)
Fixpoint contains (needle hay : string) : bool :=
  startswith needle hay
  || match hay with
     | EmptyString => false
     | String _ hay' => contains needle hay'
     end.

(** [c in s] for a one-character needle, kept apart because the source
    writes it with character literals. *)
Definition contains_char (c : ascii) (s : string) : bool :=
  contains (String c EmptyString) s.

Definition head_nonspace (s : string) : bool :=
  match s with
  | EmptyString => false
  | String c _ => negb (isspace c)
  end.

(** [s.split()] with no argument: the maximal runs of non-space
    characters, in order; never an empty token. *)
Fixpoint split (s : string) : list string :=
  match s with
  | EmptyString => []
  | String c s' =>
      if isspace c then split s'
      else if head_nonspace s' then
        match split s' with
        | w :: ws => String c w :: ws
        | [] => [String c EmptyString]
        end
      else String c EmptyString :: split s'
  end.

(** Truth value of a [str]: non-empty. *)
Definition truthy (s : string) : bool := negb (String.eqb s EmptyString).

End PyStr.

(** ** The subset of Python's [re] used by the classifier

    Patterns are compiled with [re.IGNORECASE] and without [re.MULTILINE],
    and are only used through [re.search], whose truth value is all the
    source looks at. *)

Module Re.
Import PyStr.

Inductive regex : Type :=
| Eps                      (* the empty pattern *)
| Bol                      (* ^ : start of the text *)
| Eol                      (* $ : end of the text, or before a final newline *)
| Chr (c : ascii)          (* a literal character, compared ignoring case *)
| Spaces                   (* \s* *)
| Alt (r1 r2 : regex)      (* r1|r2 *)
| Cat (r1 r2 : regex).     (* r1 r2 *)

(** A literal word, character by character. *)
Fixpoint word (w : string) : regex :=
  match w with
  | EmptyString => Eps
  | String c w' => Cat (Chr c) (word w')
  end.

(** [w1|w2|...|wn] *)
Fixpoint alts (rs : list regex) : regex :=
  match rs with
  | [] => Eps
  | [r] => r
  | r :: rs' => Alt r (alts rs')
  end.

Definition at_eol (s : string) : bool :=
  String.eqb s EmptyString
  || String.eqb s (String "010"%char EmptyString).

(** [\s*] followed by the continuation [k]: longest run first, then
    shorter ones (backtracking). *)
Fixpoint spaces_then (k : bool -> string -> bool) (bol : bool) (s : string)
  : bool :=
  match s with
  | String a s' => isspace a && spaces_then k false s'
  | EmptyString => false
  end
  || k bol s.

(** Backtracking matcher in continuation-passing style.  [bol] tells
    whether the current position is the start of the text, [s] is the
    rest of the text, [k] is what remains to be matched. *)
Fixpoint matches (r : regex) (bol : bool) (s : string)
         (k : bool -> string -> bool) : bool :=
  match r with
  | Eps => k bol s
  | Bol => bol && k bol s
  | Eol => at_eol s && k bol s
  | Chr c =>
      match s with
      | String a s' =>
          Ascii.eqb (lower_char a) (lower_char c) && k false s'
      | EmptyString => false
      end
  | Spaces => spaces_then k bol s
  | Alt r1 r2 => matches r1 bol s k || matches r2 bol s k
  | Cat r1 r2 => matches r1 bol s (fun bol' s' => matches r2 bol' s' k)
  end.

Definition match_here (r : regex) (bol : bool) (s : string) : bool :=
  matches r bol s (fun _ _ => true).

Fixpoint search_from (r : regex) (bol : bool) (s : string) : bool :=
  match_here r bol s
  || match s with
     | EmptyString => false
     | String _ s' => search_from r false s'
     end.

(** [bool(re.search(r, s, re.IGNORECASE))] *)
Definition search (r : regex) (s : string) : bool := search_from r true s.

End Re.

(** ** [types.py] *)

Inductive Platform : Type := GOOGLE_DRIVE | NOTION.

Inductive SearchMethod : Type := KEYWORD | SEMANTIC | FULL_TEXT | METADATA.

(** Both enumerations derive from [str]; these are the members' values. *)
Definition Platform_value (p : Platform) : string :=
  match p with
  | GOOGLE_DRIVE => "google_drive"
  | NOTION => "notion"
  end.

Definition SearchMethod_value (m : SearchMethod) : string :=
  match m with
  | KEYWORD => "keyword"
  | SEMANTIC => "semantic"
  | FULL_TEXT => "full_text"
  | METADATA => "metadata"
  end.

Global Instance Platform_eq_dec : EqDecision Platform.
Proof. solve_decision. Defined.

Global Instance SearchMethod_eq_dec : EqDecision SearchMethod.
Proof. solve_decision. Defined.

(** The values of a [Dict[str, Any]].  The orchestrator never looks inside
    them. *)
Inductive Any : Type :=
| AnyNone
| AnyBool (b : bool)
| AnyInt (z : Z)
| AnyStr (s : string).

Record SearchQuery : Type := {
  query : string;
  platform : option Platform;
  method : option SearchMethod;
  filters : option (gmap string Any);
  limit : Z
}.

(** A Python [float] as its comparisons see it: not-a-number, the two
    infinities, and the finite values ([0.0] and [-0.0] are both the
    rational zero). *)
Inductive PyFloat : Type :=
| NaN
| Infinity (negative : bool)
| Finite (q : Q).

Definition is_nan (x : PyFloat) : bool :=
  match x with
  | NaN => true
  | _ => false
  end.

(** [SearchResult]; the fields [id] and [platform] carry a prefix because
    the bare names are taken. *)
Record SearchResult : Type := {
  result_id : string;
  title : string;
  content : option string;
  url : string;
  result_platform : Platform;
  score : PyFloat;
  metadata : gmap string Any
}.

(** [SearchResponse]; its field [query] is [response_query] here. *)
Record SearchResponse : Type := {
  results : list SearchResult;
  response_query : SearchQuery;
  total_results : Z;
  platforms_searched : list Platform;
  method_used : SearchMethod
}.

(** ** The query classifier of [SearchOrchestrator] *)

(** [if x:] on an optional member of a [str]-derived enumeration: [None]
    is false, a member has the truth value of its string value. *)
Definition if_set {A : Type} (value : A -> string) (o : option A) : option A :=
  match o with
  | Some a => if PyStr.truthy (value a) then Some a else None
  | None => None
  end.

(** [any(keyword in text for keyword in keywords)] *)
Definition any_keyword_in (keywords : list string) (text : string) : bool :=
  existsb (fun keyword => PyStr.contains keyword text) keywords.

Definition google_keywords : list string :=
  ["drive"; "docs"; "sheets"; "slides"; "document"].

Definition notion_keywords : list string :=
  ["notion"; "page"; "database"; "workspace"].

Definition determine_platforms (q : SearchQuery) : list Platform :=
  match if_set Platform_value (platform q) with
  | Some p => [p]
  | None =>
      let query_lower := PyStr.lower (query q) in
      let has_google_hint := any_keyword_in google_keywords query_lower in
      let has_notion_hint := any_keyword_in notion_keywords query_lower in
      if has_google_hint && negb has_notion_hint then [] ++ [GOOGLE_DRIVE]
      else if has_notion_hint && negb has_google_hint then [] ++ [NOTION]
      else [GOOGLE_DRIVE; NOTION]
  end.

Definition metadata_keys : list string :=
  ["date"; "author"; "modified_date"; "created_date"; "owner"].

(** [query.filters and any(key in query.filters for key in [...])] as a
    truth value: [None] and the empty dict are false. *)
Definition has_metadata_filter (fs : option (gmap string Any)) : bool :=
  match fs with
  | None => false
  | Some d =>
      negb (bool_decide (d = ∅))
      && existsb (fun key => bool_decide (is_Some (d !! key))) metadata_keys
  end.

(** r'^\s*(what|how|why|when|where|who)' *)
Definition wh_words : list string :=
  ["what"; "how"; "why"; "when"; "where"; "who"].

Definition pattern_wh : Re.regex :=
  Re.Cat Re.Bol (Re.Cat Re.Spaces (Re.alts (map Re.word wh_words))).

(** r'\?$' *)
Definition pattern_qmark : Re.regex := Re.Cat (Re.Chr "?"%char) Re.Eol.

(** r'explain|describe|tell me about' *)
Definition phrases : list string := ["explain"; "describe"; "tell me about"].

Definition pattern_phrase : Re.regex := Re.alts (map Re.word phrases).

Definition question_patterns : list Re.regex :=
  [pattern_wh; pattern_qmark; pattern_phrase].

Definition determine_search_method (q : SearchQuery) : SearchMethod :=
  match if_set SearchMethod_value (method q) with
  | Some m => m
  | None =>
      let query_text := PyStr.strip (query q) in
      if PyStr.contains_char "034"%char query_text
         || PyStr.contains_char "'"%char query_text
      then FULL_TEXT
      else if has_metadata_filter (filters q) then METADATA
      else if existsb (fun pattern => Re.search pattern query_text)
                      question_patterns
      then SEMANTIC
      else
        let words := PyStr.split query_text in
        if (8 <? Z.of_nat (length words))%Z then SEMANTIC
        else KEYWORD
  end.

(** ** The method classifier on texts of arbitrary code points

    [determine_search_method] never lower-cases the text: it strips it,
    looks for the two quote characters, and hands it to [re.search] and
    to [str.split].  Here these builtins are given on all of Unicode, a
    text being the list of its code points, so that the classifier is
    covered on every [str].  The patterns are the ones above. *)

Module Uni.

Definition of_string (s : string) : list N :=
  map N_of_ascii (list_ascii_of_string s).

Definition between (lo hi c : N) : bool := ((lo <=? c) && (c <=? hi))%N.

(** [str.isspace] on one character: the 29 white space code points of
    Unicode (TAB..CR, FS..US, SPACE, NEL, NBSP, OGHAM SPACE MARK, EN QUAD
    .. HAIR SPACE, LINE and PARAGRAPH SEPARATOR, NARROW NBSP, MEDIUM
    MATHEMATICAL SPACE, IDEOGRAPHIC SPACE).  [str.strip], [str.split] and
    the regular expression class [\s] all use this set. *)
Definition isspace (c : N) : bool :=
  (between 9 13 c || between 28 32 c || (c =? 133) || (c =? 160)
   || (c =? 5760) || between 8192 8202 c || (c =? 8232) || (c =? 8233)
   || (c =? 8239) || (c =? 8287) || (c =? 12288))%N.

(** [s.lstrip()], [s.rstrip()], [s.strip()] *)
Fixpoint lstrip (s : list N) : list N :=
  match s with
  | [] => []
  | c :: s' => if isspace c then lstrip s' else s
  end.

Fixpoint rstrip (s : list N) : list N :=
  match s with
  | [] => []
  | c :: s' =>
      match rstrip s' with
      | [] => if isspace c then [] else [c]
      | r => c :: r
      end
  end.

Definition strip (s : list N) : list N := rstrip (lstrip s).

(** [c in s] for a one-character needle. *)
Definition contains_char (c : N) (s : list N) : bool := existsb (N.eqb c) s.

Definition head_nonspace (s : list N) : bool :=
  match s with
  | [] => false
  | c :: _ => negb (isspace c)
  end.

(** [s.split()] with no argument. *)
Fixpoint split (s : list N) : list (list N) :=
  match s with
  | [] => []
  | c :: s' =>
      if isspace c then split s'
      else if head_nonspace s' then
        match split s' with
        | w :: ws => (c :: w) :: ws
        | [] => [[c]]
        end
      else [c] :: split s'
  end.

Definition lower_ascii (n : N) : N := if between 65 90 n then (n + 32)%N else n.

(** The letters that [re.IGNORECASE] identifies with an ASCII letter
    besides its two cases: dotted capital I and dotless i with i, long s
    with s, the Kelvin sign with k. *)
Definition extra_variants (l : N) : list N :=
  if (l =? 105)%N then [304; 305]%N
  else if (l =? 115)%N then [383%N]
  else if (l =? 107)%N then [8490%N]
  else [].

(** The code points that a literal ASCII character of a pattern matches
    under [re.IGNORECASE]: a letter matches its two cases and the extra
    letters above, any other character matches itself. *)
Definition variants (c : ascii) : list N :=
  let l := lower_ascii (N_of_ascii c) in
  if between 97 122 l then l :: (l - 32)%N :: extra_variants l else [l].

Definition ci_eq (a : N) (c : ascii) : bool := existsb (N.eqb a) (variants c).

Definition at_eol (s : list N) : bool :=
  match s with
  | [] => true
  | [c] => (c =? 10)%N
  | _ => false
  end.

Fixpoint spaces_then (k : bool -> list N -> bool) (bol : bool) (s : list N)
  : bool :=
  match s with
  | a :: s' => isspace a && spaces_then k false s'
  | [] => false
  end
  || k bol s.

(** The backtracking matcher of [Re], on code points. *)
Fixpoint matches (r : Re.regex) (bol : bool) (s : list N)
         (k : bool -> list N -> bool) : bool :=
  match r with
  | Re.Eps => k bol s
  | Re.Bol => bol && k bol s
  | Re.Eol => at_eol s && k bol s
  | Re.Chr c =>
      match s with
      | a :: s' => ci_eq a c && k false s'
      | [] => false
      end
  | Re.Spaces => spaces_then k bol s
  | Re.Alt r1 r2 => matches r1 bol s k || matches r2 bol s k
  | Re.Cat r1 r2 => matches r1 bol s (fun bol' s' => matches r2 bol' s' k)
  end.

Definition match_here (r : Re.regex) (bol : bool) (s : list N) : bool :=
  matches r bol s (fun _ _ => true).

Fixpoint search_from (r : Re.regex) (bol : bool) (s : list N) : bool :=
  match_here r bol s
  || match s with
     | [] => false
     | _ :: s' => search_from r false s'
     end.

(** [bool(re.search(r, s, re.IGNORECASE))] *)
Definition search (r : Re.regex) (s : list N) : bool := search_from r true s.

(** [SearchQuery] with its text and the keys of its filters on all of
    Unicode. *)
Record SearchQuery : Type := {
  query : list N;
  platform : option Platform;
  method : option SearchMethod;
  filters : option (gmap (list N) Any);
  limit : Z
}.

Definition has_metadata_filter (fs : option (gmap (list N) Any)) : bool :=
  match fs with
  | None => false
  | Some d =>
      negb (bool_decide (d = ∅))
      && existsb (fun key => bool_decide (is_Some (d !! of_string key)))
                 metadata_keys
  end.

Definition determine_search_method (q : SearchQuery) : SearchMethod :=
  match if_set SearchMethod_value (method q) with
  | Some m => m
  | None =>
      let query_text := strip (query q) in
      if contains_char 34 query_text || contains_char 39 query_text
      then FULL_TEXT
      else if has_metadata_filter (filters q) then METADATA
      else if existsb (fun pattern => search pattern query_text)
                      question_patterns
      then SEMANTIC
      else
        let words := split query_text in
        if (8 <? Z.of_nat (length words))%Z then SEMANTIC
        else KEYWORD
  end.

End Uni.

(** ** Builtins on lists used by [search] *)

(** [a < b] on scores, the only comparison [list.sort] performs: false
    as soon as one side is NaN. *)
Definition score_lt (a b : PyFloat) : bool :=
  match a, b with
  | NaN, _ => false
  | _, NaN => false
  | Infinity true, Infinity true => false
  | Infinity true, _ => true
  | _, Infinity true => false
  | Infinity false, _ => false
  | Finite _, Infinity false => true
  | Finite x, Finite y => negb (Qle_bool y x)
  end.

Section ListSort.
Context {A : Type} (key : A -> PyFloat).

(** [x] enters an ascending run in front of the first element whose key
    is not smaller than its own: only [<] is asked, and [x], which
    stood before the run, stays before the elements it ties with. *)
Fixpoint insert_sorted (x : A) (l : list A) : list A :=
  match l with
  | [] => [x]
  | y :: l' =>
      if score_lt (key y) (key x) then y :: insert_sorted x l' else x :: l
  end.

(** [l.sort(key=key)]: ascending and stable.  The order the builtin
    leaves a list in is fixed by the keys and the positions alone when
    [<] orders the keys, that is when none of them is NaN, and this is
    the order computed here.  Among keys with a NaN the builtin's
    result depends on which pairs its merge strategy happens to
    compare, and the order computed here need not be the builtin's;
    both rearrange the list, and both leave it as it is when no
    element is smaller than the one before it.  What is proved below
    about the order of the results is stated for keys without a NaN. *)
Fixpoint list_sort (l : list A) : list A :=
  match l with
  | [] => []
  | x :: l' => insert_sorted x (list_sort l')
  end.

(** [l.sort(key=key, reverse=True)]: the list is reversed, sorted
    ascending and stably, and reversed again, which keeps elements with
    equal keys in their original order. *)
Definition list_sort_reverse (l : list A) : list A :=
  rev (list_sort (rev l)).

End ListSort.

(** [l[:n]] for any integer [n]: a negative [n] counts from the end. *)
Definition slice_to {A : Type} (l : list A) (n : Z) : list A :=
  let len := Z.of_nat (length l) in
  let stop := if (n <? 0)%Z then Z.max 0 (len + n) else Z.min n len in
  firstn (Z.to_nat stop) l.

(** ** Effects of a search: exceptions and the calls made to the platforms *)

(** A raised exception: its class name and message. *)
Record PyExc : Type := { exc_type : string; exc_msg : string }.

Inductive outcome (A : Type) : Type :=
| Returned (a : A)
| Raised (e : PyExc).

Arguments Returned {A} a.
Arguments Raised {A} e.

(** What a run does to the outside: a platform search is entered, and
    left either by a return or by an exception. *)
Inductive event : Type :=
| Invoke (p : Platform)
| Complete (p : Platform)
| Fail (p : Platform).

Global Instance event_eq_dec : EqDecision event.
Proof. solve_decision. Defined.

(** A computation that logs its events, in program order, and ends with a
    value or an exception. *)
Definition Dispatch (A : Type) : Type := (list event * outcome A)%type.

Global Instance Dispatch_ret : MRet Dispatch :=
  fun A a => ([], Returned a).

Global Instance Dispatch_bind : MBind Dispatch :=
  fun A B f m =>
    match m with
    | (t, Returned a) => let '(t', r) := f a in (t ++ t', r)
    | (t, Raised e) => (t, Raised e)
    end.

Definition trace {A : Type} (m : Dispatch A) : list event := fst m.
Definition result {A : Type} (m : Dispatch A) : outcome A := snd m.

(** A synchronous call of a platform search whose outcome is [r]. *)
Definition call (p : Platform) (r : outcome (list SearchResult))
  : Dispatch (list SearchResult) :=
  match r with
  | Returned l => ([Invoke p; Complete p], Returned l)
  | Raised e => ([Invoke p; Fail p], Raised e)
  end.

(** ** [SearchOrchestrator] *)

(** A retriever object.  The source never builds one (both attributes
    are initialised to [None]); an object that is there is true. *)
Inductive Retriever : Type := retriever_object (name : string).

(** The instance: its two attributes, and the two platform searches
    [_search_google_drive] and [_search_notion].  In the source these two
    methods are stubs that return the empty list; they are fields here so
    that the dispatch loop and the aggregation can be stated for any
    implementation that fills them in (a subclass, a test double). *)
Record SearchOrchestrator : Type := {
  google_drive_retriever : option Retriever;
  notion_retriever : option Retriever;
  _search_google_drive :
    SearchQuery -> SearchMethod -> outcome (list SearchResult);
  _search_notion :
    SearchQuery -> SearchMethod -> outcome (list SearchResult)
}.

(** [SearchOrchestrator()] as the source constructs it. *)
Definition SearchOrchestrator_init : SearchOrchestrator :=
  {| google_drive_retriever := None;
     notion_retriever := None;
     _search_google_drive := fun _ _ => Returned [];
     _search_notion := fun _ _ => Returned [] |}.

(** [not x] on an attribute that is [None] or an object. *)
Definition not_set {A : Type} (o : option A) : bool :=
  match o with
  | None => true
  | Some _ => false
  end.

(** The final [return []] of the source is for a platform that is neither
    member of the enumeration; there is none. *)
Definition _search_platform (self : SearchOrchestrator) (q : SearchQuery)
           (p : Platform) (m : SearchMethod) : Dispatch (list SearchResult) :=
  match p with
  | GOOGLE_DRIVE =>
      if not_set (google_drive_retriever self) then mret []
      else call GOOGLE_DRIVE (_search_google_drive self q m)
  | NOTION =>
      if not_set (notion_retriever self) then mret []
      else call NOTION (_search_notion self q m)
  end.

(** The [for platform in platforms] loop of [search], with [all_results]
    as the accumulator. *)
Fixpoint search_loop (self : SearchOrchestrator) (q : SearchQuery)
         (m : SearchMethod) (platforms : list Platform)
         (all_results : list SearchResult) : Dispatch (list SearchResult) :=
  match platforms with
  | [] => mret all_results
  | p :: platforms' =>
      platform_results ← _search_platform self q p m;
      search_loop self q m platforms' (all_results ++ platform_results)
  end.

Definition search (self : SearchOrchestrator) (q : SearchQuery)
  : Dispatch SearchResponse :=
  let platforms := determine_platforms q in
  let method := determine_search_method q in
  all_results ← search_loop self q method platforms [];
  let all_results := list_sort_reverse score all_results in
  let limited_results := slice_to all_results (limit q) in
  mret {| results := limited_results;
          response_query := q;
          total_results := Z.of_nat (length all_results);
          platforms_searched := platforms;
          method_used := method |}.

(** * Part II. The vocabulary of the statements *)

(** ** Texts *)

Module Text.
Import PyStr.

(** A text made of white space only. *)
Fixpoint allspace (s : string) : bool :=
  match s with
  | EmptyString => true
  | String c s' => isspace c && allspace s'
  end.

(** The characters of a text. *)
Definition chars (s : string) : list ascii := list_ascii_of_string s.

(** [k] occurs in [t] as a contiguous piece. *)
Definition occurs_in (k t : string) : Prop :=
  exists pre post, t = pre +:+ k +:+ post.

(** The last character of a non-empty text is not white space. *)
Fixpoint last_nonspace (s : string) : bool :=
  match s with
  | EmptyString => false
  | String c EmptyString => negb (isspace c)
  | String _ s' => last_nonspace s'
  end.

(** A text that begins and ends with a character that is not white
    space. *)
Definition solid (w : string) : Prop :=
  head_nonspace w = true /\ last_nonspace w = true.

Definition is_nil (s : string) : bool :=
  match s with
  | EmptyString => true
  | String _ _ => false
  end.

(** [eat w s]: what is left of [s] after reading [w] off its front,
    ignoring case. *)
Fixpoint eat (w s : string) : option string :=
  match w with
  | EmptyString => Some s
  | String c w' =>
      match s with
      | String a s' =>
          if Ascii.eqb (lower_char a) (lower_char c) then eat w' s' else None
      | EmptyString => None
      end
  end.

End Text.

(** ** The classifier in the words of its description *)

Module Classifier.
Import PyStr Text.

(** The text contains a single or a double quote character. *)
Definition has_quote (t : string) : Prop :=
  In "'"%char (chars t) \/ In "034"%char (chars t).

(** The keys that make a query a metadata query. *)
Definition recognized_keys : list string :=
  ["author"; "date"; "owner"; "modified_date"; "created_date"].

Definition has_recognized_key (fs : option (gmap string Any)) : Prop :=
  exists d k, fs = Some d /\ In k recognized_keys /\ is_Some (d !! k).

(** The first characters after leading white space spell, in any case,
    one of the wh-words; what follows them is free. *)
Definition starts_with_wh (t : string) : Prop :=
  exists ws w rest,
    t = ws +:+ w +:+ rest /\ allspace ws = true /\ In (lower w) wh_words.

(** The last character before trailing white space is a question mark. *)
Definition ends_with_qmark (t : string) : Prop :=
  exists pre ws,
    t = pre +:+ String "?"%char EmptyString +:+ ws /\ allspace ws = true.

(** One of the phrases occurs in the text, in any case. *)
Definition contains_phrase (t : string) : Prop :=
  exists pre w post, t = pre +:+ w +:+ post /\ In (lower w) phrases.

Definition interrogative (t : string) : Prop :=
  starts_with_wh t \/ ends_with_qmark t \/ contains_phrase t.

(** The number of white-space-separated tokens of the text. *)
Definition token_count (t : string) : nat := length (split t).

(** One of the keywords occurs in the lower-cased text. *)
Definition mentions (keywords : list string) (t : string) : Prop :=
  exists k, In k keywords /\ occurs_in k (lower t).

Definition all_platforms : list Platform := [GOOGLE_DRIVE; NOTION].

End Classifier.

(** ** Texts of arbitrary code points *)

Module UniText.
Import Uni.

(** A text made of white space only. *)
Definition allspace (s : list N) : bool := forallb isspace s.

Fixpoint last_nonspace (s : list N) : bool :=
  match s with
  | [] => false
  | [c] => negb (isspace c)
  | _ :: s' => last_nonspace s'
  end.

Definition solid (w : list N) : Prop :=
  head_nonspace w = true /\ last_nonspace w = true.

Definition is_nil (s : list N) : bool :=
  match s with
  | [] => true
  | _ :: _ => false
  end.

(** [u] spells the ASCII word [w] letter for letter, in any case; for
    the letters i, s and k the case variants include dotted capital I
    and dotless i, long s, and the Kelvin sign. *)
Definition spells (u : list N) (w : string) : Prop :=
  Forall2 (fun a c => ci_eq a c = true) u (list_ascii_of_string w).

(** [eat w s]: what is left of [s] after reading [w] off its front,
    ignoring case. *)
Fixpoint eat (w : string) (s : list N) : option (list N) :=
  match w with
  | EmptyString => Some s
  | String c w' =>
      match s with
      | a :: s' => if ci_eq a c then eat w' s' else None
      | [] => None
      end
  end.

End UniText.

(** ** The method classifier in the words of its description, on texts
    of arbitrary code points *)

Module UniClassifier.
Import Uni UniText.

(** The text contains a single or a double quote character. *)
Definition has_quote (t : list N) : Prop := In 39%N t \/ In 34%N t.

Definition has_recognized_key (fs : option (gmap (list N) Any)) : Prop :=
  exists d k,
    fs = Some d /\ In k Classifier.recognized_keys
    /\ is_Some (d !! of_string k).

(** The first characters after leading white space spell one of the
    wh-words; what follows them is free. *)
Definition starts_with_wh (t : list N) : Prop :=
  exists ws w rest k,
    t = ws ++ w ++ rest /\ allspace ws = true
    /\ In k wh_words /\ spells w k.

(** The last character before trailing white space is a question mark. *)
Definition ends_with_qmark (t : list N) : Prop :=
  exists pre ws, t = pre ++ [63%N] ++ ws /\ allspace ws = true.

(** One of the phrases occurs in the text. *)
Definition contains_phrase (t : list N) : Prop :=
  exists pre w post k, t = pre ++ w ++ post /\ In k phrases /\ spells w k.

Definition interrogative (t : list N) : Prop :=
  starts_with_wh t \/ ends_with_qmark t \/ contains_phrase t.

(** The number of white-space-separated tokens of the text. *)
Definition token_count (t : list N) : nat := length (split t).

End UniClassifier.

(** A query with a text and nothing else. *)
Definition uni_query (t : list N) : Uni.SearchQuery :=
  {| Uni.query := t; Uni.platform := None; Uni.method := None;
     Uni.filters := None; Uni.limit := 10 |}.

(** The word describe written with a long s (U+017F), and the word
    explain written with a dotless i (U+0131). *)
Definition describe_long_s : list N :=
  Uni.of_string "de" ++ [383%N] ++ Uni.of_string "cribe the plan".

Definition explain_dotless_i : list N :=
  Uni.of_string "expla" ++ [305%N] ++ Uni.of_string "n it".

(** A text whose words are separated by ideographic spaces (U+3000). *)
Definition nine_wide_tokens : list N :=
  concat (map (fun w => Uni.of_string w ++ [12288%N])
              ["a"; "b"; "c"; "d"; "e"; "f"; "g"; "h"; "i"]).

(** ** Texts of code points below 256 among all texts *)

(** A query of the first embedding as a query on arbitrary code
    points: same text, same filter keys. *)
Definition widen (q : SearchQuery) : Uni.SearchQuery :=
  {| Uni.query := Uni.of_string (query q);
     Uni.platform := platform q;
     Uni.method := method q;
     Uni.filters :=
       match filters q with
       | Some d => Some (kmap (M2 := gmap (list N)) Uni.of_string d)
       | None => None
       end;
     Uni.limit := limit q |}.

(** The literal characters of a pattern are ASCII. *)
Fixpoint ascii_pattern (r : Re.regex) : bool :=
  match r with
  | Re.Chr c => (N_of_ascii c <? 128)%N
  | Re.Alt r1 r2 => ascii_pattern r1 && ascii_pattern r2
  | Re.Cat r1 r2 => ascii_pattern r1 && ascii_pattern r2
  | _ => true
  end.

(** ** Sorted, stable *)

(** [a <= b] and [a == b] on floats; both are false as soon as one side
    is NaN. *)
Definition float_le (a b : PyFloat) : bool :=
  match a, b with
  | NaN, _ => false
  | _, NaN => false
  | Infinity true, _ => true
  | _, Infinity false => true
  | Infinity false, _ => false
  | Finite _, Infinity true => false
  | Finite x, Finite y => Qle_bool x y
  end.

Definition float_eq (a b : PyFloat) : bool :=
  match a, b with
  | Infinity s, Infinity s' => Bool.eqb s s'
  | Finite x, Finite y => Qeq_bool x y
  | _, _ => false
  end.

Section StableSort.
Context {A : Type} (key : A -> PyFloat).

(** No key of the list is NaN. *)
Definition nan_free (l : list A) : Prop :=
  forall x, In x l -> is_nan (key x) = false.

Definition ascending (l : list A) : Prop :=
  StronglySorted (fun a b => float_le (key a) (key b) = true) l.

Definition descending (l : list A) : Prop :=
  StronglySorted (fun a b => float_le (key b) (key a) = true) l.

Definition same_key (s : PyFloat) (x : A) : bool := float_eq (key x) s.

(** [l'] is [l] sorted by key, largest first, with elements of equal
    key in the order they have in [l]. *)
Definition stable_sort_desc (l l' : list A) : Prop :=
  Permutation l l'
  /\ descending l'
  /\ forall s, List.filter (same_key s) l' = List.filter (same_key s) l.

End StableSort.

(** ** Runs of the dispatch loop *)

(** The retriever attribute of a platform is set. *)
Definition configured (o : SearchOrchestrator) (p : Platform) : bool :=
  match p with
  | GOOGLE_DRIVE => negb (not_set (google_drive_retriever o))
  | NOTION => negb (not_set (notion_retriever o))
  end.

(** The platform search method that belongs to a platform. *)
Definition platform_search (o : SearchOrchestrator) (p : Platform)
  : SearchQuery -> SearchMethod -> outcome (list SearchResult) :=
  match p with
  | GOOGLE_DRIVE => _search_google_drive o
  | NOTION => _search_notion o
  end.

(** What a platform adds to [all_results]: nothing when its retriever
    is not set, else the list its search returned. *)
Definition contribution (o : SearchOrchestrator) (q' : SearchQuery)
           (m' : SearchMethod) (p : Platform) : list SearchResult :=
  if configured o p then
    match platform_search o p q' m' with
    | Returned l => l
    | Raised _ => []
    end
  else [].

(** The events of the calls to the platforms [ps], one after the other,
    each completed. *)
Definition completed_calls (ps : list Platform) : list event :=
  concat (map (fun p => [Invoke p; Complete p]) ps).

(** The calls that are pending after the events [t]. *)
Fixpoint in_flight (t : list event) : Z :=
  match t with
  | [] => 0
  | Invoke _ :: t' => in_flight t' + 1
  | Complete _ :: t' => in_flight t' - 1
  | Fail _ :: t' => in_flight t' - 1
  end.

(** Calls made one at a time: each is left before the next is entered,
    and a call that raises is the last. *)
Inductive sequential : list event -> Prop :=
| sequential_nil : sequential []
| sequential_call (p : Platform) (t : list event) :
    sequential t -> sequential (Invoke p :: Complete p :: t)
| sequential_fail (p : Platform) : sequential [Invoke p; Fail p].

(** ** Sample orchestrators, results and queries *)

Definition sample_result (name : string) (p : Platform) (s : Q) : SearchResult :=
  {| result_id := name; title := name; content := None; url := name;
     result_platform := p; score := Finite s; metadata := ∅ |}.

Definition drive_results : list SearchResult :=
  [sample_result "a" GOOGLE_DRIVE 1; sample_result "b" GOOGLE_DRIVE 3;
   sample_result "c" GOOGLE_DRIVE 1].

Definition notion_results : list SearchResult :=
  [sample_result "d" NOTION 3; sample_result "e" NOTION (1 # 2);
   sample_result "f" NOTION 1].

Definition sample_lists (p : Platform) : list SearchResult :=
  match p with
  | GOOGLE_DRIVE => drive_results
  | NOTION => notion_results
  end.

(** Both retrievers set, both platform searches filled in. *)
Definition two_platforms : SearchOrchestrator :=
  {| google_drive_retriever := Some (retriever_object "drive");
     notion_retriever := Some (retriever_object "notion");
     _search_google_drive := fun _ _ => Returned drive_results;
     _search_notion := fun _ _ => Returned notion_results |}.

(** Only the Notion retriever set. *)
Definition notion_only : SearchOrchestrator :=
  {| google_drive_retriever := None;
     notion_retriever := Some (retriever_object "notion");
     _search_google_drive := fun _ _ => Returned drive_results;
     _search_notion := fun _ _ => Returned notion_results |}.

Definition quota_exceeded : PyExc :=
  {| exc_type := "HttpError"; exc_msg := "quota exceeded" |}.

(** Both retrievers set, the Google Drive search raises. *)
Definition drive_down : SearchOrchestrator :=
  {| google_drive_retriever := Some (retriever_object "drive");
     notion_retriever := Some (retriever_object "notion");
     _search_google_drive := fun _ _ => Raised quota_exceeded;
     _search_notion := fun _ _ => Returned notion_results |}.

Definition plain_query (t : string) : SearchQuery :=
  {| query := t; platform := None; method := None; filters := None;
     limit := 10 |}.

Definition top_four : SearchQuery :=
  {| query := "budget"; platform := None; method := None; filters := None;
     limit := 4 |}.

Definition empty_query : SearchQuery :=
  {| query := EmptyString; platform := None; method := None; filters := None;
     limit := 0 |}.

Definition all_but_two : SearchQuery :=
  {| query := EmptyString; platform := None; method := None; filters := None;
     limit := -2 |}.

(** A quoted text with the method KEYWORD named. *)
Definition quoted_keyword_query : SearchQuery :=
  {| query := String "034" ("project kickoff" +:+ String "034" EmptyString);
     platform := None; method := Some KEYWORD; filters := None; limit := 10 |}.

(** A quoted text with an author filter. *)
Definition quoted_filtered_query : SearchQuery :=
  {| query := String "034" ("reports" +:+ String "034" EmptyString);
     platform := None; method := None;
     filters := Some {[ "author" := AnyStr "john@example.com" ]};
     limit := 10 |}.

(** ** More vocabulary for runs *)

(** The platform an event is about. *)
Definition event_platform (ev : event) : Platform :=
  match ev with
  | Invoke p => p
  | Complete p => p
  | Fail p => p
  end.

(** How often the search of platform [p] is entered in a run. *)
Definition times_invoked (p : Platform) (t : list event) : nat :=
  count_occ event_eq_dec t (Invoke p).

(** The class of the source with its two retriever attributes assigned
    after construction: the two platform searches are the stubs of the
    source. *)
Definition source_orchestrator (g n : option Retriever) : SearchOrchestrator :=
  {| google_drive_retriever := g;
     notion_retriever := n;
     _search_google_drive := _search_google_drive SearchOrchestrator_init;
     _search_notion := _search_notion SearchOrchestrator_init |}.

(** A result whose score is NaN. *)
Definition unscored_result (name : string) (p : Platform) : SearchResult :=
  {| result_id := name; title := name; content := None; url := name;
     result_platform := p; score := NaN; metadata := ∅ |}.

(** Only the Google Drive retriever set, a NaN between two scores. *)
Definition unscored_drive : SearchOrchestrator :=
  {| google_drive_retriever := Some (retriever_object "drive");
     notion_retriever := None;
     _search_google_drive :=
       fun _ _ => Returned [sample_result "a" GOOGLE_DRIVE 1;
                            unscored_result "x" GOOGLE_DRIVE;
                            sample_result "b" GOOGLE_DRIVE 2];
     _search_notion := fun _ _ => Returned [] |}.

(** A text of ASCII characters. *)
Definition ascii_text (t : string) : bool :=
  forallb (fun c => (N_of_ascii c <? 128)%N) (list_ascii_of_string t).

(** Only the Google Drive retriever set, its search returning a list
    that is already ranked. *)
Definition ranked_drive : SearchOrchestrator :=
  {| google_drive_retriever := Some (retriever_object "drive");
     notion_retriever := None;
     _search_google_drive :=
       fun _ _ => Returned [sample_result "b" GOOGLE_DRIVE 3;
                            sample_result "a" GOOGLE_DRIVE 1;
                            sample_result "c" GOOGLE_DRIVE 1];
     _search_notion := fun _ _ => Returned [] |}.

(** ** [export_drive_files.py]: file names *)

Module ExportDrive.

(** [s.replace(old, new)] for one-character [old] and [new]. *)
Fixpoint replace_char (old new : ascii) (s : string) : string :=
  match s with
  | EmptyString => EmptyString
  | String c s' =>
      String (if Ascii.eqb c old then new else c) (replace_char old new s')
  end.

(** The nine characters of [invalid_chars]: less-than, greater-than,
    colon, double quote, slash, backslash, bar, question mark, star. *)
Definition invalid_chars : string :=
  String "<" (String ">" (String ":" (String "034" (String "/"
    (String "\" (String "|" (String "?" (String "*" EmptyString)))))))).

Definition sanitize_filename (filename : string) : string :=
  fold_left (fun filename char => replace_char char "_" filename)
            (list_ascii_of_string invalid_chars) filename.

(** The character is one of the invalid ones. *)
Definition is_invalid (c : ascii) : bool :=
  existsb (Ascii.eqb c) (list_ascii_of_string invalid_chars).

(** Every invalid character of a text replaced by an underscore, every
    other character left where it is. *)
Fixpoint underscored (s : string) : string :=
  match s with
  | EmptyString => EmptyString
  | String c s' => String (if is_invalid c then "_"%char else c) (underscored s')
  end.

End ExportDrive.

(** ** [embedding.py] and [chunking.py]: [Text_Chunking.normalize] *)

Module Chunking.

Definition is_newline (c : ascii) : bool := Ascii.eqb c "010".

(** The class [[ \t]] *)
Definition is_blank (c : ascii) : bool :=
  Ascii.eqb c " " || Ascii.eqb c "009".

(** [re.sub(r'\n{3,}', '\n\n', s)]: of every run of three or more
    newlines the first two stay.  [run] counts the newlines of the
    current run that have been read. *)
Fixpoint collapse_from (run : nat) (s : string) : string :=
  match s with
  | EmptyString => EmptyString
  | String c s' =>
      if is_newline c then
        if 2 <=? run then collapse_from (S run) s'
        else String c (collapse_from (S run) s')
      else String c (collapse_from 0 s')
  end.

Definition collapse_newlines (s : string) : string := collapse_from 0 s.

(** What follows is a possibly empty run of spaces and tabs and then a
    newline. *)
Fixpoint before_newline (s : string) : bool :=
  match s with
  | EmptyString => false
  | String c s' =>
      if is_newline c then true
      else if is_blank c then before_newline s'
      else false
  end.

(** [re.sub(r'[ \t]+\n', '\n', s)]: a space or tab goes when only spaces
    and tabs separate it from the next newline. *)
Fixpoint strip_line_ends (s : string) : string :=
  match s with
  | EmptyString => EmptyString
  | String c s' =>
      if is_blank c && before_newline s' then strip_line_ends s'
      else String c (strip_line_ends s')
  end.

Definition normalize (text : string) : string :=
  let text := collapse_newlines text in
  let text := strip_line_ends text in
  PyStr.strip text.

(** The characters of a text that are not white space, in order. *)
Definition ink (s : string) : list ascii :=
  List.filter (fun c => negb (PyStr.isspace c)) (list_ascii_of_string s).

(** The first character is a newline. *)
Definition head_newline (s : string) : bool :=
  match s with
  | EmptyString => false
  | String c _ => is_newline c
  end.

(** No space or tab stands directly before a newline. *)
Fixpoint tidy_line_ends (s : string) : bool :=
  match s with
  | EmptyString => true
  | String c s' => negb (is_blank c && head_newline s') && tidy_line_ends s'
  end.

End Chunking.

(** ** [embedding.py]: the chunks of a file *)

Module Chunks.
Import PyStr.

(** The [metadata] dict of a chunk. *)
Record ChunkMetadata : Type := {
  file_path : string;
  chunk_index : Z;
  chunk_total : Z;
  filename : string
}.

(** A chunk dict, with its keys [id], [text] and [metadata]. *)
Record Chunk : Type := {
  chunk_id : string;
  chunk_text : string;
  chunk_metadata : ChunkMetadata
}.

(** [str(i)] for an index [i]: its decimal digits. *)
Definition str_of_index (i : nat) : string :=
  NilEmpty.string_of_uint (Nat.to_uint i).

(** The f-string [{path}:{i}] *)
Definition chunk_id_of (path : string) (i : nat) : string :=
  path +:+ String ":" (str_of_index i).

(** [enumerate(l)] *)
Fixpoint enumerate_from {A : Type} (i : nat) (l : list A) : list (nat * A) :=
  match l with
  | [] => []
  | x :: l' => (i, x) :: enumerate_from (S i) l'
  end.

Definition enumerate {A : Type} (l : list A) : list (nat * A) :=
  enumerate_from 0 l.

(** The dict appended for piece [i] with text [text], [total] being the
    length of the list the piece comes from. *)
Definition make_chunk (path name : string) (total : nat) (i : nat)
           (text : string) : Chunk :=
  {| chunk_id := chunk_id_of path i;
     chunk_text := text;
     chunk_metadata :=
       {| file_path := path;
          chunk_index := Z.of_nat i;
          chunk_total := Z.of_nat total;
          filename := name |} |}.

(** [process_docs] of [chunk_docs].  [split_text] is the method of the
    text splitter, which comes from a library. *)
Definition process_docs (split_text : string -> list string)
           (text path name : string) : list Chunk :=
  let text_chunks := split_text text in
  map (fun '(i, chunk) => make_chunk path name (length text_chunks) i chunk)
      (enumerate text_chunks).

(** The class [\d] on code points below 256. *)
Definition is_digit (c : ascii) : bool :=
  let n := code c in ((48 <=? n) && (n <=? 57))%N.

Definition marker_head : string := "=== Slide ".
Definition marker_tail : string := " ===".

Fixpoint drop (n : nat) (s : string) : string :=
  match n, s with
  | O, _ => s
  | S n', String _ s' => drop n' s'
  | S _, EmptyString => EmptyString
  end.

(** [\d+ ===] at the front of [s], [seen] digits having been read: the
    number of characters it takes up. *)
Fixpoint digits_then_tail (seen : nat) (s : string) : option nat :=
  match s with
  | EmptyString => None
  | String c s' =>
      if is_digit c then digits_then_tail (S seen) s'
      else if (1 <=? seen) && startswith marker_tail s
           then Some (seen + String.length marker_tail)
           else None
  end.

(** r'=== Slide \d+ ===' at the front of [s]: the length of the match. *)
Definition match_marker (s : string) : option nat :=
  if startswith marker_head s then
    match digits_then_tail 0 (drop (String.length marker_head) s) with
    | Some n => Some (String.length marker_head + n)
    | None => None
    end
  else None.

(** [re.split(r'=== Slide \d+ ===', s)], read from left to right: [cur]
    is the section being read, [skip] the number of characters of the
    current marker still to pass over. *)
Fixpoint split_slides_from (skip : nat) (cur : string) (s : string)
  : list string :=
  match s with
  | EmptyString => [cur]
  | String c s' =>
      match skip with
      | S k => split_slides_from k cur s'
      | O =>
          match match_marker s with
          | Some n => cur :: split_slides_from (n - 1) EmptyString s'
          | None => split_slides_from 0 (cur +:+ String c EmptyString) s'
          end
      end
  end.

Definition split_slides (s : string) : list string :=
  split_slides_from 0 EmptyString s.

(** [process_slides] of [chunk_slides]. *)
Definition process_slides (text path name : string) : list Chunk :=
  let slide_sections := split_slides text in
  flat_map
    (fun '(i, section) =>
       let section := strip section in
       if truthy section
       then [make_chunk path name (length slide_sections) i section]
       else [])
    (enumerate slide_sections).

End Chunks.

(** ** Sections and markers *)

Module Slides.
Import Chunks.

(** The text made of the sections with the markers between them. *)
Fixpoint weave (sections markers : list string) : string :=
  match sections with
  | [] => EmptyString
  | s :: sections' =>
      match markers with
      | [] => s
      | m :: markers' => s +:+ m +:+ weave sections' markers'
      end
  end.

Fixpoint all_digits (s : string) : bool :=
  match s with
  | EmptyString => true
  | String c s' => is_digit c && all_digits s'
  end.

(** The words [=== Slide ], one or more digits, and [ ===]. *)
Definition is_marker (m : string) : Prop :=
  exists ds,
    ds <> EmptyString /\ all_digits ds = true
    /\ m = marker_head +:+ ds +:+ marker_tail.

End Slides.

(** * Part III. Properties *)

(** ** Strings *)

Module PyStrFacts.
Import PyStr Text.

Lemma str_app_nil_l (s : string) : EmptyString +:+ s = s.
Proof. reflexivity. Qed.

Lemma str_app_cons (c : ascii) (s t : string) :
  String c s +:+ t = String c (s +:+ t).
Proof. reflexivity. Qed.

Ltac str_norm := repeat (rewrite str_app_nil_l in * || rewrite str_app_cons in * ).

Lemma str_app_nil_r (s : string) : s +:+ EmptyString = s.
Proof. induction s as [|c s IH]; [reflexivity|]. rewrite str_app_cons, IH. reflexivity. Qed.

Lemma str_app_assoc (s t u : string) : (s +:+ t) +:+ u = s +:+ t +:+ u.
Proof.
  induction s as [|c s IH]; [reflexivity|].
  rewrite !str_app_cons, IH. reflexivity.
Qed.

Lemma str_app_eq_nil (s t : string) :
  s +:+ t = EmptyString -> s = EmptyString /\ t = EmptyString.
Proof. destruct s; [rewrite str_app_nil_l; auto|rewrite str_app_cons; discriminate]. Qed.

Lemma lower_app (s t : string) : lower (s +:+ t) = lower s +:+ lower t.
Proof.
  induction s as [|c s IH]; [reflexivity|].
  rewrite str_app_cons. simpl. rewrite IH, str_app_cons. reflexivity.
Qed.

Lemma allspace_app (s t : string) :
  allspace (s +:+ t) = allspace s && allspace t.
Proof.
  induction s as [|c s IH]; [reflexivity|].
  rewrite str_app_cons. simpl. rewrite IH. apply andb_assoc.
Qed.

(** Lower-casing neither creates nor removes white space. *)
Lemma isspace_lower_char (c : ascii) : isspace (lower_char c) = isspace c.
Proof. destruct c as [[] [] [] [] [] [] [] []]; reflexivity. Qed.

Lemma head_nonspace_lower (s : string) :
  head_nonspace (lower s) = head_nonspace s.
Proof. destruct s; simpl; [reflexivity|]. rewrite isspace_lower_char. reflexivity. Qed.

Lemma last_nonspace_lower (s : string) :
  last_nonspace (lower s) = last_nonspace s.
Proof.
  induction s as [|c s IH]; [reflexivity|].
  destruct s as [|c' s]; simpl in *.
  - rewrite isspace_lower_char. reflexivity.
  - exact IH.
Qed.

Lemma solid_lower (w : string) : solid (lower w) -> solid w.
Proof. unfold solid. rewrite head_nonspace_lower, last_nonspace_lower. auto. Qed.

Lemma startswith_spec (p s : string) :
  startswith p s = true <-> exists post, s = p +:+ post.
Proof.
  revert s. induction p as [|a p IH]; intros s; simpl.
  - split; [intros _; exists s; reflexivity|reflexivity].
  - destruct s as [|b s].
    + split; [discriminate|intros [post H]; rewrite str_app_cons in H; discriminate].
    + rewrite andb_true_iff, IH, Ascii.eqb_eq. split.
      * intros [-> [post ->]]. exists post. reflexivity.
      * intros [post H]. rewrite str_app_cons in H. injection H as -> ->. eauto.
Qed.

Lemma contains_spec (k t : string) : contains k t = true <-> occurs_in k t.
Proof.
  unfold occurs_in. induction t as [|c t IH]; simpl.
  - rewrite orb_false_r, startswith_spec. split.
    + intros [post H]. exists EmptyString, post. exact H.
    + intros (pre & post & H). symmetry in H.
      apply str_app_eq_nil in H as [-> H].
      exists post. symmetry. exact H.
  - rewrite orb_true_iff, startswith_spec, IH. split.
    + intros [[post H]|(pre & post & H)].
      * exists EmptyString, post. exact H.
      * exists (String c pre), post. rewrite str_app_cons, H. reflexivity.
    + intros (pre & post & H). destruct pre as [|c' pre].
      * left. exists post. exact H.
      * right. rewrite str_app_cons in H. injection H as _ H. eauto.
Qed.

Lemma contains_char_spec (c : ascii) (t : string) :
  contains_char c t = true <-> In c (chars t).
Proof.
  unfold contains_char, chars. induction t as [|a t IH]; simpl.
  - split; [discriminate|tauto].
  - rewrite orb_true_iff, andb_true_iff, Ascii.eqb_eq, IH.
    destruct t; simpl; intuition congruence.
Qed.

Lemma chars_app (s t : string) : chars (s +:+ t) = (chars s ++ chars t)%list.
Proof.
  unfold chars. induction s as [|c s IH]; [reflexivity|].
  rewrite str_app_cons. simpl. rewrite IH. reflexivity.
Qed.

Lemma allspace_chars (s : string) (c : ascii) :
  allspace s = true -> In c (chars s) -> isspace c = true.
Proof.
  unfold chars. induction s as [|a s IH]; simpl; [tauto|].
  rewrite andb_true_iff. intros [Ha Hs] [<-|Hin]; auto.
Qed.

Lemma lstrip_decompose (s : string) :
  exists l, s = l +:+ lstrip s /\ allspace l = true.
Proof.
  induction s as [|c s (l & Hl & Hsp)]; simpl.
  - exists EmptyString. auto.
  - destruct (isspace c) eqn:Hc.
    + exists (String c l). rewrite str_app_cons, <- Hl. simpl. rewrite Hc, Hsp. auto.
    + exists EmptyString. auto.
Qed.

Lemma rstrip_decompose (s : string) :
  exists r, s = rstrip s +:+ r /\ allspace r = true.
Proof.
  induction s as [|c s (r & Hr & Hsp)]; simpl.
  - exists EmptyString. auto.
  - destruct (rstrip s) as [|a s'] eqn:Hs.
    + destruct (isspace c) eqn:Hc.
      * exists (String c r). rewrite str_app_nil_l in *. subst r. simpl.
        rewrite Hc, Hsp. auto.
      * exists r. rewrite str_app_nil_l in Hr. rewrite str_app_cons, str_app_nil_l.
        subst r. auto.
    + exists r. rewrite str_app_cons, <- Hr. auto.
Qed.

Lemma strip_decompose (s : string) :
  exists l r, s = l +:+ strip s +:+ r
              /\ allspace l = true /\ allspace r = true.
Proof.
  destruct (lstrip_decompose s) as (l & Hl & Hlsp).
  destruct (rstrip_decompose (lstrip s)) as (r & Hr & Hrsp).
  exists l, r. unfold strip. rewrite <- Hr, <- Hl. auto.
Qed.

Lemma lstrip_allspace (l s : string) :
  allspace l = true -> lstrip (l +:+ s) = lstrip s.
Proof.
  induction l as [|c l IH]; [reflexivity|].
  simpl. rewrite andb_true_iff. intros [Hc Hl].
  rewrite Hc. auto.
Qed.

Lemma lstrip_head_nonspace (s : string) :
  head_nonspace s = true -> lstrip s = s.
Proof. destruct s as [|c s]; simpl; [discriminate|]. destruct (isspace c); [discriminate|reflexivity]. Qed.

Lemma rstrip_allspace (r : string) : allspace r = true -> rstrip r = EmptyString.
Proof.
  induction r as [|c r IH]; [reflexivity|].
  simpl. rewrite andb_true_iff. intros [Hc Hr]. rewrite (IH Hr), Hc. reflexivity.
Qed.

Lemma last_nonspace_app (s t : string) :
  last_nonspace t = true -> last_nonspace (s +:+ t) = true.
Proof.
  intros Ht. induction s as [|c s IH]; [exact Ht|].
  rewrite str_app_cons. simpl. destruct (s +:+ t) eqn:E; [|exact IH].
  simpl in IH. discriminate.
Qed.

(** Stripping on the right keeps everything up to a non-space character. *)
Lemma rstrip_keeps (u v : string) :
  last_nonspace u = true -> rstrip (u +:+ v) = u +:+ rstrip v.
Proof.
  induction u as [|c u IH]; [discriminate|].
  rewrite !str_app_cons. simpl. destruct u as [|c' u].
  - rewrite !str_app_nil_l. intros Hc. destruct (isspace c); [discriminate|].
    destruct (rstrip v); reflexivity.
  - intros Hu. rewrite (IH Hu). rewrite str_app_cons. reflexivity.
Qed.

Lemma rstrip_last (s u : string) (c : ascii) :
  rstrip s = u +:+ String c EmptyString -> isspace c = false.
Proof.
  revert u. induction s as [|a s IH]; intros u; simpl.
  - destruct u; [rewrite str_app_nil_l|rewrite str_app_cons]; discriminate.
  - destruct (rstrip s) as [|b r] eqn:Hr.
    + destruct (isspace a) eqn:Ha.
      * destruct u; [rewrite str_app_nil_l|rewrite str_app_cons]; discriminate.
      * destruct u as [|a' u]; [rewrite str_app_nil_l|rewrite str_app_cons].
        -- intros [= ->]. exact Ha.
        -- intros [= _ H]. destruct u; discriminate H.
    + destruct u as [|a' u]; [rewrite str_app_nil_l|rewrite str_app_cons].
      * discriminate.
      * intros [= _ H]. eapply IH. exact H.
Qed.

(** A piece that begins and ends with a non-space character survives
    [strip], together with what lies around it up to white space. *)
Lemma strip_keeps (pre w post : string) :
  solid w ->
  exists pre' post',
    strip (pre +:+ w +:+ post) = pre' +:+ w +:+ post'
    /\ (allspace pre = true -> pre' = EmptyString)
    /\ (allspace post = true -> post' = EmptyString).
Proof.
  intros [Hh Hl]. unfold strip.
  assert (head_nonspace (w +:+ post) = true) as Hh'.
  { destruct w; [discriminate|exact Hh]. }
  exists (lstrip pre), (rstrip post).
  assert (lstrip (pre +:+ w +:+ post) = lstrip pre +:+ w +:+ post) as ->.
  { induction pre as [|c pre IH].
    - rewrite !str_app_nil_l. apply lstrip_head_nonspace, Hh'.
    - rewrite str_app_cons. simpl. destruct (isspace c); [exact IH|reflexivity]. }
  rewrite <- !str_app_assoc.
  rewrite rstrip_keeps by (apply last_nonspace_app, Hl).
  repeat split.
  - intros Hsp. rewrite <- (str_app_nil_r pre). rewrite lstrip_allspace by exact Hsp.
    reflexivity.
  - apply rstrip_allspace.
Qed.

Lemma contains_char_strip (c : ascii) (s : string) :
  isspace c = false -> contains_char c (strip s) = contains_char c s.
Proof.
  intros Hc. apply eq_true_iff_eq. rewrite !contains_char_spec.
  destruct (strip_decompose s) as (l & r & Hs & Hl & Hr).
  rewrite Hs at 2. rewrite !chars_app, !in_app_iff. split; [tauto|].
  intros [H|[H|H]]; [|exact H|].
  - apply (allspace_chars _ _ Hl) in H. congruence.
  - apply (allspace_chars _ _ Hr) in H. congruence.
Qed.

Lemma split_lstrip (s : string) : split (lstrip s) = split s.
Proof.
  induction s as [|c s IH]; [reflexivity|].
  simpl. destruct (isspace c) eqn:Hc; [exact IH|].
  simpl. rewrite Hc. reflexivity.
Qed.

Lemma rstrip_head (s : string) (a : ascii) (r : string) :
  rstrip s = String a r -> head_nonspace (rstrip s) = head_nonspace s.
Proof.
  destruct s as [|c s]; simpl; [discriminate|].
  destruct (rstrip s); [destruct (isspace c) eqn:Hc|];
    simpl; try discriminate; try rewrite Hc; auto.
Qed.

Lemma split_nil_allspace (s : string) : allspace s = true -> split s = [].
Proof.
  induction s as [|c s IH]; [reflexivity|].
  simpl. rewrite andb_true_iff. intros [-> Hs]. auto.
Qed.

Lemma rstrip_nil_allspace (s : string) :
  rstrip s = EmptyString -> allspace s = true.
Proof.
  intros H. destruct (rstrip_decompose s) as (r & Hr & Hsp).
  rewrite H, str_app_nil_l in Hr. congruence.
Qed.

Lemma head_nonspace_allspace (s : string) :
  allspace s = true -> head_nonspace s = false.
Proof. destruct s as [|c s]; simpl; [reflexivity|]. destruct (isspace c); [reflexivity|discriminate]. Qed.

Lemma split_rstrip (s : string) : split (rstrip s) = split s.
Proof.
  induction s as [|c s IH]; [reflexivity|].
  simpl. destruct (rstrip s) as [|a r] eqn:Hr.
  - pose proof (rstrip_nil_allspace _ Hr) as Hsp.
    rewrite (split_nil_allspace _ Hsp), (head_nonspace_allspace _ Hsp).
    destruct (isspace c) eqn:Hc; simpl; [reflexivity|]. rewrite Hc. reflexivity.
  - pose proof (rstrip_head _ _ _ Hr) as Hh. rewrite Hr in Hh.
    change (split (String c (String a r))) with
      (if isspace c then split (String a r)
       else if head_nonspace (String a r) then
              match split (String a r) with
              | w :: ws => String c w :: ws
              | [] => [String c EmptyString]
              end
            else String c EmptyString :: split (String a r)).
    rewrite Hh, IH. reflexivity.
Qed.

Lemma split_strip (s : string) : split (strip s) = split s.
Proof. unfold strip. rewrite split_rstrip. apply split_lstrip. Qed.

End PyStrFacts.

(** ** Regular expressions *)

Module ReFacts.
Import PyStr Text PyStrFacts Re.

Lemma eat_spec (w s v : string) :
  eat w s = Some v <-> exists u, s = u +:+ v /\ lower u = lower w.
Proof.
  revert s. induction w as [|c w IH]; intros s; simpl.
  - split.
    + intros [= ->]. exists EmptyString. auto.
    + intros (u & -> & Hu). destruct u; [reflexivity|discriminate].
  - destruct s as [|a s].
    + split; [discriminate|]. intros (u & Hs & Hu).
      destruct u; discriminate.
    + destruct (Ascii.eqb_spec (lower_char a) (lower_char c)) as [Hac|Hac].
      * rewrite IH. split.
        -- intros (u & -> & Hu). exists (String a u). simpl.
           rewrite Hac, Hu. auto.
        -- intros (u & Hs & Hu). destruct u as [|a' u]; [discriminate|].
           simpl in Hs, Hu. injection Hs as -> ->. injection Hu as _ Hu.
           eauto.
      * split; [discriminate|]. intros (u & Hs & Hu).
        destruct u as [|a' u]; [discriminate|].
        simpl in Hs, Hu. injection Hs as -> ->. injection Hu as Hc _.
        contradiction.
Qed.

Lemma matches_word (w : string) (b : bool) (s : string)
      (k : bool -> string -> bool) :
  matches (word w) b s k
  = match eat w s with
    | Some v => k (b && is_nil w) v
    | None => false
    end.
Proof.
  revert b s. induction w as [|c w IH]; intros b s; simpl.
  - rewrite andb_true_r. reflexivity.
  - destruct s as [|a s]; [reflexivity|].
    destruct (Ascii.eqb (lower_char a) (lower_char c)); [|reflexivity].
    simpl. rewrite IH, andb_false_r. reflexivity.
Qed.

Lemma spaces_then_spec (k : bool -> string -> bool) (b : bool) (s : string) :
  spaces_then k b s = true
  <-> exists ws v, s = ws +:+ v /\ allspace ws = true
                   /\ k (b && is_nil ws) v = true.
Proof.
  revert b. induction s as [|a s IH]; intros b; simpl.
  - split.
    + intros H. exists EmptyString, EmptyString. rewrite andb_true_r. auto.
    + intros (ws & v & Hs & _ & Hk). symmetry in Hs.
      apply str_app_eq_nil in Hs as [-> ->]. rewrite andb_true_r in Hk. exact Hk.
  - rewrite orb_true_iff, andb_true_iff, IH. split.
    + intros [[Ha (ws & v & -> & Hws & Hk)]|Hk].
      * exists (String a ws), v. simpl. rewrite Ha, Hws, andb_false_r.
        destruct ws; auto.
      * exists EmptyString, (String a s). rewrite andb_true_r. auto.
    + intros (ws & v & Hs & Hws & Hk). destruct ws as [|a' ws].
      * right. str_norm. subst v. rewrite andb_true_r in Hk. exact Hk.
      * left. str_norm. simpl in Hws. injection Hs as -> ->.
        apply andb_true_iff in Hws as [Ha Hws]. split; [exact Ha|].
        exists ws, v. rewrite andb_false_r in Hk. simpl. auto.
Qed.

Lemma matches_alts (rs : list regex) (b : bool) (s : string)
      (k : bool -> string -> bool) :
  rs <> [] -> matches (alts rs) b s k = existsb (fun r => matches r b s k) rs.
Proof.
  induction rs as [|r rs IH]; [congruence|]. intros _.
  destruct rs as [|r' rs].
  - simpl. rewrite orb_false_r. reflexivity.
  - change (alts (r :: r' :: rs)) with (Alt r (alts (r' :: rs))).
    change (matches (Alt r (alts (r' :: rs))) b s k)
      with (matches r b s k || matches (alts (r' :: rs)) b s k).
    rewrite IH by congruence. reflexivity.
Qed.

Lemma search_from_spec (r : regex) (b : bool) (s : string) :
  search_from r b s = true
  <-> exists pre v, s = pre +:+ v /\ match_here r (b && is_nil pre) v = true.
Proof.
  revert b. induction s as [|a s IH]; intros b; simpl.
  - rewrite orb_false_r. split.
    + intros H. exists EmptyString, EmptyString. rewrite andb_true_r. auto.
    + intros (pre & v & Hs & H). symmetry in Hs.
      apply str_app_eq_nil in Hs as [-> ->]. rewrite andb_true_r in H. exact H.
  - rewrite orb_true_iff, IH. split.
    + intros [H|(pre & v & -> & H)].
      * exists EmptyString, (String a s). rewrite andb_true_r. auto.
      * exists (String a pre), v. rewrite andb_false_r. auto.
    + intros (pre & v & Hs & H). destruct pre as [|a' pre].
      * left. str_norm. subst v. rewrite andb_true_r in H. exact H.
      * right. str_norm. injection Hs as -> ->.
        rewrite andb_false_r in H. eauto.
Qed.

(** A literal word, tried at one position. *)
Lemma match_here_word (w : string) (b : bool) (s : string) :
  match_here (word w) b s = true
  <-> exists u v, s = u +:+ v /\ lower u = lower w.
Proof.
  unfold match_here. rewrite matches_word. split.
  - destruct (eat w s) as [v|] eqn:E; [|discriminate]. intros _.
    apply eat_spec in E as (u & Hs & Hu). eauto.
  - intros (u & v & Hs & Hu).
    assert (eat w s = Some v) as -> by (apply eat_spec; eauto). reflexivity.
Qed.

Lemma match_here_words (ws : list string) (b : bool) (s : string) :
  ws <> [] ->
  match_here (alts (map word ws)) b s = true
  <-> exists w u v, In w ws /\ s = u +:+ v /\ lower u = lower w.
Proof.
  intros Hne. unfold match_here. rewrite matches_alts by (destruct ws; simpl; congruence).
  rewrite existsb_exists. split.
  - intros (r & Hr & Hm). apply in_map_iff in Hr as (w & <- & Hw).
    apply match_here_word in Hm as (u & v & Hs & Hu). eauto 6.
  - intros (w & u & v & Hw & Hs & Hu). exists (word w). split.
    + apply in_map. exact Hw.
    + apply match_here_word. eauto.
Qed.

End ReFacts.

(** ** The tests of the classifier *)

Module ClassifierFacts.
Import PyStr Text PyStrFacts Re ReFacts Classifier.

Lemma quote_test (t : string) :
  contains_char "034"%char (strip t) || contains_char "'"%char (strip t) = true
  <-> has_quote t.
Proof.
  unfold has_quote.
  rewrite !contains_char_strip by reflexivity.
  rewrite orb_true_iff, !contains_char_spec. tauto.
Qed.

Lemma has_metadata_filter_spec (fs : option (gmap string Any)) :
  has_metadata_filter fs = true <-> has_recognized_key fs.
Proof.
  unfold has_metadata_filter, has_recognized_key. destruct fs as [d|].
  - rewrite andb_true_iff, negb_true_iff, bool_decide_eq_false, existsb_exists.
    split.
    + intros [_ (k & Hk & Hd)]. apply bool_decide_eq_true in Hd.
      exists d, k. repeat split; [|exact Hd].
      unfold metadata_keys, recognized_keys in *. simpl in *. tauto.
    + intros (d' & k & [= <-] & Hk & Hd). split.
      * intros ->. rewrite lookup_empty in Hd. destruct Hd as [? [=]].
      * exists k. split; [|apply bool_decide_eq_true; exact Hd].
        unfold metadata_keys, recognized_keys in *. simpl in *. tauto.
  - split; [discriminate|]. intros (d & k & [=] & _).
Qed.

Lemma wh_words_solid (w : string) : In (lower w) wh_words -> solid w.
Proof.
  intros H. apply solid_lower. revert H. generalize (lower w). intros u.
  unfold wh_words. simpl. intros H.
  repeat (destruct H as [<-|H]; [split; reflexivity|]). destruct H.
Qed.

Lemma phrases_solid (w : string) : In (lower w) phrases -> solid w.
Proof.
  intros H. apply solid_lower. revert H. generalize (lower w). intros u.
  unfold phrases. simpl. intros H.
  repeat (destruct H as [<-|H]; [split; reflexivity|]). destruct H.
Qed.

Lemma wh_words_lower (w : string) : In w wh_words -> lower w = w.
Proof.
  unfold wh_words. simpl. intros H.
  repeat (destruct H as [<-|H]; [reflexivity|]). destruct H.
Qed.

Lemma phrases_lower (w : string) : In w phrases -> lower w = w.
Proof.
  unfold phrases. simpl. intros H.
  repeat (destruct H as [<-|H]; [reflexivity|]). destruct H.
Qed.

Lemma match_here_wh (b : bool) (v : string) :
  match_here pattern_wh b v
  = b && spaces_then
           (fun b' s' => match_here (alts (map word wh_words)) b' s') b v.
Proof. reflexivity. Qed.

Lemma search_wh (s : string) :
  search pattern_wh s = true <-> starts_with_wh s.
Proof.
  unfold search, starts_with_wh. rewrite search_from_spec. split.
  - intros (pre & v & -> & H). rewrite match_here_wh in H.
    apply andb_true_iff in H as [Hpre H].
    destruct pre; [|discriminate]. rewrite str_app_nil_l.
    apply spaces_then_spec in H as (ws & v' & -> & Hws & H).
    apply match_here_words in H as (w & u & rest & Hw & -> & Hu); [|discriminate].
    exists ws, u, rest. rewrite Hu, (wh_words_lower _ Hw). auto.
  - intros (ws & w & rest & -> & Hws & Hw).
    exists EmptyString, (ws +:+ w +:+ rest). split; [reflexivity|].
    change (true && is_nil EmptyString) with true.
    rewrite match_here_wh, andb_true_l.
    apply spaces_then_spec. exists ws, (w +:+ rest). repeat split; [exact Hws|].
    apply match_here_words; [discriminate|].
    exists (lower w), w, rest. rewrite (wh_words_lower _ Hw). auto.
Qed.

Lemma starts_with_wh_strip (t : string) :
  starts_with_wh (strip t) <-> starts_with_wh t.
Proof.
  unfold starts_with_wh. split.
  - intros (ws & w & rest & Hs & Hws & Hw).
    destruct (strip_decompose t) as (l & r & Ht & Hl & Hr).
    exists (l +:+ ws), w, (rest +:+ r). rewrite Ht at 1. rewrite Hs.
    rewrite !str_app_assoc, allspace_app, Hl, Hws. auto.
  - intros (ws & w & rest & -> & Hws & Hw).
    destruct (strip_keeps ws w rest (wh_words_solid _ Hw))
      as (pre' & post' & -> & Hpre & _).
    rewrite (Hpre Hws). exists EmptyString, w, post'. auto.
Qed.

Lemma lower_char_qmark (a : ascii) :
  Ascii.eqb (lower_char a) (lower_char "?") = Ascii.eqb a "?".
Proof. destruct a as [[] [] [] [] [] [] [] []]; reflexivity. Qed.

Lemma match_here_qmark (b : bool) (v : string) :
  match_here pattern_qmark b v
  = match v with
    | String a v' => Ascii.eqb a "?" && at_eol v'
    | EmptyString => false
    end.
Proof.
  destruct v as [|a v']; [reflexivity|].
  unfold match_here, pattern_qmark. simpl.
  rewrite lower_char_qmark, andb_true_r. reflexivity.
Qed.

Lemma search_qmark (s : string) :
  search pattern_qmark s = true
  <-> exists pre,
        s = pre +:+ String "?"%char EmptyString
        \/ s = pre +:+ String "?"%char (String "010"%char EmptyString).
Proof.
  unfold search. rewrite search_from_spec. split.
  - intros (pre & v & -> & H). rewrite match_here_qmark in H.
    destruct v as [|a v']; [discriminate|].
    apply andb_true_iff in H as [Ha Hv]. apply Ascii.eqb_eq in Ha as ->.
    unfold at_eol in Hv. apply orb_true_iff in Hv as [Hv|Hv];
      apply String.eqb_eq in Hv as ->; eauto.
  - intros (pre & [->| ->]); eexists pre, _; (split; [reflexivity|]);
      rewrite match_here_qmark; reflexivity.
Qed.

Lemma search_qmark_strip (t : string) :
  search pattern_qmark (strip t) = true <-> ends_with_qmark t.
Proof.
  rewrite search_qmark. unfold ends_with_qmark. split.
  - intros (pre & [Hs|Hs]).
    + destruct (strip_decompose t) as (l & r & Ht & Hl & Hr).
      exists (l +:+ pre), r. rewrite Ht at 1. rewrite Hs, !str_app_assoc. auto.
    + exfalso. unfold strip in Hs.
      change (pre +:+ String "?"%char (String "010"%char EmptyString))
        with (pre +:+ String "?"%char EmptyString +:+ String "010"%char EmptyString) in Hs.
      rewrite <- str_app_assoc in Hs. apply rstrip_last in Hs. discriminate.
  - intros (pre & ws & -> & Hws).
    destruct (strip_keeps pre (String "?"%char EmptyString) ws)
      as (pre' & post' & -> & _ & Hpost); [split; reflexivity|].
    rewrite (Hpost Hws). exists pre'. left. reflexivity.
Qed.

Lemma search_phrase (s : string) :
  search pattern_phrase s = true <-> contains_phrase s.
Proof.
  unfold search, contains_phrase, pattern_phrase. rewrite search_from_spec. split.
  - intros (pre & v & -> & H).
    apply match_here_words in H as (w & u & post & Hw & -> & Hu); [|discriminate].
    exists pre, u, post. rewrite Hu, (phrases_lower _ Hw). auto.
  - intros (pre & w & post & -> & Hw). exists pre, (w +:+ post).
    split; [reflexivity|]. apply match_here_words; [discriminate|].
    exists (lower w), w, post. rewrite (phrases_lower _ Hw). auto.
Qed.

Lemma contains_phrase_strip (t : string) :
  contains_phrase (strip t) <-> contains_phrase t.
Proof.
  unfold contains_phrase. split.
  - intros (pre & w & post & Hs & Hw).
    destruct (strip_decompose t) as (l & r & Ht & Hl & Hr).
    exists (l +:+ pre), w, (post +:+ r). rewrite Ht at 1.
    rewrite Hs, !str_app_assoc. auto.
  - intros (pre & w & post & -> & Hw).
    destruct (strip_keeps pre w post (phrases_solid _ Hw))
      as (pre' & post' & -> & _). eauto.
Qed.

Lemma question_test (t : string) :
  existsb (fun pattern => search pattern (strip t)) question_patterns = true
  <-> interrogative t.
Proof.
  unfold question_patterns, interrogative. simpl existsb.
  rewrite !orb_true_iff, search_wh, starts_with_wh_strip, search_qmark_strip,
    search_phrase, contains_phrase_strip.
  intuition discriminate.
Qed.

Lemma any_keyword_in_spec (keywords : list string) (t : string) :
  any_keyword_in keywords (lower t) = true <-> mentions keywords t.
Proof.
  unfold any_keyword_in, mentions. rewrite existsb_exists.
  split; intros (k & Hk & H); exists k; (split; [exact Hk|]);
    apply contains_spec; exact H.
Qed.

Lemma all_platforms_complete (p : Platform) : In p all_platforms.
Proof. destruct p; simpl; auto. Qed.

End ClassifierFacts.

Ltac no_quote :=
  unfold Classifier.has_quote; simpl; intros [H|H];
  repeat (destruct H as [H|H]; [discriminate H|]); exact H.

Ltac no_key :=
  intros (d & k & Hd & _); discriminate Hd.

(** ** Method selection *)

Section MethodSelection.
Import PyStr Text PyStrFacts Classifier ClassifierFacts.

(** Every member of the two enumerations is true as a string. *)
Lemma if_set_method (o : option SearchMethod) :
  if_set SearchMethod_value o = o.
Proof. destruct o as [[]|]; reflexivity. Qed.

Lemma if_set_platform (o : option Platform) :
  if_set Platform_value o = o.
Proof. destruct o as [[]|]; reflexivity. Qed.

(** The decision list of [determine_search_method] once no method is
    given, with each test read on the text as the caller wrote it. *)
Lemma method_heuristics (q : SearchQuery) :
  method q = None ->
  (has_quote (query q) -> determine_search_method q = FULL_TEXT)
  /\ (~ has_quote (query q) -> has_recognized_key (filters q) ->
      determine_search_method q = METADATA)
  /\ (~ has_quote (query q) -> ~ has_recognized_key (filters q) ->
      interrogative (query q) \/ 8 < token_count (query q) ->
      determine_search_method q = SEMANTIC)
  /\ (~ has_quote (query q) -> ~ has_recognized_key (filters q) ->
      ~ (interrogative (query q) \/ 8 < token_count (query q)) ->
      determine_search_method q = KEYWORD).
Proof.
  intros Hm. unfold determine_search_method.
  rewrite if_set_method, Hm. cbv zeta.
  pose proof (quote_test (query q)) as Hq.
  pose proof (has_metadata_filter_spec (filters q)) as Hf.
  pose proof (question_test (query q)) as Hi.
  rewrite split_strip. fold (token_count (query q)).
  destruct (contains_char "034" (strip (query q))
            || contains_char "'" (strip (query q))).
  { repeat split; intros; try reflexivity; tauto. }
  destruct (has_metadata_filter (filters q)).
  { repeat split; intros; try reflexivity;
      solve [exfalso; intuition discriminate]. }
  destruct (existsb _ question_patterns).
  { repeat split; intros; try reflexivity;
      solve [exfalso; intuition discriminate]. }
  destruct (Z.ltb_spec 8 (Z.of_nat (token_count (query q)))) as [Hlt|Hge].
  - repeat split; intros; try reflexivity;
      try solve [exfalso; intuition discriminate].
    exfalso. apply H1. right. lia.
  - repeat split; intros; try reflexivity;
      try solve [exfalso; intuition discriminate].
    exfalso. destruct H1 as [H1|H1]; [intuition discriminate|lia].
Qed.

(** C6. A query that names a method gets exactly that method, whatever
    its text, platform, filters and limit are. *)
Theorem explicit_method_is_returned
        (t : string) (p : option Platform) (m : SearchMethod)
        (fs : option (gmap string Any)) (l : Z) :
  determine_search_method
    {| query := t; platform := p; method := Some m; filters := fs; limit := l |}
  = m.
Proof.
  unfold determine_search_method. rewrite if_set_method. reflexivity.
Qed.

(** C3 without a proviso on the method does not hold: a quoted text
    with the method KEYWORD named stays KEYWORD. *)
Lemma quoted_text_not_always_full_text :
  ~ (forall q : SearchQuery,
        has_quote (query q) -> determine_search_method q = FULL_TEXT).
Proof.
  intros H. specialize (H quoted_keyword_query).
  assert (has_quote (query quoted_keyword_query)) as Hq.
  { right. simpl. auto. }
  specialize (H Hq). vm_compute in H. discriminate.
Qed.

(** C3, amended. With no method named, a text that contains a single
    or a double quote is searched FULL_TEXT, whatever its length and
    its filters. *)
Theorem quoted_text_is_full_text (q : SearchQuery) :
  method q = None ->
  has_quote (query q) ->
  determine_search_method q = FULL_TEXT.
Proof. intros Hm Hq. apply (method_heuristics q Hm), Hq. Qed.

Lemma quoted_text_is_full_text_witness :
  determine_search_method
    {| query := "it's a long question, what do the very many filters say?";
       platform := None; method := None;
       filters := Some {[ "author" := AnyStr "john" ]}; limit := 10 |}
  = FULL_TEXT.
Proof.
  apply quoted_text_is_full_text; [reflexivity|].
  left. simpl. auto.
Defined.

(** C4 without a proviso on quotes does not hold: a quoted text with
    an author filter is FULL_TEXT, not METADATA. *)
Lemma filtered_query_not_always_metadata :
  ~ (forall q : SearchQuery,
        method q = None -> has_recognized_key (filters q) ->
        determine_search_method q = METADATA).
Proof.
  intros H. specialize (H quoted_filtered_query eq_refl).
  assert (has_recognized_key (filters quoted_filtered_query)) as Hk.
  { eexists _, "author". split; [reflexivity|]. split; [simpl; auto|].
    vm_compute. eauto. }
  specialize (H Hk). vm_compute in H. discriminate.
Qed.

(** C4, amended. With no method named and no quote in the text, a
    query whose filters hold one of the keys author, date, owner,
    modified_date, created_date is searched METADATA, also when its
    text is a question. *)
Theorem filtered_query_is_metadata (q : SearchQuery) :
  method q = None ->
  ~ has_quote (query q) ->
  has_recognized_key (filters q) ->
  determine_search_method q = METADATA.
Proof. intros Hm Hq Hk. apply (method_heuristics q Hm); assumption. Qed.

Lemma filtered_query_is_metadata_witness :
  interrogative "what did sarah explain?"
  /\ determine_search_method
       {| query := "what did sarah explain?";
          platform := None; method := None;
          filters := Some {[ "owner" := AnyStr "sarah" ]}; limit := 10 |}
     = METADATA.
Proof.
  split.
  - left. exists EmptyString, "what", " did sarah explain?".
    repeat split. simpl. auto.
  - apply filtered_query_is_metadata; [reflexivity|no_quote|].
    eexists _, "owner". split; [reflexivity|]. split; [simpl; auto|].
    vm_compute. eauto.
Defined.

(** C10. The wh-test is a prefix test: with no method named, no quote
    and no recognized filter key, a text whose first characters after
    leading white space spell what, how, why, when, where or who in any
    case is SEMANTIC, whatever follows them, letters included. *)
Theorem wh_prefix_is_semantic
        (ws w rest : string) (p : option Platform)
        (fs : option (gmap string Any)) (l : Z) :
  allspace ws = true ->
  In (lower w) wh_words ->
  ~ has_quote (ws +:+ w +:+ rest) ->
  ~ has_recognized_key fs ->
  determine_search_method
    {| query := ws +:+ w +:+ rest; platform := p; method := None;
       filters := fs; limit := l |}
  = SEMANTIC.
Proof.
  intros Hws Hw Hq Hk.
  set (q := {| query := ws +:+ w +:+ rest; platform := p; method := None;
               filters := fs; limit := l |}).
  destruct (method_heuristics q eq_refl) as (_ & _ & Hs & _).
  apply Hs; [exact Hq|exact Hk|].
  left. left. exists ws, w, rest. auto.
Qed.

Lemma wh_prefix_is_semantic_witness :
  determine_search_method (plain_query "  WHole milk") = SEMANTIC
  /\ determine_search_method (plain_query "however") = SEMANTIC.
Proof.
  split.
  - apply (wh_prefix_is_semantic "  " "WHo" "le milk" None None 10);
      [reflexivity|simpl; auto 10|no_quote|no_key].
  - apply (wh_prefix_is_semantic EmptyString "how" "ever" None None 10);
      [reflexivity|simpl; auto 10|no_quote|no_key].
Defined.

End MethodSelection.

(** ** The method classifier on texts of arbitrary code points *)

Module UniFacts.
Import Uni UniText UniClassifier.

Lemma uni_allspace_app (s t : list N) :
  allspace (s ++ t) = allspace s && allspace t.
Proof. apply forallb_app. Qed.

Lemma allspace_in (s : list N) (c : N) :
  allspace s = true -> In c s -> isspace c = true.
Proof. unfold allspace. rewrite forallb_forall. auto. Qed.

Lemma uni_contains_char_spec (c : N) (t : list N) :
  contains_char c t = true <-> In c t.
Proof.
  unfold contains_char. rewrite existsb_exists. split.
  - intros (x & Hx & Hc). apply N.eqb_eq in Hc as ->. exact Hx.
  - intros H. exists c. split; [exact H|apply N.eqb_refl].
Qed.

Lemma uni_lstrip_decompose (s : list N) :
  exists l, s = l ++ lstrip s /\ allspace l = true.
Proof.
  induction s as [|c s (l & Hl & Hsp)]; simpl.
  - exists []. auto.
  - destruct (isspace c) eqn:Hc.
    + exists (c :: l). simpl. rewrite <- Hl, Hc, Hsp. auto.
    + exists []. auto.
Qed.

Lemma uni_rstrip_decompose (s : list N) :
  exists r, s = rstrip s ++ r /\ allspace r = true.
Proof.
  induction s as [|c s (r & Hr & Hsp)]; simpl.
  - exists []. auto.
  - destruct (rstrip s) as [|a s'] eqn:Hs.
    + simpl in Hr. subst r. destruct (isspace c) eqn:Hc.
      * exists (c :: s). simpl. rewrite Hc, Hsp. auto.
      * exists s. auto.
    + exists r. simpl in Hr |- *. rewrite <- Hr. auto.
Qed.

Lemma uni_strip_decompose (s : list N) :
  exists l r, s = l ++ strip s ++ r
              /\ allspace l = true /\ allspace r = true.
Proof.
  destruct (uni_lstrip_decompose s) as (l & Hl & Hlsp).
  destruct (uni_rstrip_decompose (lstrip s)) as (r & Hr & Hrsp).
  exists l, r. unfold strip. rewrite <- Hr, <- Hl. auto.
Qed.

Lemma uni_lstrip_allspace (l s : list N) :
  allspace l = true -> lstrip (l ++ s) = lstrip s.
Proof.
  induction l as [|c l IH]; [reflexivity|].
  simpl. rewrite andb_true_iff. intros [Hc Hl].
  rewrite Hc. auto.
Qed.

Lemma uni_lstrip_head_nonspace (s : list N) :
  head_nonspace s = true -> lstrip s = s.
Proof.
  destruct s as [|c s]; simpl; [discriminate|].
  destruct (isspace c); [discriminate|reflexivity].
Qed.

Lemma uni_rstrip_allspace (r : list N) : allspace r = true -> rstrip r = [].
Proof.
  induction r as [|c r IH]; [reflexivity|].
  simpl. rewrite andb_true_iff. intros [Hc Hr]. rewrite (IH Hr), Hc. reflexivity.
Qed.

Lemma uni_last_nonspace_app (s t : list N) :
  last_nonspace t = true -> last_nonspace (s ++ t) = true.
Proof.
  intros Ht. induction s as [|c s IH]; [exact Ht|].
  simpl. destruct (s ++ t) eqn:E; [|exact IH].
  simpl in IH. discriminate.
Qed.

(** Stripping on the right keeps everything up to a non-space character. *)
Lemma uni_rstrip_keeps (u v : list N) :
  last_nonspace u = true -> rstrip (u ++ v) = u ++ rstrip v.
Proof.
  induction u as [|c u IH]; [discriminate|].
  simpl. destruct u as [|c' u].
  - simpl. intros Hc. destruct (isspace c); [discriminate|].
    destruct (rstrip v); reflexivity.
  - intros Hu. rewrite (IH Hu). reflexivity.
Qed.

Lemma uni_rstrip_last (s u : list N) (c : N) :
  rstrip s = u ++ [c] -> isspace c = false.
Proof.
  revert u. induction s as [|a s IH]; intros u; simpl.
  - destruct u; discriminate.
  - destruct (rstrip s) as [|b r] eqn:Hr.
    + destruct (isspace a) eqn:Ha.
      * destruct u; discriminate.
      * destruct u as [|a' u]; simpl.
        -- intros [= ->]. exact Ha.
        -- intros [= _ H]. destruct u; discriminate H.
    + destruct u as [|a' u]; simpl.
      * discriminate.
      * intros [= _ H]. eapply IH. exact H.
Qed.

(** A piece that begins and ends with a non-space character survives
    [strip], together with what lies around it up to white space. *)
Lemma uni_strip_keeps (pre w post : list N) :
  solid w ->
  exists pre' post',
    strip (pre ++ w ++ post) = pre' ++ w ++ post'
    /\ (allspace pre = true -> pre' = [])
    /\ (allspace post = true -> post' = []).
Proof.
  intros [Hh Hl]. unfold strip.
  assert (head_nonspace (w ++ post) = true) as Hh'.
  { destruct w; [discriminate|exact Hh]. }
  exists (lstrip pre), (rstrip post).
  assert (lstrip (pre ++ w ++ post) = lstrip pre ++ w ++ post) as ->.
  { induction pre as [|c pre IH].
    - apply uni_lstrip_head_nonspace, Hh'.
    - simpl. destruct (isspace c); [exact IH|reflexivity]. }
  rewrite !app_assoc.
  rewrite uni_rstrip_keeps by (apply uni_last_nonspace_app, Hl).
  repeat split.
  - intros Hsp. rewrite <- (app_nil_r pre). rewrite uni_lstrip_allspace by exact Hsp.
    reflexivity.
  - apply uni_rstrip_allspace.
Qed.

Lemma uni_contains_char_strip (c : N) (s : list N) :
  isspace c = false -> contains_char c (strip s) = contains_char c s.
Proof.
  intros Hc. apply eq_true_iff_eq. rewrite !uni_contains_char_spec.
  destruct (uni_strip_decompose s) as (l & r & Hs & Hl & Hr).
  rewrite Hs at 2. rewrite !in_app_iff. split; [tauto|].
  intros [H|[H|H]]; [|exact H|].
  - apply (allspace_in _ _ Hl) in H. congruence.
  - apply (allspace_in _ _ Hr) in H. congruence.
Qed.

Lemma uni_split_lstrip (s : list N) : split (lstrip s) = split s.
Proof.
  induction s as [|c s IH]; [reflexivity|].
  simpl. destruct (isspace c) eqn:Hc; [exact IH|].
  simpl. rewrite Hc. reflexivity.
Qed.

Lemma uni_rstrip_head (s : list N) (a : N) (r : list N) :
  rstrip s = a :: r -> head_nonspace (rstrip s) = head_nonspace s.
Proof.
  destruct s as [|c s]; simpl; [discriminate|].
  destruct (rstrip s); [destruct (isspace c) eqn:Hc|];
    simpl; try discriminate; try rewrite Hc; auto.
Qed.

Lemma uni_split_nil_allspace (s : list N) : allspace s = true -> split s = [].
Proof.
  induction s as [|c s IH]; [reflexivity|].
  simpl. rewrite andb_true_iff. intros [-> Hs]. auto.
Qed.

Lemma uni_rstrip_nil_allspace (s : list N) : rstrip s = [] -> allspace s = true.
Proof.
  intros H. destruct (uni_rstrip_decompose s) as (r & Hr & Hsp).
  rewrite H in Hr. simpl in Hr. congruence.
Qed.

Lemma uni_head_nonspace_allspace (s : list N) :
  allspace s = true -> head_nonspace s = false.
Proof.
  destruct s as [|c s]; simpl; [reflexivity|].
  destruct (isspace c); [reflexivity|discriminate].
Qed.

Lemma uni_split_rstrip (s : list N) : split (rstrip s) = split s.
Proof.
  induction s as [|c s IH]; [reflexivity|].
  simpl. destruct (rstrip s) as [|a r] eqn:Hr.
  - pose proof (uni_rstrip_nil_allspace _ Hr) as Hsp.
    rewrite (uni_split_nil_allspace _ Hsp), (uni_head_nonspace_allspace _ Hsp).
    destruct (isspace c) eqn:Hc; simpl; [reflexivity|]. rewrite Hc. reflexivity.
  - pose proof (uni_rstrip_head _ _ _ Hr) as Hh. rewrite Hr in Hh.
    change (split (c :: a :: r)) with
      (if isspace c then split (a :: r)
       else if head_nonspace (a :: r) then
              match split (a :: r) with
              | w :: ws => (c :: w) :: ws
              | [] => [[c]]
              end
            else [c] :: split (a :: r)).
    rewrite Hh, IH. reflexivity.
Qed.

Lemma uni_split_strip (s : list N) : split (strip s) = split s.
Proof. unfold strip. rewrite uni_split_rstrip. apply uni_split_lstrip. Qed.

(** *** Letters *)

(** A character that a pattern character matches is white space exactly
    when the pattern character is. *)
Lemma variants_isspace (c : ascii) :
  forallb (fun v => Bool.eqb (isspace v) (PyStr.isspace c)) (variants c) = true.
Proof. destruct c as [[] [] [] [] [] [] [] []]; vm_compute; reflexivity. Qed.

Lemma ci_eq_isspace (a : N) (c : ascii) :
  ci_eq a c = true -> isspace a = PyStr.isspace c.
Proof.
  unfold ci_eq. rewrite existsb_exists. intros (v & Hv & Ha).
  apply N.eqb_eq in Ha as ->.
  pose proof (variants_isspace c) as H. rewrite forallb_forall in H.
  apply eqb_prop, H, Hv.
Qed.

Lemma ci_eq_qmark (a : N) : ci_eq a "?" = (a =? 63)%N.
Proof. unfold ci_eq. simpl. apply orb_false_r. Qed.

Lemma spells_nil (u : list N) : spells u EmptyString <-> u = [].
Proof.
  unfold spells. simpl. split.
  - intros H. inversion H. reflexivity.
  - intros ->. constructor.
Qed.

Lemma spells_cons (u : list N) (c : ascii) (w : string) :
  spells u (String c w)
  <-> exists a u', u = a :: u' /\ ci_eq a c = true /\ spells u' w.
Proof.
  unfold spells. simpl. split.
  - intros H. inversion H as [|a c' u' w' Hac Hu]; subst. eauto.
  - intros (a & u' & -> & Hac & Hu). constructor; assumption.
Qed.

Lemma spells_head (u : list N) (w : string) :
  spells u w -> head_nonspace u = PyStr.head_nonspace w.
Proof.
  destruct w as [|c w].
  - intros H. apply spells_nil in H as ->. reflexivity.
  - intros H. apply spells_cons in H as (a & u' & -> & Hac & _).
    simpl. rewrite (ci_eq_isspace _ _ Hac). reflexivity.
Qed.

Lemma spells_last (u : list N) (w : string) :
  spells u w -> last_nonspace u = Text.last_nonspace w.
Proof.
  revert u. induction w as [|c w IH]; intros u H.
  - apply spells_nil in H as ->. reflexivity.
  - apply spells_cons in H as (a & u' & -> & Hac & Hu).
    specialize (IH _ Hu). destruct w as [|c' w].
    + apply spells_nil in Hu as ->. simpl.
      rewrite (ci_eq_isspace _ _ Hac). reflexivity.
    + apply spells_cons in Hu as (a' & u'' & -> & _ & _). exact IH.
Qed.

Lemma spells_solid (u : list N) (w : string) :
  spells u w -> Text.solid w -> solid u.
Proof.
  intros H [Hh Hl]. split.
  - rewrite (spells_head _ _ H). exact Hh.
  - rewrite (spells_last _ _ H). exact Hl.
Qed.

(** *** Regular expressions *)

Lemma uni_eat_spec (w : string) (s v : list N) :
  eat w s = Some v <-> exists u, s = u ++ v /\ spells u w.
Proof.
  revert s. induction w as [|c w IH]; intros s; simpl.
  - split.
    + intros [= ->]. exists []. split; [reflexivity|apply spells_nil; reflexivity].
    + intros (u & -> & Hu). apply spells_nil in Hu as ->. reflexivity.
  - destruct s as [|a s].
    + split; [discriminate|]. intros (u & Hs & Hu).
      apply spells_cons in Hu as (a & u' & -> & _). discriminate.
    + destruct (ci_eq a c) eqn:Hac.
      * rewrite IH. split.
        -- intros (u & -> & Hu). exists (a :: u). split; [reflexivity|].
           apply spells_cons. eauto.
        -- intros (u & Hs & Hu).
           apply spells_cons in Hu as (a' & u' & -> & _ & Hu).
           simpl in Hs. injection Hs as -> ->. eauto.
      * split; [discriminate|]. intros (u & Hs & Hu).
        apply spells_cons in Hu as (a' & u' & -> & Hac' & _).
        simpl in Hs. injection Hs as -> ->. congruence.
Qed.

Lemma uni_matches_word (w : string) (b : bool) (s : list N)
      (k : bool -> list N -> bool) :
  matches (Re.word w) b s k
  = match eat w s with
    | Some v => k (b && Text.is_nil w) v
    | None => false
    end.
Proof.
  revert b s. induction w as [|c w IH]; intros b s; simpl.
  - rewrite andb_true_r. reflexivity.
  - destruct s as [|a s]; [reflexivity|].
    destruct (ci_eq a c); [|reflexivity].
    simpl. rewrite IH, andb_false_r. reflexivity.
Qed.

Lemma uni_spaces_then_spec (k : bool -> list N -> bool) (b : bool) (s : list N) :
  spaces_then k b s = true
  <-> exists ws v, s = ws ++ v /\ allspace ws = true
                   /\ k (b && is_nil ws) v = true.
Proof.
  revert b. induction s as [|a s IH]; intros b; simpl.
  - split.
    + intros H. exists [], []. rewrite andb_true_r. auto.
    + intros (ws & v & Hs & _ & Hk). symmetry in Hs.
      apply app_eq_nil in Hs as [-> ->]. rewrite andb_true_r in Hk. exact Hk.
  - rewrite orb_true_iff, andb_true_iff, IH. split.
    + intros [[Ha (ws & v & -> & Hws & Hk)]|Hk].
      * exists (a :: ws), v. simpl. rewrite Ha, Hws, andb_false_r.
        destruct ws; auto.
      * exists [], (a :: s). rewrite andb_true_r. auto.
    + intros (ws & v & Hs & Hws & Hk). destruct ws as [|a' ws].
      * right. simpl in Hs. subst v. rewrite andb_true_r in Hk. exact Hk.
      * left. simpl in Hs, Hws. injection Hs as -> ->.
        apply andb_true_iff in Hws as [Ha Hws]. split; [exact Ha|].
        exists ws, v. rewrite andb_false_r in Hk. simpl. auto.
Qed.

Lemma uni_matches_alts (rs : list Re.regex) (b : bool) (s : list N)
      (k : bool -> list N -> bool) :
  rs <> [] ->
  matches (Re.alts rs) b s k = existsb (fun r => matches r b s k) rs.
Proof.
  induction rs as [|r rs IH]; [congruence|]. intros _.
  destruct rs as [|r' rs].
  - simpl. rewrite orb_false_r. reflexivity.
  - change (Re.alts (r :: r' :: rs)) with (Re.Alt r (Re.alts (r' :: rs))).
    change (matches (Re.Alt r (Re.alts (r' :: rs))) b s k)
      with (matches r b s k || matches (Re.alts (r' :: rs)) b s k).
    rewrite IH by congruence. reflexivity.
Qed.

Lemma uni_search_from_spec (r : Re.regex) (b : bool) (s : list N) :
  search_from r b s = true
  <-> exists pre v, s = pre ++ v /\ match_here r (b && is_nil pre) v = true.
Proof.
  revert b. induction s as [|a s IH]; intros b; simpl.
  - rewrite orb_false_r. split.
    + intros H. exists [], []. rewrite andb_true_r. auto.
    + intros (pre & v & Hs & H). symmetry in Hs.
      apply app_eq_nil in Hs as [-> ->]. rewrite andb_true_r in H. exact H.
  - rewrite orb_true_iff, IH. split.
    + intros [H|(pre & v & -> & H)].
      * exists [], (a :: s). rewrite andb_true_r. auto.
      * exists (a :: pre), v. rewrite andb_false_r. auto.
    + intros (pre & v & Hs & H). destruct pre as [|a' pre].
      * left. simpl in Hs. subst v. rewrite andb_true_r in H. exact H.
      * right. simpl in Hs. injection Hs as -> ->.
        rewrite andb_false_r in H. eauto.
Qed.

(** A literal word, tried at one position. *)
Lemma uni_match_here_word (w : string) (b : bool) (s : list N) :
  match_here (Re.word w) b s = true
  <-> exists u v, s = u ++ v /\ spells u w.
Proof.
  unfold match_here. rewrite uni_matches_word. split.
  - destruct (eat w s) as [v|] eqn:E; [|discriminate]. intros _.
    apply uni_eat_spec in E as (u & Hs & Hu). eauto.
  - intros (u & v & Hs & Hu).
    assert (eat w s = Some v) as -> by (apply uni_eat_spec; eauto). reflexivity.
Qed.

Lemma uni_match_here_words (ws : list string) (b : bool) (s : list N) :
  ws <> [] ->
  match_here (Re.alts (map Re.word ws)) b s = true
  <-> exists w u v, In w ws /\ s = u ++ v /\ spells u w.
Proof.
  intros Hne. unfold match_here.
  rewrite uni_matches_alts by (destruct ws; simpl; congruence).
  rewrite existsb_exists. split.
  - intros (r & Hr & Hm). apply in_map_iff in Hr as (w & <- & Hw).
    apply uni_match_here_word in Hm as (u & v & Hs & Hu). eauto 6.
  - intros (w & u & v & Hw & Hs & Hu). exists (Re.word w). split.
    + apply in_map. exact Hw.
    + apply uni_match_here_word. eauto.
Qed.

(** *** The tests of the classifier *)

Lemma uni_quote_test (t : list N) :
  contains_char 34 (strip t) || contains_char 39 (strip t) = true
  <-> has_quote t.
Proof.
  unfold has_quote.
  rewrite !uni_contains_char_strip by reflexivity.
  rewrite orb_true_iff, !uni_contains_char_spec. tauto.
Qed.

Lemma uni_has_metadata_filter_spec (fs : option (gmap (list N) Any)) :
  has_metadata_filter fs = true <-> has_recognized_key fs.
Proof.
  unfold has_metadata_filter, has_recognized_key. destruct fs as [d|].
  - rewrite andb_true_iff, negb_true_iff, bool_decide_eq_false, existsb_exists.
    split.
    + intros [_ (k & Hk & Hd)]. apply bool_decide_eq_true in Hd.
      exists d, k. repeat split; [|exact Hd].
      unfold metadata_keys, Classifier.recognized_keys in *. simpl in *. tauto.
    + intros (d' & k & [= <-] & Hk & Hd). split.
      * intros ->. rewrite lookup_empty in Hd. destruct Hd as [? [=]].
      * exists k. split; [|apply bool_decide_eq_true; exact Hd].
        unfold metadata_keys, Classifier.recognized_keys in *. simpl in *. tauto.
  - split; [discriminate|]. intros (d & k & [=] & _).
Qed.

Lemma uni_wh_words_solid (k : string) : In k wh_words -> Text.solid k.
Proof.
  unfold wh_words. simpl. intros H.
  repeat (destruct H as [<-|H]; [split; reflexivity|]). destruct H.
Qed.

Lemma uni_phrases_solid (k : string) : In k phrases -> Text.solid k.
Proof.
  unfold phrases. simpl. intros H.
  repeat (destruct H as [<-|H]; [split; reflexivity|]). destruct H.
Qed.

Lemma uni_match_here_wh (b : bool) (v : list N) :
  match_here pattern_wh b v
  = b && spaces_then
           (fun b' s' => match_here (Re.alts (map Re.word wh_words)) b' s') b v.
Proof. reflexivity. Qed.

Lemma uni_search_wh (s : list N) :
  search pattern_wh s = true <-> starts_with_wh s.
Proof.
  unfold search, starts_with_wh. rewrite uni_search_from_spec. split.
  - intros (pre & v & -> & H). rewrite uni_match_here_wh in H.
    apply andb_true_iff in H as [Hpre H].
    destruct pre; [|discriminate]. simpl.
    apply uni_spaces_then_spec in H as (ws & v' & -> & Hws & H).
    apply uni_match_here_words in H as (w & u & rest & Hw & -> & Hu); [|discriminate].
    exists ws, u, rest, w. auto.
  - intros (ws & w & rest & k & -> & Hws & Hk & Hw).
    exists [], (ws ++ w ++ rest). split; [reflexivity|].
    change (true && is_nil []) with true.
    rewrite uni_match_here_wh, andb_true_l.
    apply uni_spaces_then_spec. exists ws, (w ++ rest). repeat split; [exact Hws|].
    apply uni_match_here_words; [discriminate|]. eauto 6.
Qed.

Lemma uni_starts_with_wh_strip (t : list N) :
  starts_with_wh (strip t) <-> starts_with_wh t.
Proof.
  unfold starts_with_wh. split.
  - intros (ws & w & rest & k & Hs & Hws & Hk & Hw).
    destruct (uni_strip_decompose t) as (l & r & Ht & Hl & Hr).
    exists (l ++ ws), w, (rest ++ r), k. rewrite Ht at 1. rewrite Hs.
    rewrite <- !app_assoc, uni_allspace_app, Hl, Hws. auto.
  - intros (ws & w & rest & k & -> & Hws & Hk & Hw).
    destruct (uni_strip_keeps ws w rest (spells_solid _ _ Hw (uni_wh_words_solid _ Hk)))
      as (pre' & post' & -> & Hpre & _).
    rewrite (Hpre Hws). exists [], w, post', k. auto.
Qed.

Lemma uni_match_here_qmark (b : bool) (v : list N) :
  match_here pattern_qmark b v
  = match v with
    | a :: v' => (a =? 63)%N && at_eol v'
    | [] => false
    end.
Proof.
  destruct v as [|a v']; [reflexivity|].
  unfold match_here, pattern_qmark.
  change (matches (Re.Cat (Re.Chr "?") Re.Eol) b (a :: v') (fun _ _ => true))
    with (ci_eq a "?" && (at_eol v' && true)).
  rewrite ci_eq_qmark, andb_true_r. reflexivity.
Qed.

Lemma uni_search_qmark (s : list N) :
  search pattern_qmark s = true
  <-> exists pre, s = pre ++ [63%N] \/ s = pre ++ [63%N; 10%N].
Proof.
  unfold search. rewrite uni_search_from_spec. split.
  - intros (pre & v & -> & H). rewrite uni_match_here_qmark in H.
    destruct v as [|a v']; [discriminate|].
    apply andb_true_iff in H as [Ha Hv]. apply N.eqb_eq in Ha as ->.
    destruct v' as [|c [|c' v']]; simpl in Hv; [eauto| |discriminate].
    apply N.eqb_eq in Hv as ->. eauto.
  - intros (pre & [->| ->]); eexists pre, _; (split; [reflexivity|]);
      rewrite uni_match_here_qmark; reflexivity.
Qed.

Lemma uni_search_qmark_strip (t : list N) :
  search pattern_qmark (strip t) = true <-> ends_with_qmark t.
Proof.
  rewrite uni_search_qmark. unfold ends_with_qmark. split.
  - intros (pre & [Hs|Hs]).
    + destruct (uni_strip_decompose t) as (l & r & Ht & Hl & Hr).
      exists (l ++ pre), r. rewrite Ht at 1. rewrite Hs, <- !app_assoc. auto.
    + exfalso. unfold strip in Hs.
      change (pre ++ [63%N; 10%N]) with (pre ++ [63%N] ++ [10%N]) in Hs.
      rewrite app_assoc in Hs. apply uni_rstrip_last in Hs. discriminate.
  - intros (pre & ws & -> & Hws).
    destruct (uni_strip_keeps pre [63%N] ws)
      as (pre' & post' & -> & _ & Hpost); [split; reflexivity|].
    rewrite (Hpost Hws). exists pre'. left. reflexivity.
Qed.

Lemma uni_search_phrase (s : list N) :
  search pattern_phrase s = true <-> contains_phrase s.
Proof.
  unfold search, contains_phrase, pattern_phrase. rewrite uni_search_from_spec. split.
  - intros (pre & v & -> & H).
    apply uni_match_here_words in H as (w & u & post & Hw & -> & Hu); [|discriminate].
    exists pre, u, post, w. auto.
  - intros (pre & w & post & k & -> & Hk & Hw). exists pre, (w ++ post).
    split; [reflexivity|]. apply uni_match_here_words; [discriminate|]. eauto 6.
Qed.

Lemma uni_contains_phrase_strip (t : list N) :
  contains_phrase (strip t) <-> contains_phrase t.
Proof.
  unfold contains_phrase. split.
  - intros (pre & w & post & k & Hs & Hk & Hw).
    destruct (uni_strip_decompose t) as (l & r & Ht & Hl & Hr).
    exists (l ++ pre), w, (post ++ r), k. rewrite Ht at 1.
    rewrite Hs, <- !app_assoc. auto.
  - intros (pre & w & post & k & -> & Hk & Hw).
    destruct (uni_strip_keeps pre w post
                (spells_solid _ _ Hw (uni_phrases_solid _ Hk)))
      as (pre' & post' & -> & _). eauto 7.
Qed.

Lemma uni_question_test (t : list N) :
  existsb (fun pattern => search pattern (strip t)) question_patterns = true
  <-> interrogative t.
Proof.
  unfold question_patterns, interrogative.
  change (existsb (fun pattern => search pattern (strip t))
                  [pattern_wh; pattern_qmark; pattern_phrase])
    with (search pattern_wh (strip t)
          || (search pattern_qmark (strip t)
              || (search pattern_phrase (strip t) || false))).
  rewrite !orb_true_iff, uni_search_wh, uni_starts_with_wh_strip, uni_search_qmark_strip,
    uni_search_phrase, uni_contains_phrase_strip.
  intuition discriminate.
Qed.

(** The decision list of [determine_search_method] once no method is
    given, with each test read on the text as the caller wrote it. *)
Lemma uni_method_heuristics (q : SearchQuery) :
  method q = None ->
  (has_quote (query q) -> determine_search_method q = FULL_TEXT)
  /\ (~ has_quote (query q) -> has_recognized_key (filters q) ->
      determine_search_method q = METADATA)
  /\ (~ has_quote (query q) -> ~ has_recognized_key (filters q) ->
      interrogative (query q) \/ 8 < token_count (query q) ->
      determine_search_method q = SEMANTIC)
  /\ (~ has_quote (query q) -> ~ has_recognized_key (filters q) ->
      ~ (interrogative (query q) \/ 8 < token_count (query q)) ->
      determine_search_method q = KEYWORD).
Proof.
  intros Hm. unfold determine_search_method.
  rewrite Hm. cbv zeta. change (if_set SearchMethod_value None)
    with (@None SearchMethod).
  pose proof (uni_quote_test (query q)) as Hq.
  pose proof (uni_has_metadata_filter_spec (filters q)) as Hf.
  pose proof (uni_question_test (query q)) as Hi.
  rewrite uni_split_strip. fold (token_count (query q)).
  destruct (contains_char 34 (strip (query q))
            || contains_char 39 (strip (query q))).
  { repeat split; intros; try reflexivity; tauto. }
  destruct (has_metadata_filter (filters q)).
  { repeat split; intros; try reflexivity;
      solve [exfalso; intuition discriminate]. }
  destruct (existsb _ question_patterns).
  { repeat split; intros; try reflexivity;
      solve [exfalso; intuition discriminate]. }
  destruct (Z.ltb_spec 8 (Z.of_nat (token_count (query q)))) as [Hlt|Hge].
  - repeat split; intros; try reflexivity;
      try solve [exfalso; intuition discriminate].
    exfalso. apply H1. right. lia.
  - repeat split; intros; try reflexivity;
      try solve [exfalso; intuition discriminate].
    exfalso. destruct H1 as [H1|H1]; [intuition discriminate|lia].
Qed.

End UniFacts.

Ltac uni_no_quote :=
  unfold UniClassifier.has_quote; intros [H|H]; vm_compute in H;
  repeat (destruct H as [H|H]; [discriminate H|]); exact H.

Ltac uni_no_key :=
  intros (d & k & Hd & _); discriminate Hd.

Section UniMethodSelection.
Import Uni UniText UniClassifier UniFacts.

(** C5. With no method named, no quote in the text and none of the
    recognized filter keys, the method is SEMANTIC when the text is a
    question (it starts with a wh-word, ends with a question mark, or
    contains explain, describe or tell me about) or has more than 8
    tokens, and KEYWORD otherwise.  The text is any sequence of code
    points; letters are compared as [re.IGNORECASE] compares them. *)
Theorem semantic_or_keyword (q : SearchQuery) :
  method q = None ->
  ~ has_quote (query q) ->
  ~ has_recognized_key (filters q) ->
  (interrogative (query q) \/ 8 < token_count (query q) ->
   determine_search_method q = SEMANTIC)
  /\ (~ (interrogative (query q) \/ 8 < token_count (query q)) ->
      determine_search_method q = KEYWORD).
Proof.
  intros Hm Hq Hk. destruct (uni_method_heuristics q Hm) as (_ & _ & Hs & Hw).
  split; intros H; [apply Hs|apply Hw]; assumption.
Qed.

Lemma semantic_or_keyword_witness :
  determine_search_method (uni_query describe_long_s) = SEMANTIC
  /\ determine_search_method (uni_query nine_wide_tokens) = SEMANTIC
  /\ determine_search_method (uni_query (of_string "is this the budget?  "))
     = SEMANTIC
  /\ determine_search_method (uni_query (of_string "Quarterly BUDGET"))
     = KEYWORD.
Proof.
  split; [|split; [|split]].
  - apply (semantic_or_keyword (uni_query describe_long_s));
      [reflexivity|uni_no_quote|uni_no_key|].
    left. right. right.
    exists [], (of_string "de" ++ [383%N] ++ of_string "cribe"),
      (of_string " the plan"), "describe".
    split; [reflexivity|]. split; [simpl; auto|].
    unfold spells. simpl. repeat constructor.
  - apply (semantic_or_keyword (uni_query nine_wide_tokens));
      [reflexivity|uni_no_quote|uni_no_key|].
    right. vm_compute. lia.
  - apply (semantic_or_keyword (uni_query (of_string "is this the budget?  ")));
      [reflexivity|uni_no_quote|uni_no_key|].
    left. right. left.
    exists (of_string "is this the budget"), (of_string "  ").
    split; reflexivity.
  - apply (semantic_or_keyword (uni_query (of_string "Quarterly BUDGET")));
      [reflexivity|uni_no_quote|uni_no_key|].
    intros [H|H].
    + apply uni_question_test in H. vm_compute in H. discriminate H.
    + vm_compute in H. lia.
Defined.

(** The letters that [re.IGNORECASE] folds onto ASCII letters count:
    describe written with a long s and explain written with a dotless i
    make a text a question, and white space of any kind separates
    tokens. *)
Example determine_search_method_wide :
  map (fun t => determine_search_method (uni_query t))
      [describe_long_s; explain_dotless_i; nine_wide_tokens;
       of_string "describing"; of_string "budget"]
  = [SEMANTIC; SEMANTIC; SEMANTIC; KEYWORD; KEYWORD].
Proof. vm_compute. reflexivity. Qed.

(** Beyond ASCII the lower-case form of a text does not decide its
    method: explain written with a dotted capital I (U+0130) is a
    question, its lower-case form, where the letter has become an i
    followed by a combining dot (U+0307), is not. *)
Example dotted_capital_i :
  determine_search_method
    (uni_query (of_string "expla" ++ [304%N] ++ of_string "n"))
  = SEMANTIC
  /\ determine_search_method
       (uni_query (of_string "expla" ++ [105%N; 775%N] ++ of_string "n"))
     = KEYWORD.
Proof. split; vm_compute; reflexivity. Qed.

End UniMethodSelection.

(** ** Platform selection *)

Section PlatformSelection.
Import PyStr Text PyStrFacts Classifier ClassifierFacts.

(** C7. [determine_platforms] never returns the empty list: it is the
    named platform alone when one is named; otherwise Google Drive alone
    when only its keywords occur in the lower-cased text, Notion alone
    when only its keywords occur, and all platforms when both kinds
    occur or none does. *)
Theorem platforms_selected (q : SearchQuery) :
  determine_platforms q <> []
  /\ (forall p, platform q = Some p -> determine_platforms q = [p])
  /\ (platform q = None ->
      (mentions google_keywords (query q)
       /\ ~ mentions notion_keywords (query q) ->
       determine_platforms q = [GOOGLE_DRIVE])
      /\ (mentions notion_keywords (query q)
          /\ ~ mentions google_keywords (query q) ->
          determine_platforms q = [NOTION])
      /\ (mentions google_keywords (query q)
          /\ mentions notion_keywords (query q)
          \/ ~ mentions google_keywords (query q)
             /\ ~ mentions notion_keywords (query q) ->
          determine_platforms q = all_platforms)).
Proof.
  unfold determine_platforms. rewrite if_set_platform. cbv zeta.
  pose proof (any_keyword_in_spec google_keywords (query q)) as Hg.
  pose proof (any_keyword_in_spec notion_keywords (query q)) as Hn.
  destruct (platform q) as [p|].
  { split; [discriminate|]. split; [intros p' [= ->]; reflexivity|discriminate]. }
  destruct (any_keyword_in google_keywords (lower (query q)));
    destruct (any_keyword_in notion_keywords (lower (query q))); simpl;
    (split; [discriminate|]); (split; [discriminate|]); intros _;
    repeat split; intros; try reflexivity;
    exfalso; intuition discriminate.
Qed.

Lemma platforms_selected_witness :
  determine_platforms
    {| query := "find my google docs"; platform := Some NOTION;
       method := None; filters := None; limit := 10 |} = [NOTION]
  /\ determine_platforms (plain_query "Find my Google DOCS") = [GOOGLE_DRIVE]
  /\ determine_platforms (plain_query "budget") = all_platforms.
Proof.
  split; [|split].
  - apply (proj1 (proj2 (platforms_selected _))). reflexivity.
  - apply (platforms_selected (plain_query "Find my Google DOCS"));
      [reflexivity|].
    split; [|rewrite <- any_keyword_in_spec; vm_compute; discriminate].
    exists "docs". split; [simpl; auto|].
    exists "find my google ", EmptyString. reflexivity.
  - apply (platforms_selected (plain_query "budget")); [reflexivity|].
    right. split; rewrite <- any_keyword_in_spec; vm_compute; discriminate.
Defined.

(** The sample queries of the source's own demonstration, evaluated. *)
Example sample_queries_classified :
  map (fun t => (determine_search_method (plain_query t),
                 determine_platforms (plain_query t)))
      ["what hikes do i have planned for west virginia?";
       "explain the architecture of our microservices";
       "'API documentation'";
       "find my google docs";
       "notion page about api";
       "budget";
       "drive document with budget numbers";
       "comprehensive guide to implementing authentication and authorization in our backend system"]
  = [(SEMANTIC, [GOOGLE_DRIVE; NOTION]);
     (SEMANTIC, [GOOGLE_DRIVE; NOTION]);
     (FULL_TEXT, [GOOGLE_DRIVE]);
     (KEYWORD, [GOOGLE_DRIVE]);
     (KEYWORD, [NOTION]);
     (KEYWORD, [GOOGLE_DRIVE; NOTION]);
     (KEYWORD, [GOOGLE_DRIVE]);
     (SEMANTIC, [GOOGLE_DRIVE; NOTION])].
Proof. vm_compute. reflexivity. Qed.

End PlatformSelection.

(** ** Sorting by score *)

Section FloatFacts.

Lemma score_lt_le (a b : PyFloat) : score_lt a b = true -> float_le a b = true.
Proof.
  destruct a as [|[]|x], b as [|[]|y]; simpl; try congruence.
  rewrite negb_true_iff. intros H. apply Qle_bool_iff.
  apply Qlt_le_weak, Qnot_le_lt. intros Hle.
  apply Qle_bool_iff in Hle. congruence.
Qed.

Lemma float_le_not_lt (a b : PyFloat) :
  float_le a b = true -> score_lt b a = false.
Proof.
  destruct a as [|[]|x], b as [|[]|y]; simpl; try congruence.
  intros H. rewrite H. reflexivity.
Qed.

Lemma not_lt_float_le (a b : PyFloat) :
  is_nan a = false -> is_nan b = false ->
  score_lt a b = false -> float_le b a = true.
Proof.
  destruct a as [|[]|x], b as [|[]|y]; simpl; try congruence.
  intros _ _. rewrite negb_false_iff. trivial.
Qed.

Lemma float_le_trans (a b c : PyFloat) :
  float_le a b = true -> float_le b c = true -> float_le a c = true.
Proof.
  destruct a as [|[]|x], b as [|[]|y], c as [|[]|z]; simpl; try congruence.
  rewrite !Qle_bool_iff. apply Qle_trans.
Qed.

Lemma float_le_antisym (a b : PyFloat) :
  float_le a b = true -> float_le b a = true -> float_eq a b = true.
Proof.
  destruct a as [|[]|x], b as [|[]|y]; simpl; try congruence.
  rewrite !Qle_bool_iff, Qeq_bool_iff. apply Qle_antisym.
Qed.

Lemma float_eq_refl (a : PyFloat) : is_nan a = false -> float_eq a a = true.
Proof.
  destruct a as [|[]|x]; simpl; try congruence.
  intros _. apply Qeq_bool_iff, Qeq_refl.
Qed.

Lemma float_le_refl (a : PyFloat) : is_nan a = false -> float_le a a = true.
Proof.
  destruct a as [|[]|x]; simpl; try congruence.
  intros _. apply Qle_bool_iff, Qle_refl.
Qed.

(** Two floats equal to a third are not apart. *)
Lemma float_eq_not_lt (a b s : PyFloat) :
  float_eq a s = true -> float_eq b s = true -> score_lt a b = false.
Proof.
  destruct a as [|[]|x], b as [|[]|y], s as [|[]|z]; simpl; try congruence.
  rewrite !Qeq_bool_iff, negb_false_iff, Qle_bool_iff.
  intros Hx Hy. rewrite Hx, Hy. apply Qle_refl.
Qed.

Lemma float_le_nan_l (a b : PyFloat) : float_le a b = true -> is_nan a = false.
Proof. destruct a as [|[]|x]; simpl; congruence. Qed.

Lemma float_le_nan_r (a b : PyFloat) : float_le a b = true -> is_nan b = false.
Proof. destruct a as [|[]|x], b as [|[]|y]; simpl; congruence. Qed.

End FloatFacts.

Section SortFacts.
Context {A : Type} (key : A -> PyFloat).

Lemma nan_free_cons (x : A) (l : list A) :
  nan_free key (x :: l) <-> is_nan (key x) = false /\ nan_free key l.
Proof.
  unfold nan_free. split.
  - intros H. split; [apply H; left; reflexivity|].
    intros y Hy. apply H. right. exact Hy.
  - intros [Hx Hl] y [<-|Hy]; [exact Hx|apply Hl, Hy].
Qed.

Lemma nan_free_perm (l l' : list A) :
  Permutation l l' -> nan_free key l -> nan_free key l'.
Proof.
  intros Hp H x Hx. apply H. eapply Permutation_in; [symmetry|]; eassumption.
Qed.

Lemma insert_sorted_perm (x : A) (l : list A) :
  Permutation (x :: l) (insert_sorted key x l).
Proof.
  induction l as [|y l IH]; simpl; [reflexivity|].
  destruct (score_lt (key y) (key x)); [|reflexivity].
  rewrite perm_swap. apply perm_skip, IH.
Qed.

Lemma insert_sorted_asc (x : A) (l : list A) :
  nan_free key (x :: l) ->
  ascending key l -> ascending key (insert_sorted key x l).
Proof.
  unfold ascending. induction l as [|y l IH]; intros Hnan Hl; simpl.
  - repeat constructor.
  - apply StronglySorted_inv in Hl as [Hl Hy].
    apply nan_free_cons in Hnan as [Hx Hnan].
    apply nan_free_cons in Hnan as [Hy' Hnan].
    destruct (score_lt (key y) (key x)) eqn:E.
    + constructor; [apply IH; [apply nan_free_cons; split|]; assumption|].
      apply score_lt_le in E.
      rewrite <- (insert_sorted_perm x l).
      constructor; [exact E|exact Hy].
    + assert (float_le (key x) (key y) = true) as Hxy
          by (apply not_lt_float_le; assumption).
      constructor; [constructor; assumption|].
      constructor; [exact Hxy|].
      eapply List.Forall_impl; [|exact Hy]. simpl. intros z Hz.
      eapply float_le_trans; eassumption.
Qed.

Lemma insert_sorted_filter (s : PyFloat) (x : A) (l : list A) :
  List.filter (same_key key s) (insert_sorted key x l)
  = List.filter (same_key key s) (x :: l).
Proof.
  induction l as [|y l IH]; [reflexivity|].
  simpl insert_sorted. destruct (score_lt (key y) (key x)) eqn:E; [|reflexivity].
  simpl in *. rewrite IH.
  destruct (same_key key s y) eqn:Hy; [|reflexivity].
  destruct (same_key key s x) eqn:Hx; [|reflexivity].
  unfold same_key in *.
  rewrite (float_eq_not_lt _ _ _ Hy Hx) in E. discriminate.
Qed.

(** Sorting rearranges the list, whatever the keys are. *)
Lemma list_sort_perm (l : list A) : Permutation l (list_sort key l).
Proof.
  induction l as [|x l IH]; simpl; [reflexivity|].
  rewrite <- insert_sorted_perm. apply perm_skip, IH.
Qed.

Lemma list_sort_reverse_perm (l : list A) :
  Permutation l (list_sort_reverse key l).
Proof.
  unfold list_sort_reverse.
  rewrite <- Permutation_rev, <- list_sort_perm. apply Permutation_rev.
Qed.

Lemma list_sort_asc (l : list A) :
  nan_free key l -> ascending key (list_sort key l).
Proof.
  induction l as [|x l IH]; intros Hnan; simpl; [constructor|].
  pose proof Hnan as Hnan'. apply nan_free_cons in Hnan' as [Hx Hl].
  apply insert_sorted_asc; [|apply IH, Hl].
  apply nan_free_cons. split; [exact Hx|].
  eapply nan_free_perm; [apply list_sort_perm|exact Hl].
Qed.

Lemma list_sort_filter (s : PyFloat) (l : list A) :
  List.filter (same_key key s) (list_sort key l) = List.filter (same_key key s) l.
Proof.
  induction l as [|x l IH]; [reflexivity|].
  simpl list_sort. rewrite insert_sorted_filter. simpl. rewrite IH. reflexivity.
Qed.

Lemma filter_rev (f : A -> bool) (l : list A) :
  List.filter f (rev l) = rev (List.filter f l).
Proof.
  induction l as [|x l IH]; [reflexivity|].
  simpl. rewrite List.filter_app, IH. simpl.
  destruct (f x); simpl; [reflexivity|]. apply app_nil_r.
Qed.

Lemma sorted_rev (R : A -> A -> Prop) (l : list A) :
  StronglySorted R l -> StronglySorted (fun a b => R b a) (rev l).
Proof.
  induction l as [|x l IH]; intros Hl; simpl.
  - constructor.
  - apply StronglySorted_inv in Hl as [Hl Hx].
    specialize (IH Hl). revert IH.
    assert (Forall (fun y => R x y) (rev l)) as Hx'.
    { rewrite List.Forall_forall in *. intros y Hy. apply Hx, in_rev, Hy. }
    clear Hl Hx. induction (rev l) as [|y r IHr]; intros Hr.
    + repeat constructor.
    + apply StronglySorted_inv in Hr as [Hr Hy].
      apply List.Forall_cons_iff in Hx' as [Hxy Hx'].
      simpl. constructor; [apply IHr; assumption|].
      apply List.Forall_app. split; [exact Hy|]. repeat constructor. exact Hxy.
Qed.

Lemma ascending_rev (l : list A) : ascending key l -> descending key (rev l).
Proof. apply sorted_rev. Qed.

Lemma descending_rev (l : list A) : descending key l -> ascending key (rev l).
Proof. apply sorted_rev. Qed.

(** What [sort(key=..., reverse=True)] computes on keys without a NaN
    is the stable descending sort. *)
Lemma list_sort_reverse_stable (l : list A) :
  nan_free key l -> stable_sort_desc key l (list_sort_reverse key l).
Proof.
  intros Hnan. split; [|split].
  - apply list_sort_reverse_perm.
  - apply ascending_rev, list_sort_asc.
    intros x Hx. apply Hnan, in_rev, Hx.
  - intros s. unfold list_sort_reverse.
    rewrite filter_rev, list_sort_filter, filter_rev.
    apply rev_involutive.
Qed.

(** A list in which no element is smaller than an earlier one is left
    as it is. *)
Lemma list_sort_ascending (l : list A) :
  ascending key l -> list_sort key l = l.
Proof.
  unfold ascending. induction l as [|x l IH]; intros Hl; [reflexivity|].
  apply StronglySorted_inv in Hl as [Hl Hx].
  simpl. rewrite (IH Hl).
  destruct l as [|y l]; [reflexivity|].
  apply List.Forall_cons_iff in Hx as [Hxy _].
  simpl. rewrite (float_le_not_lt _ _ Hxy). reflexivity.
Qed.

Lemma list_sort_reverse_descending (l : list A) :
  descending key l -> list_sort_reverse key l = l.
Proof.
  intros Hl. unfold list_sort_reverse.
  rewrite (list_sort_ascending _ (descending_rev _ Hl)).
  apply rev_involutive.
Qed.

Lemma descending_nan_free (l : list A) :
  descending key l -> (2 <= length l)%nat -> nan_free key l.
Proof.
  unfold descending. intros Hl Hlen x Hx.
  destruct l as [|a [|b l]]; simpl in Hlen; try lia.
  apply StronglySorted_inv in Hl as [_ Ha].
  rewrite List.Forall_forall in Ha.
  destruct Hx as [<-|Hx].
  - eapply float_le_nan_r. apply (Ha b). left. reflexivity.
  - eapply float_le_nan_l. apply (Ha x Hx).
Qed.

Lemma descending_filter_unique (l1 l2 : list A) :
  nan_free key l1 -> nan_free key l2 ->
  descending key l1 -> descending key l2 ->
  (forall s, List.filter (same_key key s) l1 = List.filter (same_key key s) l2) ->
  l1 = l2.
Proof.
  unfold descending. revert l2.
  induction l1 as [|a l1 IH]; intros [|b l2] N1 N2 D1 D2 H.
  - reflexivity.
  - apply nan_free_cons in N2 as [Nb _].
    specialize (H (key b)). simpl in H. unfold same_key at 1 in H.
    rewrite (float_eq_refl _ Nb) in H. discriminate.
  - apply nan_free_cons in N1 as [Na _].
    specialize (H (key a)). simpl in H. unfold same_key at 1 in H.
    rewrite (float_eq_refl _ Na) in H. discriminate.
  - apply StronglySorted_inv in D1 as [D1 Ha].
    apply StronglySorted_inv in D2 as [D2 Hb].
    apply nan_free_cons in N1 as [Na N1].
    apply nan_free_cons in N2 as [Nb N2].
    rewrite List.Forall_forall in Ha, Hb.
    assert (a = b) as <-.
    { pose proof (H (key a)) as Hka. pose proof (H (key b)) as Hkb.
      simpl in Hka, Hkb.
      assert (same_key key (key a) a = true) as Haa
          by apply float_eq_refl, Na.
      assert (same_key key (key b) b = true) as Hbb
          by apply float_eq_refl, Nb.
      rewrite Haa in Hka. rewrite Hbb in Hkb.
      destruct (same_key key (key a) b) eqn:Hab; [congruence|].
      destruct (same_key key (key b) a) eqn:Hba; [congruence|].
      exfalso.
      assert (In a l2) as Hin2.
      { eapply (proj1 (List.filter_In _ _ _)). rewrite <- Hka. left. reflexivity. }
      assert (In b l1) as Hin1.
      { eapply (proj1 (List.filter_In _ _ _)). rewrite Hkb. left. reflexivity. }
      apply Hb in Hin2. apply Ha in Hin1.
      pose proof (float_le_antisym _ _ Hin1 Hin2) as Heq.
      unfold same_key in Hab. congruence. }
    f_equal. apply IH; [assumption..|].
    intros s. specialize (H s). simpl in H.
    destruct (same_key key s a); [congruence|exact H].
Qed.

(** There is one stable descending sort of a list. *)
Lemma stable_sort_desc_unique (l l1 l2 : list A) :
  stable_sort_desc key l l1 -> stable_sort_desc key l l2 -> l1 = l2.
Proof.
  intros (P1 & D1 & F1) (P2 & D2 & F2).
  destruct (le_lt_dec 2 (length l)) as [Hlen|Hlen].
  - apply descending_filter_unique; try assumption.
    + apply descending_nan_free; [exact D1|].
      rewrite <- (Permutation_length P1). exact Hlen.
    + apply descending_nan_free; [exact D2|].
      rewrite <- (Permutation_length P2). exact Hlen.
    + intros s. rewrite F1, F2. reflexivity.
  - destruct l as [|a [|b l]]; simpl in Hlen; try lia.
    + apply Permutation_nil in P1, P2. congruence.
    + apply Permutation_length_1_inv in P1, P2. congruence.
Qed.

Lemma list_sort_reverse_length (l : list A) :
  length (list_sort_reverse key l) = length l.
Proof.
  symmetry. apply Permutation_length, list_sort_reverse_perm.
Qed.

End SortFacts.

(** ** Slices *)

Lemma slice_to_nonneg {A : Type} (l : list A) (n : Z) :
  (0 <= n)%Z -> slice_to l n = firstn (Z.to_nat n) l.
Proof.
  intros Hn. unfold slice_to.
  destruct (Z.ltb_spec n 0) as [?|_]; [lia|].
  destruct (Z.min_spec n (Z.of_nat (length l))) as [[Hlt ->]|[Hge ->]].
  - reflexivity.
  - rewrite Nat2Z.id, !firstn_all2; [reflexivity|lia|lia].
Qed.

Lemma slice_to_zero {A : Type} (l : list A) : slice_to l 0 = [].
Proof. rewrite slice_to_nonneg by lia. reflexivity. Qed.

Lemma slice_to_neg {A : Type} (l : list A) (n : Z) :
  (n < 0)%Z -> slice_to l n = firstn (length l - Z.to_nat (- n)) l.
Proof.
  intros Hn. unfold slice_to.
  destruct (Z.ltb_spec n 0) as [_|?]; [|lia].
  f_equal. lia.
Qed.

Lemma slice_to_length {A : Type} (l : list A) (n : Z) :
  (0 <= n)%Z -> (Z.of_nat (length (slice_to l n)) <= n)%Z.
Proof.
  intros Hn. rewrite slice_to_nonneg by exact Hn.
  rewrite length_firstn. lia.
Qed.

Lemma slice_to_nil {A : Type} (n : Z) : slice_to (@nil A) n = [].
Proof. unfold slice_to. apply firstn_nil. Qed.

Lemma concat_nil_map {A B : Type} (l : list A) :
  concat (map (fun _ : A => @nil B) l) = [].
Proof. induction l as [|x l IH]; [reflexivity|exact IH]. Qed.

Lemma filter_none {A : Type} (f : A -> bool) (l : list A) :
  (forall x, In x l -> f x = false) -> List.filter f l = [].
Proof.
  induction l as [|x l IH]; intros H; [reflexivity|].
  simpl. rewrite (H x (or_introl eq_refl)). apply IH.
  intros y Hy. apply H. right. exact Hy.
Qed.

(** ** The dispatch loop *)

Section DispatchFacts.
Variable self : SearchOrchestrator.
Variable q : SearchQuery.
Variable m : SearchMethod.

Lemma _search_platform_unfold (p : Platform) :
  _search_platform self q p m
  = if configured self p then call p (platform_search self p q m)
    else ([], Returned []).
Proof.
  destruct p; simpl;
    [destruct (google_drive_retriever self)|destruct (notion_retriever self)];
    reflexivity.
Qed.

Lemma search_loop_cons (p : Platform) (ps : list Platform)
      (acc : list SearchResult) :
  search_loop self q m (p :: ps) acc
  = match _search_platform self q p m with
    | (t, Returned r) =>
        let '(t', o) := search_loop self q m ps (acc ++ r) in (t ++ t', o)
    | (t, Raised e) => (t, Raised e)
    end.
Proof. reflexivity. Qed.

(** When every platform of the list returns, the loop returns the
    concatenation of what they returned, in the order of the list. *)
Lemma search_loop_returned (lists : Platform -> list SearchResult)
      (ps : list Platform) (acc : list SearchResult) :
  (forall p, In p ps ->
             result (_search_platform self q p m) = Returned (lists p)) ->
  search_loop self q m ps acc
  = (completed_calls (List.filter (configured self) ps),
     Returned (acc ++ concat (map lists ps))).
Proof.
  revert acc. induction ps as [|p ps IH]; intros acc H.
  - simpl. rewrite app_nil_r. reflexivity.
  - rewrite search_loop_cons.
    pose proof (H p (or_introl eq_refl)) as Hp.
    assert (forall p', In p' ps ->
              result (_search_platform self q p' m) = Returned (lists p'))
      as H' by (intros p' Hp'; apply H; right; exact Hp').
    rewrite _search_platform_unfold in Hp |- *. simpl List.filter.
    destruct (configured self p).
    + unfold call in *. destruct (platform_search self p q m) as [l|e];
        simpl in Hp; [|discriminate].
      injection Hp as ->. rewrite (IH _ H'). simpl.
      rewrite <- app_assoc. reflexivity.
    + simpl in Hp. injection Hp as Hp. rewrite (IH _ H'). simpl.
      rewrite <- Hp, app_nil_r. reflexivity.
Qed.

(** When a platform raises after its predecessors returned, the loop
    stops there with that exception. *)
Lemma search_loop_raised (pre : list Platform) (p : Platform)
      (post : list Platform) (e : PyExc) (acc : list SearchResult) :
  (forall p', In p' pre ->
              exists l, result (_search_platform self q p' m) = Returned l) ->
  result (_search_platform self q p m) = Raised e ->
  search_loop self q m (pre ++ p :: post) acc
  = (completed_calls (List.filter (configured self) pre) ++ [Invoke p; Fail p],
     Raised e).
Proof.
  intros Hpre Hp. revert acc.
  induction pre as [|p' pre IH]; intros acc.
  - simpl app. rewrite search_loop_cons.
    rewrite _search_platform_unfold in Hp |- *.
    destruct (configured self p); [|discriminate].
    unfold call in *. destruct (platform_search self p q m); [discriminate|].
    injection Hp as ->. reflexivity.
  - simpl app. rewrite search_loop_cons.
    destruct (Hpre p' (or_introl eq_refl)) as [l Hl].
    assert (forall p'', In p'' pre ->
              exists l', result (_search_platform self q p'' m) = Returned l')
      as H' by (intros p'' Hp''; apply Hpre; right; exact Hp'').
    rewrite _search_platform_unfold in Hl |- *. simpl List.filter.
    destruct (configured self p').
    + unfold call in *. destruct (platform_search self p' q m);
        [|discriminate]. rewrite (IH H'). reflexivity.
    + rewrite (IH H'). reflexivity.
Qed.

(** Every run of the loop has one of these two shapes. *)
Lemma search_loop_shape (ps : list Platform) (acc : list SearchResult) :
  (exists all,
      search_loop self q m ps acc
      = (completed_calls (List.filter (configured self) ps), Returned all))
  \/ (exists pre p post e,
         List.filter (configured self) ps = pre ++ p :: post
         /\ search_loop self q m ps acc
            = (completed_calls pre ++ [Invoke p; Fail p], Raised e)).
Proof.
  revert acc. induction ps as [|p ps IH]; intros acc.
  - left. exists acc. reflexivity.
  - rewrite search_loop_cons, _search_platform_unfold. simpl List.filter.
    destruct (configured self p).
    + unfold call. destruct (platform_search self p q m) as [l|e].
      * destruct (IH (acc ++ l)) as [[all ->]|(pre & p' & post & e & Hf & ->)].
        -- left. exists all. reflexivity.
        -- right. exists (p :: pre), p', post, e. rewrite Hf. auto.
      * right. exists [], p, (List.filter (configured self) ps), e. auto.
    + destruct (IH (acc ++ [])) as [[all ->]|(pre & p' & post & e & Hf & ->)].
      * left. exists all. reflexivity.
      * right. exists pre, p', post, e. auto.
Qed.

End DispatchFacts.

(** [search] in terms of its loop. *)
Lemma search_unfold (self : SearchOrchestrator) (q : SearchQuery) :
  search self q
  = match search_loop self q (determine_search_method q)
                      (determine_platforms q) [] with
    | (t, Returned all) =>
        (t, Returned
              {| results := slice_to (list_sort_reverse score all) (limit q);
                 response_query := q;
                 total_results :=
                   Z.of_nat (length (list_sort_reverse score all));
                 platforms_searched := determine_platforms q;
                 method_used := determine_search_method q |})
    | (t, Raised e) => (t, Raised e)
    end.
Proof.
  unfold search, mbind, Dispatch_bind, mret, Dispatch_ret.
  destruct (search_loop self q _ _ []) as [t [all|e]]; [|reflexivity].
  rewrite app_nil_r. reflexivity.
Qed.

(** The response of a search all of whose platform searches return. *)
Lemma search_returned (self : SearchOrchestrator) (q : SearchQuery)
      (lists : Platform -> list SearchResult) :
  (forall p, In p (determine_platforms q) ->
             result (_search_platform self q p (determine_search_method q))
             = Returned (lists p)) ->
  search self q
  = (completed_calls (List.filter (configured self) (determine_platforms q)),
     Returned
       {| results :=
            slice_to
              (list_sort_reverse score
                                 (concat (map lists (determine_platforms q))))
              (limit q);
          response_query := q;
          total_results :=
            Z.of_nat (length (concat (map lists (determine_platforms q))));
          platforms_searched := determine_platforms q;
          method_used := determine_search_method q |}).
Proof.
  intros H. rewrite search_unfold.
  rewrite (search_loop_returned self q _ lists _ [] H).
  rewrite list_sort_reverse_length. reflexivity.
Qed.

Lemma sequential_completed_calls (ps : list Platform) :
  sequential (completed_calls ps).
Proof.
  induction ps as [|p ps IH]; [constructor|].
  apply sequential_call, IH.
Qed.

Lemma sequential_then_fail (ps : list Platform) (p : Platform) :
  sequential (completed_calls ps ++ [Invoke p; Fail p]).
Proof.
  induction ps as [|p' ps IH]; [apply sequential_fail|].
  apply sequential_call, IH.
Qed.

Lemma sequential_in_flight (t : list event) :
  sequential t ->
  forall t1 t2, t = t1 ++ t2 -> (0 <= in_flight t1 <= 1)%Z.
Proof.
  induction 1 as [|p t Ht IH|p]; intros t1 t2 E.
  - symmetry in E. apply app_eq_nil in E as [-> _]. simpl. lia.
  - destruct t1 as [|e1 [|e2 t1]]; simpl in E.
    + simpl. lia.
    + injection E as <- _. simpl. lia.
    + injection E as <- <- E. specialize (IH _ _ E). simpl. lia.
  - destruct t1 as [|e1 [|e2 t1]]; simpl in E.
    + simpl. lia.
    + injection E as <- _. simpl. lia.
    + injection E as <- <- E. symmetry in E.
      apply app_eq_nil in E as [-> _]. simpl. lia.
Qed.

(** ** Aggregation *)

(** C2. For a positive limit, when the selected platforms return their
    lists and every score in them is a number (none is NaN), [search]
    returns a response whose results are the first [limit] elements of
    the stable descending sort by score of the concatenation of the
    lists in platform order; there are at most [limit] of them, and
    [total_results] is the length of the concatenation, hence at least
    the number of results. *)
Theorem search_aggregates (self : SearchOrchestrator) (q : SearchQuery)
        (lists : Platform -> list SearchResult) :
  (0 < limit q)%Z ->
  (forall p, In p (determine_platforms q) ->
             result (_search_platform self q p (determine_search_method q))
             = Returned (lists p)) ->
  nan_free score (concat (map lists (determine_platforms q))) ->
  exists resp sorted,
    result (search self q) = Returned resp
    /\ stable_sort_desc score
                        (concat (map lists (determine_platforms q))) sorted
    /\ results resp = firstn (Z.to_nat (limit q)) sorted
    /\ (Z.of_nat (length (results resp)) <= limit q)%Z
    /\ total_results resp
       = Z.of_nat (length (concat (map lists (determine_platforms q))))
    /\ (Z.of_nat (length (results resp)) <= total_results resp)%Z
    /\ platforms_searched resp = determine_platforms q
    /\ method_used resp = determine_search_method q
    /\ response_query resp = q.
Proof.
  intros Hlimit Hlists Hnan. rewrite (search_returned self q lists Hlists).
  set (all := concat (map lists (determine_platforms q))) in *.
  eexists _, (list_sort_reverse score all).
  split; [reflexivity|]. simpl.
  split; [apply list_sort_reverse_stable, Hnan|].
  split; [apply slice_to_nonneg; lia|].
  split; [apply slice_to_length; lia|].
  split; [reflexivity|].
  split; [|auto].
  rewrite slice_to_nonneg, length_firstn, list_sort_reverse_length by lia. lia.
Qed.

Lemma search_aggregates_witness :
  exists resp sorted,
    result (search two_platforms top_four) = Returned resp
    /\ stable_sort_desc score
         (concat (map sample_lists (determine_platforms top_four))) sorted
    /\ results resp = firstn (Z.to_nat (limit top_four)) sorted
    /\ (Z.of_nat (length (results resp)) <= limit top_four)%Z
    /\ total_results resp
       = Z.of_nat
           (length (concat (map sample_lists (determine_platforms top_four))))
    /\ (Z.of_nat (length (results resp)) <= total_results resp)%Z
    /\ platforms_searched resp = determine_platforms top_four
    /\ method_used resp = determine_search_method top_four
    /\ response_query resp = top_four.
Proof.
  apply (search_aggregates two_platforms top_four sample_lists).
  - reflexivity.
  - intros [] _; reflexivity.
  - intros x Hx. vm_compute in Hx.
    repeat (destruct Hx as [<-|Hx]; [reflexivity|]). destruct Hx.
Defined.

(** The same run, evaluated: ties keep the order of the
    concatenation, and two of the six results are cut off. *)
Example search_two_platforms :
  match search two_platforms top_four with
  | (t, Returned resp) =>
      (t, map result_id (results resp), total_results resp)
  | (t, Raised _) => (t, [], 0%Z)
  end
  = ([Invoke GOOGLE_DRIVE; Complete GOOGLE_DRIVE;
      Invoke NOTION; Complete NOTION],
     ["b"; "d"; "a"; "c"], 6%Z).
Proof. vm_compute. reflexivity. Qed.

(** A score that is NaN is neither below nor above another: the three
    results below stay in the order they were found in, [sort] of
    [1.0, nan, 2.0] being that same list, and the response is not in
    descending order of score. *)
Example search_unscored :
  match search unscored_drive top_four with
  | (_, Returned resp) => map result_id (results resp)
  | (_, Raised _) => []
  end
  = ["a"; "x"; "b"].
Proof. vm_compute. reflexivity. Qed.

Lemma unscored_results_are_not_ranked :
  exists resp,
    result (search unscored_drive top_four) = Returned resp
    /\ ~ descending score (results resp).
Proof.
  eexists. split; [reflexivity|].
  vm_compute. intros H.
  apply StronglySorted_inv in H as [_ H].
  apply List.Forall_cons_iff in H as [H _]. discriminate H.
Qed.

(** ** Validation *)

(** C1 does not hold: an empty text with limit 0 is dispatched like any
    other query, both platform searches are called and a response is
    returned. *)
Lemma invalid_query_is_not_rejected :
  ~ (forall (self : SearchOrchestrator) (q : SearchQuery),
        query q = EmptyString \/ (limit q <= 0)%Z ->
        (exists e, result (search self q) = Raised e)
        /\ trace (search self q) = []).
Proof.
  intros H.
  destruct (H two_platforms empty_query (or_introl eq_refl)) as [[e He] Ht].
  vm_compute in He. discriminate.
Qed.

(** C1, amended. [search] checks neither the text nor the limit: a
    query with an empty text or a limit that is not positive is
    classified and dispatched like any other, every selected platform
    whose retriever is set is called, and when the platform searches
    return, a response is returned; its results are the slice
    [sorted[:limit]] of the sorted rearrangement of everything found
    (the stable descending sort by score when no score is NaN), which
    is empty for limit 0 and drops the last [-limit] elements for a
    negative limit, and [total_results] still counts everything
    found. *)
Theorem invalid_query_is_searched (self : SearchOrchestrator) (q : SearchQuery)
        (lists : Platform -> list SearchResult) :
  query q = EmptyString \/ (limit q <= 0)%Z ->
  (forall p, In p (determine_platforms q) ->
             result (_search_platform self q p (determine_search_method q))
             = Returned (lists p)) ->
  exists resp sorted,
    result (search self q) = Returned resp
    /\ trace (search self q)
       = completed_calls
           (List.filter (configured self) (determine_platforms q))
    /\ Permutation (concat (map lists (determine_platforms q))) sorted
    /\ (nan_free score (concat (map lists (determine_platforms q))) ->
        stable_sort_desc score
                         (concat (map lists (determine_platforms q))) sorted)
    /\ results resp = slice_to sorted (limit q)
    /\ total_results resp
       = Z.of_nat (length (concat (map lists (determine_platforms q))))
    /\ (limit q = 0%Z -> results resp = [])
    /\ ((limit q < 0)%Z ->
        results resp
        = firstn (length sorted - Z.to_nat (- limit q)) sorted).
Proof.
  intros _ Hlists. rewrite (search_returned self q lists Hlists).
  set (all := concat (map lists (determine_platforms q))).
  eexists _, (list_sort_reverse score all).
  split; [reflexivity|]. simpl.
  split; [reflexivity|].
  split; [apply list_sort_reverse_perm|].
  split; [apply list_sort_reverse_stable|].
  split; [reflexivity|].
  split; [reflexivity|].
  split.
  - intros ->. apply slice_to_zero.
  - apply slice_to_neg.
Qed.

Lemma invalid_query_is_searched_witness :
  exists resp sorted,
    result (search two_platforms all_but_two) = Returned resp
    /\ trace (search two_platforms all_but_two)
       = completed_calls
           (List.filter (configured two_platforms)
                        (determine_platforms all_but_two))
    /\ Permutation
         (concat (map sample_lists (determine_platforms all_but_two))) sorted
    /\ (nan_free score
          (concat (map sample_lists (determine_platforms all_but_two))) ->
        stable_sort_desc score
          (concat (map sample_lists (determine_platforms all_but_two))) sorted)
    /\ results resp = slice_to sorted (limit all_but_two)
    /\ total_results resp
       = Z.of_nat
           (length
              (concat (map sample_lists (determine_platforms all_but_two))))
    /\ (limit all_but_two = 0%Z -> results resp = [])
    /\ ((limit all_but_two < 0)%Z ->
        results resp
        = firstn (length sorted - Z.to_nat (- limit all_but_two)) sorted).
Proof.
  apply (invalid_query_is_searched two_platforms all_but_two sample_lists).
  - left. reflexivity.
  - intros [] _; reflexivity.
Defined.

Example search_all_but_two :
  match search two_platforms all_but_two with
  | (t, Returned resp) =>
      (t, map result_id (results resp), total_results resp)
  | (t, Raised _) => (t, [], 0%Z)
  end
  = ([Invoke GOOGLE_DRIVE; Complete GOOGLE_DRIVE;
      Invoke NOTION; Complete NOTION],
     ["b"; "d"; "a"; "c"], 6%Z).
Proof. vm_compute. reflexivity. Qed.

(** ** Platforms that are not set, platforms that fail *)

(** The Google Drive search raises: [search] raises too, and Notion,
    which comes second, is not even called. *)
Example search_drive_down :
  search drive_down (plain_query "budget")
  = ([Invoke GOOGLE_DRIVE; Fail GOOGLE_DRIVE], Raised quota_exceeded).
Proof. vm_compute. reflexivity. Qed.

(** C8 does not hold for a platform search that raises: the exception
    leaves [search]. *)
Lemma failing_platform_is_not_absorbed :
  ~ (forall (self : SearchOrchestrator) (q : SearchQuery),
        (exists p e,
            In p (determine_platforms q)
            /\ result (_search_platform self q p (determine_search_method q))
               = Raised e) ->
        exists resp, result (search self q) = Returned resp).
Proof.
  intros H.
  destruct (H drive_down (plain_query "budget")) as [resp Hresp].
  - exists GOOGLE_DRIVE, quota_exceeded. split; [left|]; reflexivity.
  - rewrite search_drive_down in Hresp. discriminate.
Qed.

(** C8, amended. A selected platform whose retriever is not set is not
    called and adds nothing.  When the platform searches of the selected
    platforms whose retriever is set all return, [search] returns a
    response built from their lists alone: its results are the slice
    [sorted[:limit]] of a rearrangement of those lists, which is their
    stable descending sort by score when no score is NaN.  When no
    selected platform has its retriever set, the response has no results
    and [total_results] 0.  An exception raised by a platform search is
    not caught: the platforms selected before it that have their
    retriever set have been called and have returned, its own call is
    the last event of the run, no later platform is called, and
    [search] raises the exception. *)
Theorem unset_platforms_add_nothing (self : SearchOrchestrator)
        (q : SearchQuery) :
  let ps := determine_platforms q in
  let m := determine_search_method q in
  (forall p, configured self p = false ->
             _search_platform self q p m = ([], Returned []))
  /\ ((forall p, In p ps -> configured self p = true ->
                 exists l, platform_search self p q m = Returned l) ->
      exists resp sorted,
        result (search self q) = Returned resp
        /\ Permutation (concat (map (contribution self q m) ps)) sorted
        /\ (nan_free score (concat (map (contribution self q m) ps)) ->
            stable_sort_desc score (concat (map (contribution self q m) ps))
                             sorted)
        /\ results resp = slice_to sorted (limit q)
        /\ total_results resp
           = Z.of_nat (length (concat (map (contribution self q m) ps))))
  /\ ((forall p, In p ps -> configured self p = false) ->
      search self q
      = ([], Returned {| results := []; response_query := q;
                         total_results := 0; platforms_searched := ps;
                         method_used := m |}))
  /\ (forall pre p post e,
         ps = pre ++ p :: post ->
         (forall p', In p' pre ->
                     exists l, result (_search_platform self q p' m)
                               = Returned l) ->
         result (_search_platform self q p m) = Raised e ->
         search self q
         = (completed_calls (List.filter (configured self) pre)
              ++ [Invoke p; Fail p],
            Raised e)).
Proof.
  intros ps m. split; [|split; [|split]].
  - intros p Hp. rewrite _search_platform_unfold, Hp. reflexivity.
  - intros Hret.
    assert (forall p, In p ps ->
              result (_search_platform self q p m)
              = Returned (contribution self q m p)) as Hlists.
    { intros p Hp. rewrite _search_platform_unfold. unfold contribution.
      destruct (configured self p) eqn:Hc; [|reflexivity].
      destruct (Hret p Hp Hc) as [l ->]. reflexivity. }
    rewrite (search_returned self q _ Hlists).
    eexists _, (list_sort_reverse score _).
    split; [reflexivity|]. simpl.
    split; [apply list_sort_reverse_perm|].
    split; [apply list_sort_reverse_stable|]. split; reflexivity.
  - intros Hnone.
    assert (forall p, In p ps ->
              result (_search_platform self q p m) = Returned []) as Hlists.
    { intros p Hp. rewrite _search_platform_unfold, (Hnone p Hp). reflexivity. }
    rewrite (search_returned self q (fun _ => []) Hlists).
    fold ps m. rewrite concat_nil_map, (filter_none _ _ Hnone).
    change (list_sort_reverse score []) with (@nil SearchResult).
    rewrite slice_to_nil. reflexivity.
  - intros pre p post e Hps Hpre Hp. rewrite search_unfold. fold ps m.
    rewrite Hps, (search_loop_raised self q m pre p post e [] Hpre Hp).
    reflexivity.
Qed.

Lemma unset_platforms_add_nothing_witness :
  (exists resp sorted,
      result (search notion_only top_four) = Returned resp
      /\ Permutation
           (concat (map (contribution notion_only top_four
                                      (determine_search_method top_four))
                        (determine_platforms top_four)))
           sorted
      /\ (nan_free score
            (concat (map (contribution notion_only top_four
                                       (determine_search_method top_four))
                         (determine_platforms top_four))) ->
          stable_sort_desc score
            (concat (map (contribution notion_only top_four
                                       (determine_search_method top_four))
                         (determine_platforms top_four)))
            sorted)
      /\ results resp = slice_to sorted (limit top_four)
      /\ total_results resp
         = Z.of_nat
             (length
                (concat (map (contribution notion_only top_four
                                           (determine_search_method top_four))
                             (determine_platforms top_four)))))
  /\ search SearchOrchestrator_init top_four
     = ([], Returned {| results := []; response_query := top_four;
                        total_results := 0;
                        platforms_searched := determine_platforms top_four;
                        method_used := determine_search_method top_four |})
  /\ search drive_down top_four
     = ([Invoke GOOGLE_DRIVE; Fail GOOGLE_DRIVE], Raised quota_exceeded).
Proof.
  split; [|split].
  - apply (unset_platforms_add_nothing notion_only top_four).
    intros [] _ Hc; [discriminate Hc|]. eexists. reflexivity.
  - apply (unset_platforms_add_nothing SearchOrchestrator_init top_four).
    intros [] _; reflexivity.
  - apply (proj2 (proj2 (proj2
             (unset_platforms_add_nothing drive_down top_four)))
             [] GOOGLE_DRIVE [NOTION] quota_exceeded).
    + reflexivity.
    + intros p' [].
    + reflexivity.
Defined.

(** With only Notion set, its three results are all there is. *)
Example search_notion_only :
  match search notion_only top_four with
  | (t, Returned resp) =>
      (t, map result_id (results resp), total_results resp)
  | (t, Raised _) => (t, [], 0%Z)
  end
  = ([Invoke NOTION; Complete NOTION], ["d"; "f"; "e"], 3%Z).
Proof. vm_compute. reflexivity. Qed.

(** ** Order of the calls *)

(** C9 does not hold: with both retrievers set and both platforms
    selected, the Notion call is entered only after the Google Drive call
    has completed, so the calls are not all issued before the first one
    is awaited. *)
Lemma calls_are_not_issued_together :
  ~ (forall (self : SearchOrchestrator) (q : SearchQuery),
        (forall p, configured self p = true) ->
        exists rest,
          trace (search self q)
          = map Invoke (determine_platforms q) ++ rest).
Proof.
  intros H.
  destruct (H two_platforms top_four) as [rest Hrest].
  - intros []; reflexivity.
  - vm_compute in Hrest. discriminate.
Qed.

(** C9, amended. The calls to the platforms are made one after the
    other: at no moment is more than one call pending.  A search that
    returns has called, in platform-selection order, every selected
    platform whose retriever is set, and each call had completed before
    the next was made and before the results were put together; a search
    that raises stopped at the call that raised.  There is no timeout:
    the events of a run are these calls and nothing else. *)
Theorem dispatch_is_sequential (self : SearchOrchestrator) (q : SearchQuery) :
  let called := List.filter (configured self) (determine_platforms q) in
  sequential (trace (search self q))
  /\ (forall t1 t2, trace (search self q) = t1 ++ t2 ->
                    (0 <= in_flight t1 <= 1)%Z)
  /\ (forall resp, result (search self q) = Returned resp ->
                   trace (search self q) = completed_calls called)
  /\ (forall e, result (search self q) = Raised e ->
                exists pre p post,
                  called = pre ++ p :: post
                  /\ trace (search self q)
                     = completed_calls pre ++ [Invoke p; Fail p]).
Proof.
  intros called.
  assert (sequential (trace (search self q))
          /\ (forall resp, result (search self q) = Returned resp ->
                           trace (search self q) = completed_calls called)
          /\ (forall e, result (search self q) = Raised e ->
                        exists pre p post,
                          called = pre ++ p :: post
                          /\ trace (search self q)
                             = completed_calls pre ++ [Invoke p; Fail p]))
    as (Hseq & Hret & Hraise).
  { rewrite search_unfold.
    destruct (search_loop_shape self q (determine_search_method q)
                                (determine_platforms q) [])
      as [[all ->]|(pre & p & post & e & Hf & ->)]; simpl.
    - split; [apply sequential_completed_calls|].
      split; [reflexivity|discriminate].
    - split; [apply sequential_then_fail|].
      split; [discriminate|]. intros _ _. exists pre, p, post. auto. }
  split; [exact Hseq|].
  split; [apply sequential_in_flight, Hseq|]. auto.
Qed.

Lemma dispatch_is_sequential_witness :
  (0 <= in_flight [Invoke GOOGLE_DRIVE; Complete GOOGLE_DRIVE; Invoke NOTION]
   <= 1)%Z
  /\ trace (search two_platforms top_four)
     = completed_calls [GOOGLE_DRIVE; NOTION].
Proof.
  destruct (dispatch_is_sequential two_platforms top_four)
    as (_ & Hflight & Hret & _).
  split.
  - apply (Hflight [Invoke GOOGLE_DRIVE; Complete GOOGLE_DRIVE; Invoke NOTION]
                   [Complete NOTION]).
    reflexivity.
  - eapply Hret. reflexivity.
Defined.

(** ** More on the dispatch loop and the response *)

Section ResponseFacts.
Variable self : SearchOrchestrator.
Variable q : SearchQuery.

(** A loop that returns has gathered the contributions of its platforms,
    in order, and each platform search that was called returned. *)
Lemma search_loop_returned_inv (m : SearchMethod) (ps : list Platform)
      (acc : list SearchResult) (t : list event) (all : list SearchResult) :
  search_loop self q m ps acc = (t, Returned all) ->
  all = acc ++ concat (map (contribution self q m) ps)
  /\ forall p, In p ps ->
               result (_search_platform self q p m)
               = Returned (contribution self q m p).
Proof.
  revert acc t all. induction ps as [|p ps IH]; intros acc t all.
  - simpl. intros [= _ <-]. rewrite app_nil_r. split; [reflexivity|].
    intros p [].
  - rewrite search_loop_cons.
    assert (forall l,
               result (_search_platform self q p m) = Returned l ->
               l = contribution self q m p) as Hc.
    { intros l. rewrite _search_platform_unfold. unfold contribution.
      destruct (configured self p).
      - unfold call. destruct (platform_search self p q m); simpl; congruence.
      - simpl. congruence. }
    destruct (_search_platform self q p m) as [t1 [l|e]] eqn:Hp;
      [|discriminate].
    destruct (search_loop self q m ps (acc ++ l)) as [t2 o] eqn:Hrest.
    intros [= _ ->]. destruct (IH _ _ _ Hrest) as [-> Hps].
    specialize (Hc l eq_refl). subst l. split.
    + simpl. rewrite <- app_assoc. reflexivity.
    + intros p' [<-|Hp']; [rewrite Hp; reflexivity|apply Hps, Hp'].
Qed.

(** A search that returns has the response of [search_returned], built
    from the contributions. *)
Lemma search_returned_inv (resp : SearchResponse) :
  result (search self q) = Returned resp ->
  resp
  = {| results :=
         slice_to
           (list_sort_reverse score
              (concat (map (contribution self q (determine_search_method q))
                           (determine_platforms q))))
           (limit q);
       response_query := q;
       total_results :=
         Z.of_nat
           (length
              (concat (map (contribution self q (determine_search_method q))
                           (determine_platforms q))));
       platforms_searched := determine_platforms q;
       method_used := determine_search_method q |}.
Proof.
  intros Hres.
  assert (exists t all,
             search_loop self q (determine_search_method q)
                         (determine_platforms q) [] = (t, Returned all))
    as (t & all & Hloop).
  { rewrite search_unfold in Hres.
    destruct (search_loop self q _ _ []) as [t [all|e]]; [eauto|discriminate]. }
  destruct (search_loop_returned_inv _ _ _ _ _ Hloop) as [_ Hps].
  rewrite (search_returned self q _ Hps) in Hres.
  injection Hres as <-. reflexivity.
Qed.

(** The events of a run: completed calls to the selected platforms whose
    retriever is set, possibly cut short by a call that raises. *)
Lemma search_trace_shape :
  let called := List.filter (configured self) (determine_platforms q) in
  trace (search self q) = completed_calls called
  \/ exists pre p post,
       called = pre ++ p :: post
       /\ trace (search self q) = completed_calls pre ++ [Invoke p; Fail p].
Proof.
  intros called. rewrite search_unfold.
  destruct (search_loop_shape self q (determine_search_method q)
                              (determine_platforms q) [])
    as [[all ->]|(pre & p & post & e & Hf & ->)]; simpl.
  - left. reflexivity.
  - right. exists pre, p, post. auto.
Qed.

End ResponseFacts.

Lemma in_completed_calls (ev : event) (ps : list Platform) :
  In ev (completed_calls ps) -> In (event_platform ev) ps.
Proof.
  induction ps as [|p ps IH]; simpl; [tauto|].
  intros [<-|[<-|H]]; simpl; auto.
Qed.

Lemma determine_platforms_cases (q : SearchQuery) :
  determine_platforms q = [GOOGLE_DRIVE]
  \/ determine_platforms q = [NOTION]
  \/ determine_platforms q = [GOOGLE_DRIVE; NOTION].
Proof.
  unfold determine_platforms.
  destruct (if_set Platform_value (platform q)) as [[]|]; auto.
  cbv zeta.
  destruct (any_keyword_in google_keywords _);
    destruct (any_keyword_in notion_keywords _); simpl; auto.
Qed.

Lemma determine_platforms_NoDup (q : SearchQuery) :
  List.NoDup (determine_platforms q).
Proof.
  destruct (determine_platforms_cases q) as [->|[->| ->]];
    repeat constructor; simpl; intuition discriminate.
Qed.

Lemma in_firstn {A : Type} (x : A) (k : nat) (l : list A) :
  In x (firstn k l) -> In x l.
Proof.
  revert k. induction l as [|y l IH]; intros k.
  - rewrite firstn_nil. tauto.
  - destruct k as [|k]; simpl; [tauto|]. intros [->|H]; eauto.
Qed.

Lemma firstn_sorted {A : Type} (R : A -> A -> Prop) (k : nat) (l : list A) :
  StronglySorted R l -> StronglySorted R (firstn k l).
Proof.
  revert k. induction l as [|x l IH]; intros k Hl.
  - rewrite firstn_nil. constructor.
  - destruct k as [|k]; [constructor|]. simpl.
    apply StronglySorted_inv in Hl as [Hl Hx].
    constructor; [apply IH, Hl|].
    rewrite List.Forall_forall in *. intros y Hy.
    apply Hx. eapply in_firstn, Hy.
Qed.

Lemma slice_to_prefix {A : Type} (l : list A) (n : Z) :
  exists k, slice_to l n = firstn k l.
Proof. unfold slice_to. eauto. Qed.

Lemma times_invoked_completed_calls (p : Platform) (ps : list Platform) :
  times_invoked p (completed_calls ps) = count_occ Platform_eq_dec ps p.
Proof.
  unfold times_invoked. induction ps as [|p' ps IH]; [reflexivity|].
  change (completed_calls (p' :: ps))
    with (Invoke p' :: Complete p' :: completed_calls ps).
  simpl count_occ at 2.
  destruct (Platform_eq_dec p' p) as [->|Hne].
  - rewrite count_occ_cons_eq by reflexivity.
    rewrite count_occ_cons_neq by discriminate. rewrite IH. reflexivity.
  - rewrite count_occ_cons_neq by congruence.
    rewrite count_occ_cons_neq by discriminate. exact IH.
Qed.

(** X1. [search] calls no platform that [determine_platforms] did not
    select, and none whose retriever is not set: every event of a run,
    whether the run returns or raises, is about a selected platform with
    its retriever set. *)
Theorem search_calls_only_selected_platforms
        (self : SearchOrchestrator) (q : SearchQuery) (ev : event) :
  In ev (trace (search self q)) ->
  In (event_platform ev) (determine_platforms q)
  /\ configured self (event_platform ev) = true.
Proof.
  intros Hev. apply List.filter_In.
  destruct (search_trace_shape self q) as [Ht|(pre & p & post & Hc & Ht)];
    rewrite Ht in Hev.
  - apply in_completed_calls, Hev.
  - rewrite Hc. apply in_app_iff in Hev as [Hev|Hev].
    + apply in_app_iff. left. apply in_completed_calls, Hev.
    + apply in_app_iff. right. left.
      destruct Hev as [<-|[<-|[]]]; reflexivity.
Qed.

Lemma search_calls_only_selected_platforms_witness :
  In NOTION
     (determine_platforms
        {| query := "notion page about api"; platform := None;
           method := None; filters := None; limit := 10 |})
  /\ configured two_platforms NOTION = true.
Proof.
  apply (search_calls_only_selected_platforms
           two_platforms
           {| query := "notion page about api"; platform := None;
              method := None; filters := None; limit := 10 |}
           (Invoke NOTION)).
  vm_compute. auto.
Defined.

(** X2. In one run of [search] the search of a platform is entered at
    most once. *)
Theorem search_calls_each_platform_at_most_once
        (self : SearchOrchestrator) (q : SearchQuery) (p : Platform) :
  times_invoked p (trace (search self q)) <= 1.
Proof.
  assert (List.NoDup (List.filter (configured self) (determine_platforms q)))
    as Hnd by apply List.NoDup_filter, determine_platforms_NoDup.
  destruct (search_trace_shape self q) as [Ht|(pre & p' & post & Hc & Ht)];
    rewrite Ht.
  - rewrite times_invoked_completed_calls.
    apply (proj1 (List.NoDup_count_occ Platform_eq_dec _) Hnd).
  - rewrite Hc in Hnd.
    pose proof (proj1 (List.NoDup_count_occ Platform_eq_dec _) Hnd p) as Hle.
    rewrite count_occ_app in Hle. unfold times_invoked.
    rewrite count_occ_app. fold (times_invoked p (completed_calls pre)).
    rewrite times_invoked_completed_calls.
    destruct (Platform_eq_dec p' p) as [->|Hne].
    + rewrite (count_occ_cons_eq _ post eq_refl) in Hle.
      rewrite (count_occ_cons_eq _ _ eq_refl).
      rewrite count_occ_cons_neq by discriminate.
      rewrite count_occ_nil. lia.
    + rewrite count_occ_cons_neq by congruence.
      rewrite count_occ_cons_neq by discriminate.
      rewrite count_occ_nil. lia.
Qed.

(** X3. Whatever the limit is, positive or not, when no score found on
    the selected platforms is NaN, the results of a response are in
    descending order of score and their number does not exceed
    [total_results]. *)
Theorem response_is_ranked_and_bounded
        (self : SearchOrchestrator) (q : SearchQuery) (resp : SearchResponse) :
  result (search self q) = Returned resp ->
  nan_free score
           (concat (map (contribution self q (determine_search_method q))
                        (determine_platforms q))) ->
  descending score (results resp)
  /\ (Z.of_nat (length (results resp)) <= total_results resp)%Z.
Proof.
  intros Hres. rewrite (search_returned_inv self q resp Hres). simpl.
  set (all := concat _). intros Hnan.
  destruct (slice_to_prefix (list_sort_reverse score all) (limit q))
    as [k ->].
  split.
  - apply firstn_sorted. apply (list_sort_reverse_stable score all Hnan).
  - rewrite length_firstn, list_sort_reverse_length. lia.
Qed.

Lemma response_is_ranked_and_bounded_witness :
  exists resp,
    result (search two_platforms all_but_two) = Returned resp
    /\ descending score (results resp)
    /\ (Z.of_nat (length (results resp)) <= total_results resp)%Z.
Proof.
  eexists. split; [reflexivity|].
  apply (response_is_ranked_and_bounded two_platforms all_but_two).
  - reflexivity.
  - intros x Hx. vm_compute in Hx.
    repeat (destruct Hx as [<-|Hx]; [reflexivity|]). destruct Hx.
Defined.

(** X4. [search] invents no result: every result of a response was
    returned by the platform search of a selected platform whose
    retriever is set. *)
Theorem results_come_from_selected_platforms
        (self : SearchOrchestrator) (q : SearchQuery) (resp : SearchResponse)
        (r : SearchResult) :
  result (search self q) = Returned resp ->
  In r (results resp) ->
  exists p l,
    In p (determine_platforms q)
    /\ configured self p = true
    /\ platform_search self p q (determine_search_method q) = Returned l
    /\ In r l.
Proof.
  intros Hres. rewrite (search_returned_inv self q resp Hres). simpl.
  set (all := concat _).
  destruct (slice_to_prefix (list_sort_reverse score all) (limit q))
    as [k ->].
  intros Hr. apply in_firstn in Hr.
  apply (Permutation_in _ (Permutation_sym
           (list_sort_reverse_perm score all))) in Hr.
  unfold all in Hr. apply in_concat in Hr as (l & Hl & Hr).
  apply in_map_iff in Hl as (p & <- & Hp).
  unfold contribution in Hr.
  destruct (configured self p) eqn:Hc; [|destruct Hr].
  destruct (platform_search self p q (determine_search_method q)) as [l|e] eqn:Hs;
    [|destruct Hr].
  exists p, l. auto.
Qed.

Lemma results_come_from_selected_platforms_witness :
  exists p l,
    In p (determine_platforms top_four)
    /\ configured notion_only p = true
    /\ platform_search notion_only p top_four
                       (determine_search_method top_four) = Returned l
    /\ In (sample_result "d" NOTION 3) l.
Proof.
  eapply (results_come_from_selected_platforms notion_only top_four).
  - reflexivity.
  - left. reflexivity.
Defined.

(** X5. When the limit is at least the number of results found, nothing
    is lost: the results are a rearrangement of everything the selected
    platforms contributed. *)
Theorem nothing_is_lost_within_limit
        (self : SearchOrchestrator) (q : SearchQuery) (resp : SearchResponse) :
  result (search self q) = Returned resp ->
  (total_results resp <= limit q)%Z ->
  Permutation
    (concat (map (contribution self q (determine_search_method q))
                 (determine_platforms q)))
    (results resp).
Proof.
  intros Hres. rewrite (search_returned_inv self q resp Hres). simpl.
  set (all := concat _). intros Hle.
  rewrite slice_to_nonneg by lia.
  rewrite firstn_all2 by (rewrite list_sort_reverse_length; lia).
  apply (list_sort_reverse_perm score all).
Qed.

Lemma nothing_is_lost_within_limit_witness :
  exists resp,
    result (search two_platforms (plain_query "budget")) = Returned resp
    /\ Permutation
         (concat (map (contribution two_platforms (plain_query "budget")
                         (determine_search_method (plain_query "budget")))
                      (determine_platforms (plain_query "budget"))))
         (results resp).
Proof.
  eexists. split; [reflexivity|].
  apply (nothing_is_lost_within_limit two_platforms (plain_query "budget")).
  - reflexivity.
  - vm_compute. discriminate.
Defined.

(** X6. With a positive limit, when no score found on the selected
    platforms is NaN, the first result of a response has a score that
    no result found on any selected platform exceeds. *)
Theorem best_score_comes_first
        (self : SearchOrchestrator) (q : SearchQuery) (resp : SearchResponse)
        (r : SearchResult) :
  result (search self q) = Returned resp ->
  (0 < limit q)%Z ->
  nan_free score
           (concat (map (contribution self q (determine_search_method q))
                        (determine_platforms q))) ->
  In r (concat (map (contribution self q (determine_search_method q))
                    (determine_platforms q))) ->
  exists top rest,
    results resp = top :: rest /\ float_le (score r) (score top) = true.
Proof.
  intros Hres. rewrite (search_returned_inv self q resp Hres). simpl.
  set (all := concat _). intros Hlimit Hnan Hr.
  destruct (list_sort_reverse_stable score all Hnan) as (Hperm & Hdesc & _).
  pose proof (Hnan r Hr) as Hnum.
  apply (Permutation_in _ Hperm) in Hr.
  rewrite slice_to_nonneg by lia.
  destruct (list_sort_reverse score all) as [|top sorted]; [destruct Hr|].
  destruct (Z.to_nat (limit q)) as [|k] eqn:Hk; [lia|].
  exists top, (firstn k sorted). split; [reflexivity|].
  destruct Hr as [->|Hr]; [apply float_le_refl, Hnum|].
  apply StronglySorted_inv in Hdesc as [_ Htop].
  rewrite List.Forall_forall in Htop. apply Htop, Hr.
Qed.

Lemma best_score_comes_first_witness :
  exists resp top rest,
    result (search two_platforms top_four) = Returned resp
    /\ results resp = top :: rest
    /\ float_le (score (sample_result "f" NOTION 1)) (score top) = true.
Proof.
  destruct (best_score_comes_first
              two_platforms top_four _ (sample_result "f" NOTION 1) eq_refl)
    as (top & rest & Hr & Hs).
  - reflexivity.
  - intros x Hx. vm_compute in Hx.
    repeat (destruct Hx as [<-|Hx]; [reflexivity|]). destruct Hx.
  - vm_compute. auto 10.
  - eexists _, top, rest. split; [reflexivity|]. split; assumption.
Defined.

(** X7. A ranking that is already in descending order of score is not
    disturbed: when the concatenation of the contributions is
    descending, the results are that concatenation, cut to the limit. *)
Theorem given_ranking_is_kept
        (self : SearchOrchestrator) (q : SearchQuery) (resp : SearchResponse) :
  result (search self q) = Returned resp ->
  descending score
    (concat (map (contribution self q (determine_search_method q))
                 (determine_platforms q))) ->
  results resp
  = slice_to
      (concat (map (contribution self q (determine_search_method q))
                   (determine_platforms q)))
      (limit q).
Proof.
  intros Hres. rewrite (search_returned_inv self q resp Hres). simpl.
  set (all := concat _). intros Hdesc. f_equal.
  apply list_sort_reverse_descending, Hdesc.
Qed.

Lemma given_ranking_is_kept_witness :
  exists resp,
    result (search ranked_drive top_four) = Returned resp
    /\ results resp
       = slice_to
           (concat (map (contribution ranked_drive top_four
                           (determine_search_method top_four))
                        (determine_platforms top_four)))
           (limit top_four).
Proof.
  eexists. split; [reflexivity|].
  apply (given_ranking_is_kept ranked_drive top_four).
  - reflexivity.
  - unfold descending. repeat constructor.
Defined.

(** X8. With the two platform searches as the source has them, [search]
    never raises and never finds anything, whichever retrievers are set:
    the response has no results and [total_results] 0. *)
Theorem source_search_finds_nothing
        (g n : option Retriever) (q : SearchQuery) :
  result (search (source_orchestrator g n) q)
  = Returned {| results := []; response_query := q; total_results := 0;
                platforms_searched := determine_platforms q;
                method_used := determine_search_method q |}.
Proof.
  rewrite (search_returned (source_orchestrator g n) q (fun _ => [])).
  - rewrite concat_nil_map.
    change (list_sort_reverse score []) with (@nil SearchResult).
    rewrite slice_to_nil. reflexivity.
  - intros p _. rewrite _search_platform_unfold.
    destruct (configured (source_orchestrator g n) p); [|reflexivity].
    destruct p; reflexivity.
Qed.

(** ** More on the classifier *)

Section ClassifierMore.
Import PyStr Text PyStrFacts Re ReFacts Classifier ClassifierFacts.

Lemma existsb_ext_in {A : Type} (f g : A -> bool) (l : list A) :
  (forall x, In x l -> f x = g x) -> existsb f l = existsb g l.
Proof.
  induction l as [|x l IH]; intros H; [reflexivity|].
  simpl. rewrite (H x (or_introl eq_refl)), IH; [reflexivity|].
  intros y Hy. apply H. right. exact Hy.
Qed.

Lemma google_keywords_solid (k : string) : In k google_keywords -> solid k.
Proof.
  unfold google_keywords. simpl. intros H.
  repeat (destruct H as [<-|H]; [split; reflexivity|]). destruct H.
Qed.

Lemma notion_keywords_solid (k : string) : In k notion_keywords -> solid k.
Proof.
  unfold notion_keywords. simpl. intros H.
  repeat (destruct H as [<-|H]; [split; reflexivity|]). destruct H.
Qed.

(** *** White space around the text *)

Lemma allspace_lower (s : string) : allspace (lower s) = allspace s.
Proof.
  induction s as [|c s IH]; [reflexivity|].
  simpl. rewrite isspace_lower_char, IH. reflexivity.
Qed.

Lemma lstrip_blank (s : string) : allspace s = true -> lstrip s = EmptyString.
Proof.
  induction s as [|c s IH]; [reflexivity|].
  simpl. rewrite andb_true_iff. intros [-> Hs]. auto.
Qed.

Lemma strip_blank (s : string) : allspace s = true -> strip s = EmptyString.
Proof. intros H. unfold strip. rewrite (lstrip_blank s H). reflexivity. Qed.

Lemma lstrip_app (s r : string) :
  lstrip (s +:+ r) = if allspace s then lstrip r else lstrip s +:+ r.
Proof.
  induction s as [|c s IH]; [reflexivity|].
  rewrite str_app_cons. simpl. destruct (isspace c); [exact IH|reflexivity].
Qed.

Lemma rstrip_app_blank (s r : string) :
  allspace r = true -> rstrip (s +:+ r) = rstrip s.
Proof.
  intros Hr. induction s as [|c s IH].
  - rewrite str_app_nil_l. apply rstrip_allspace, Hr.
  - rewrite str_app_cons. simpl. rewrite IH. reflexivity.
Qed.

(** White space around a text does not change what [strip] makes of it. *)
Lemma strip_padded (l t r : string) :
  allspace l = true -> allspace r = true ->
  strip (l +:+ t +:+ r) = strip t.
Proof.
  intros Hl Hr. unfold strip.
  rewrite (lstrip_allspace l _ Hl), lstrip_app.
  destruct (allspace t) eqn:Ht.
  - rewrite (lstrip_blank r Hr), (lstrip_blank t Ht). reflexivity.
  - apply rstrip_app_blank, Hr.
Qed.

(** A word that begins and ends with a non-space character occurs in a
    text exactly when it occurs in the stripped text. *)
Lemma contains_strip (k s : string) :
  solid k -> contains k (strip s) = contains k s.
Proof.
  intros Hk. apply eq_true_iff_eq. rewrite !contains_spec. split.
  - intros (pre & post & Hs).
    destruct (strip_decompose s) as (l & r & Hd & _).
    exists (l +:+ pre), (post +:+ r). rewrite Hd at 1.
    rewrite Hs, !str_app_assoc. reflexivity.
  - intros (pre & post & ->).
    destruct (strip_keeps pre k post Hk) as (pre' & post' & -> & _).
    exists pre', post'. reflexivity.
Qed.

Lemma contains_padded (k l t r : string) :
  solid k -> allspace l = true -> allspace r = true ->
  contains k (l +:+ t +:+ r) = contains k t.
Proof.
  intros Hk Hl Hr.
  rewrite <- (contains_strip k (l +:+ t +:+ r) Hk), strip_padded by assumption.
  apply contains_strip, Hk.
Qed.

Lemma any_keyword_in_padded (ks : list string) (l t r : string) :
  (forall k, In k ks -> solid k) ->
  allspace l = true -> allspace r = true ->
  any_keyword_in ks (lower (l +:+ t +:+ r)) = any_keyword_in ks (lower t).
Proof.
  intros Hks Hl Hr. unfold any_keyword_in. apply existsb_ext_in.
  intros k Hk. rewrite !lower_app.
  apply contains_padded; [apply Hks, Hk|rewrite allspace_lower; assumption..].
Qed.

Lemma contains_blank (k s : string) :
  solid k -> allspace s = true -> contains k s = false.
Proof.
  intros [Hh _] Hs. destruct (contains k s) eqn:E; [|reflexivity].
  apply contains_spec in E as (pre & post & ->).
  rewrite !allspace_app in Hs.
  apply andb_true_iff in Hs as [_ Hs]. apply andb_true_iff in Hs as [Hs _].
  rewrite (head_nonspace_allspace k Hs) in Hh. discriminate.
Qed.

Lemma any_keyword_in_blank (ks : list string) (s : string) :
  (forall k, In k ks -> solid k) ->
  allspace s = true -> any_keyword_in ks (lower s) = false.
Proof.
  intros Hks Hs. unfold any_keyword_in.
  rewrite (existsb_ext_in _ (fun _ => false)).
  - induction ks; [reflexivity|]. simpl. apply IHks.
    intros k Hk. apply Hks. right. exact Hk.
  - intros k Hk. apply contains_blank; [apply Hks, Hk|].
    rewrite allspace_lower. exact Hs.
Qed.

(** X9. A text that is empty or made of white space only gets the
    default of every test: with no platform named all platforms are
    selected, and with no method named the method is METADATA when the
    filters hold a recognized key and KEYWORD otherwise. *)
Theorem blank_text_gets_defaults
        (t : string) (fs : option (gmap string Any)) (l : Z) :
  allspace t = true ->
  let q := {| query := t; platform := None; method := None; filters := fs;
              limit := l |} in
  determine_platforms q = [GOOGLE_DRIVE; NOTION]
  /\ (has_recognized_key fs -> determine_search_method q = METADATA)
  /\ (~ has_recognized_key fs -> determine_search_method q = KEYWORD).
Proof.
  intros Ht q. subst q. split.
  - unfold determine_platforms. cbn [query platform if_set].
    rewrite (any_keyword_in_blank _ t google_keywords_solid Ht).
    rewrite (any_keyword_in_blank _ t notion_keywords_solid Ht).
    reflexivity.
  - unfold determine_search_method. cbn [query method filters].
    rewrite (strip_blank t Ht).
    pose proof (has_metadata_filter_spec fs) as Hf.
    change (contains_char "034" EmptyString || contains_char "'" EmptyString)
      with false.
    change (existsb (fun pattern => search pattern EmptyString)
                    question_patterns) with false.
    cbv iota. destruct (has_metadata_filter fs).
    + split; [reflexivity|]. intros H. exfalso. apply H, Hf. reflexivity.
    + split; [|reflexivity]. intros H. apply Hf in H. discriminate.
Qed.

Lemma blank_text_gets_defaults_witness :
  determine_platforms
    {| query := String " " (String "010" EmptyString); platform := None;
       method := None; filters := Some {[ "tag" := AnyStr "x" ]};
       limit := 10 |}
  = [GOOGLE_DRIVE; NOTION]
  /\ determine_search_method
       {| query := String " " (String "010" EmptyString); platform := None;
          method := None; filters := Some {[ "tag" := AnyStr "x" ]};
          limit := 10 |}
     = KEYWORD.
Proof.
  destruct (blank_text_gets_defaults
              (String " " (String "010" EmptyString))
              (Some {[ "tag" := AnyStr "x" ]}) 10 eq_refl)
    as (Hp & _ & Hm).
  split; [exact Hp|]. apply Hm.
  rewrite <- has_metadata_filter_spec. vm_compute. discriminate.
Defined.

(** X10. White space before and after the query text changes neither
    decision of the classifier. *)
Theorem classifier_ignores_surrounding_space
        (l t r : string) (p : option Platform) (m : option SearchMethod)
        (fs : option (gmap string Any)) (n : Z) :
  allspace l = true -> allspace r = true ->
  determine_search_method
    {| query := l +:+ t +:+ r; platform := p; method := m; filters := fs;
       limit := n |}
  = determine_search_method
      {| query := t; platform := p; method := m; filters := fs; limit := n |}
  /\ determine_platforms
       {| query := l +:+ t +:+ r; platform := p; method := m; filters := fs;
          limit := n |}
     = determine_platforms
         {| query := t; platform := p; method := m; filters := fs;
            limit := n |}.
Proof.
  intros Hl Hr. split.
  - unfold determine_search_method. cbn [query method filters].
    rewrite (strip_padded l t r Hl Hr). reflexivity.
  - unfold determine_platforms. cbn [query platform if_set].
    rewrite (any_keyword_in_padded _ l t r google_keywords_solid Hl Hr).
    rewrite (any_keyword_in_padded _ l t r notion_keywords_solid Hl Hr).
    reflexivity.
Qed.

Lemma classifier_ignores_surrounding_space_witness :
  determine_search_method
    (plain_query ("  " +:+ "notion pages about hiking?" +:+ String "010" " "))
  = determine_search_method (plain_query "notion pages about hiking?")
  /\ determine_platforms
       (plain_query ("  " +:+ "notion pages about hiking?" +:+ String "010" " "))
     = determine_platforms (plain_query "notion pages about hiking?").
Proof.
  apply (classifier_ignores_surrounding_space
           "  " "notion pages about hiking?" (String "010" " ")
           None None None 10); reflexivity.
Defined.

End ClassifierMore.

(** ** The two embeddings of the method classifier agree

    On a text whose code points lie below 256 the classifier on
    arbitrary code points decides as the classifier on [string]. *)

Section Widening.

Lemma of_string_cons (c : ascii) (s : string) :
  Uni.of_string (String c s) = N_of_ascii c :: Uni.of_string s.
Proof. reflexivity. Qed.

Lemma N_of_ascii_inj (a b : ascii) : N_of_ascii a = N_of_ascii b -> a = b.
Proof.
  intros H. rewrite <- (ascii_N_embedding a), <- (ascii_N_embedding b), H.
  reflexivity.
Qed.

Global Instance of_string_inj : Inj (=) (=) Uni.of_string.
Proof.
  intros s. induction s as [|a s IH]; intros [|b t] H; try discriminate H.
  - reflexivity.
  - rewrite !of_string_cons in H. injection H as Hab Hst.
    apply N_of_ascii_inj in Hab as ->. rewrite (IH t Hst). reflexivity.
Qed.

Lemma in_all_ascii (a : ascii) : In a (map ascii_of_nat (seq 0 256)).
Proof.
  apply in_map_iff. exists (nat_of_ascii a).
  split; [apply ascii_nat_embedding|].
  apply in_seq. pose proof (nat_ascii_bounded a). lia.
Qed.

Lemma isspace_code (c : ascii) : Uni.isspace (N_of_ascii c) = PyStr.isspace c.
Proof. destruct c as [[] [] [] [] [] [] [] []]; reflexivity. Qed.

Lemma ci_eq_table :
  forallb
    (fun c =>
       forallb
         (fun a =>
            implb (N_of_ascii c <? 128)%N
                  (Bool.eqb (Uni.ci_eq (N_of_ascii a) c)
                            (Ascii.eqb (PyStr.lower_char a)
                                       (PyStr.lower_char c))))
         (map ascii_of_nat (seq 0 256)))
    (map ascii_of_nat (seq 0 256))
  = true.
Proof. vm_compute. reflexivity. Qed.

(** On code points below 256 an ASCII character of a pattern matches
    the characters with the same lower-case form. *)
Lemma ci_eq_code (a c : ascii) :
  (N_of_ascii c <? 128)%N = true ->
  Uni.ci_eq (N_of_ascii a) c
  = Ascii.eqb (PyStr.lower_char a) (PyStr.lower_char c).
Proof.
  intros Hc. pose proof ci_eq_table as H.
  rewrite forallb_forall in H. specialize (H c (in_all_ascii c)).
  rewrite forallb_forall in H. specialize (H a (in_all_ascii a)).
  rewrite Hc in H. apply eqb_prop, H.
Qed.

Lemma lstrip_widen (s : string) :
  Uni.lstrip (Uni.of_string s) = Uni.of_string (PyStr.lstrip s).
Proof.
  induction s as [|c s IH]; [reflexivity|].
  rewrite of_string_cons. simpl. rewrite isspace_code.
  destruct (PyStr.isspace c); [exact IH|reflexivity].
Qed.

Lemma rstrip_widen (s : string) :
  Uni.rstrip (Uni.of_string s) = Uni.of_string (PyStr.rstrip s).
Proof.
  induction s as [|c s IH]; [reflexivity|].
  rewrite of_string_cons. simpl. rewrite IH, isspace_code.
  destruct (PyStr.rstrip s) as [|a r]; simpl.
  - destruct (PyStr.isspace c); reflexivity.
  - reflexivity.
Qed.

Lemma strip_widen (s : string) :
  Uni.strip (Uni.of_string s) = Uni.of_string (PyStr.strip s).
Proof. unfold Uni.strip, PyStr.strip. rewrite lstrip_widen. apply rstrip_widen. Qed.

Lemma contains_char_widen (c : ascii) (s : string) :
  Uni.contains_char (N_of_ascii c) (Uni.of_string s) = PyStr.contains_char c s.
Proof.
  apply eq_true_iff_eq.
  rewrite UniFacts.uni_contains_char_spec, PyStrFacts.contains_char_spec.
  unfold Uni.of_string, Text.chars. rewrite in_map_iff. split.
  - intros (a & Ha & Hin). apply N_of_ascii_inj in Ha as ->. exact Hin.
  - intros Hin. exists c. auto.
Qed.

Lemma head_nonspace_widen (s : string) :
  Uni.head_nonspace (Uni.of_string s) = PyStr.head_nonspace s.
Proof.
  destruct s as [|c s]; [reflexivity|].
  rewrite of_string_cons. simpl. rewrite isspace_code. reflexivity.
Qed.

Lemma split_widen (s : string) :
  Uni.split (Uni.of_string s) = map Uni.of_string (PyStr.split s).
Proof.
  induction s as [|c s IH]; [reflexivity|].
  rewrite of_string_cons. simpl.
  rewrite isspace_code, head_nonspace_widen, IH.
  destruct (PyStr.isspace c); [reflexivity|].
  destruct (PyStr.head_nonspace s); [|reflexivity].
  destruct (PyStr.split s); reflexivity.
Qed.

Lemma at_eol_widen (s : string) :
  Uni.at_eol (Uni.of_string s) = Re.at_eol s.
Proof.
  destruct s as [|c [|c' s]]; try reflexivity;
    destruct c as [[] [] [] [] [] [] [] []]; reflexivity.
Qed.

Lemma spaces_then_widen (kn : bool -> string -> bool)
      (ku : bool -> list N -> bool) (b : bool) (s : string) :
  (forall b' s', ku b' (Uni.of_string s') = kn b' s') ->
  Uni.spaces_then ku b (Uni.of_string s) = Re.spaces_then kn b s.
Proof.
  intros Hk. revert b. induction s as [|c s IH]; intros b.
  - simpl. rewrite <- (Hk b EmptyString). reflexivity.
  - rewrite of_string_cons. simpl.
    rewrite isspace_code, IH, <- (Hk b (String c s)), of_string_cons.
    reflexivity.
Qed.

Lemma matches_widen (r : Re.regex) :
  ascii_pattern r = true ->
  forall (b : bool) (s : string) (kn : bool -> string -> bool)
         (ku : bool -> list N -> bool),
    (forall b' s', ku b' (Uni.of_string s') = kn b' s') ->
    Uni.matches r b (Uni.of_string s) ku = Re.matches r b s kn.
Proof.
  induction r as [| | |c| |r1 IH1 r2 IH2|r1 IH1 r2 IH2];
    intros Hr b s kn ku Hk; simpl in Hr |- *.
  - apply Hk.
  - rewrite Hk. reflexivity.
  - rewrite at_eol_widen, Hk. reflexivity.
  - destruct s as [|a s]; [reflexivity|].
    rewrite of_string_cons, (ci_eq_code _ _ Hr), Hk. reflexivity.
  - apply spaces_then_widen, Hk.
  - apply andb_true_iff in Hr as [Hr1 Hr2].
    rewrite (IH1 Hr1 b s kn ku Hk), (IH2 Hr2 b s kn ku Hk). reflexivity.
  - apply andb_true_iff in Hr as [Hr1 Hr2].
    apply (IH1 Hr1). intros b' s'. apply (IH2 Hr2), Hk.
Qed.

Lemma match_here_widen (r : Re.regex) (b : bool) (s : string) :
  ascii_pattern r = true ->
  Uni.match_here r b (Uni.of_string s) = Re.match_here r b s.
Proof.
  intros Hr. unfold Uni.match_here, Re.match_here.
  apply (matches_widen r Hr). reflexivity.
Qed.

Lemma search_widen (r : Re.regex) (s : string) :
  ascii_pattern r = true ->
  Uni.search r (Uni.of_string s) = Re.search r s.
Proof.
  intros Hr. unfold Uni.search, Re.search. generalize true.
  induction s as [|c s IH]; intros b.
  - change (Uni.search_from r b (Uni.of_string EmptyString))
      with (Uni.match_here r b (Uni.of_string EmptyString) || false).
    change (Re.search_from r b EmptyString)
      with (Re.match_here r b EmptyString || false).
    rewrite match_here_widen by exact Hr. reflexivity.
  - change (Uni.search_from r b (Uni.of_string (String c s)))
      with (Uni.match_here r b (Uni.of_string (String c s))
            || Uni.search_from r false (Uni.of_string s)).
    change (Re.search_from r b (String c s))
      with (Re.match_here r b (String c s) || Re.search_from r false s).
    rewrite match_here_widen, IH by exact Hr. reflexivity.
Qed.

Lemma has_metadata_filter_widen (fs : option (gmap string Any)) :
  Uni.has_metadata_filter
    match fs with
    | Some d => Some (kmap (M2 := gmap (list N)) Uni.of_string d)
    | None => None
    end
  = has_metadata_filter fs.
Proof.
  destruct fs as [d|]; [|reflexivity].
  unfold Uni.has_metadata_filter, has_metadata_filter. f_equal.
  - f_equal. apply bool_decide_ext, kmap_empty_iff. apply _.
  - apply existsb_ext_in. intros k _. apply bool_decide_ext.
    rewrite (lookup_kmap Uni.of_string). reflexivity.
Qed.

(** The classifier on arbitrary code points extends the classifier on
    [string]. *)
Lemma determine_search_method_widen (q : SearchQuery) :
  Uni.determine_search_method (widen q) = determine_search_method q.
Proof.
  unfold Uni.determine_search_method, determine_search_method, widen.
  cbn [Uni.query Uni.method Uni.filters].
  destruct (if_set SearchMethod_value (method q)); [reflexivity|].
  cbv zeta. rewrite strip_widen.
  change 34%N with (N_of_ascii "034"). change 39%N with (N_of_ascii "'").
  rewrite !contains_char_widen, has_metadata_filter_widen.
  rewrite split_widen, length_map.
  rewrite (existsb_ext_in
             (fun pattern => Uni.search pattern
                               (Uni.of_string (PyStr.strip (query q))))
             (fun pattern => Re.search pattern (PyStr.strip (query q)))).
  - reflexivity.
  - intros r Hr. apply search_widen.
    unfold question_patterns in Hr. simpl in Hr.
    repeat (destruct Hr as [<-|Hr]; [reflexivity|]). destruct Hr.
Qed.

End Widening.

(** ** Letter case and filter values *)

Section CaseFacts.
Import PyStr Text PyStrFacts Re ReFacts Classifier ClassifierFacts.

Lemma lower_char_idempotent (c : ascii) :
  lower_char (lower_char c) = lower_char c.
Proof. destruct c as [[] [] [] [] [] [] [] []]; reflexivity. Qed.

Lemma lower_idempotent (s : string) : lower (lower s) = lower s.
Proof.
  induction s as [|c s IH]; [reflexivity|].
  simpl. rewrite lower_char_idempotent, IH. reflexivity.
Qed.

Lemma lstrip_lower (s : string) : lstrip (lower s) = lower (lstrip s).
Proof.
  induction s as [|c s IH]; [reflexivity|].
  simpl. rewrite isspace_lower_char. destruct (isspace c); [exact IH|reflexivity].
Qed.

Lemma rstrip_lower (s : string) : rstrip (lower s) = lower (rstrip s).
Proof.
  induction s as [|c s IH]; [reflexivity|].
  simpl. rewrite IH, isspace_lower_char.
  destruct (rstrip s); simpl; [destruct (isspace c)|]; reflexivity.
Qed.

Lemma strip_lower (s : string) : strip (lower s) = lower (strip s).
Proof. unfold strip. rewrite lstrip_lower. apply rstrip_lower. Qed.

(** No character becomes a quote or a newline by lower-casing. *)
Lemma eqb_lower_char_quote (a : ascii) :
  Ascii.eqb "'" (lower_char a) = Ascii.eqb "'" a
  /\ Ascii.eqb "034" (lower_char a) = Ascii.eqb "034" a
  /\ Ascii.eqb (lower_char a) "010" = Ascii.eqb a "010".
Proof. destruct a as [[] [] [] [] [] [] [] []]; repeat split; reflexivity. Qed.

Lemma contains_char_cons (c a : ascii) (s : string) :
  contains_char c (String a s) = Ascii.eqb c a || contains_char c s.
Proof. unfold contains_char. simpl. rewrite andb_true_r. reflexivity. Qed.

Lemma contains_quote_lower (s : string) :
  contains_char "'" (lower s) = contains_char "'" s
  /\ contains_char "034" (lower s) = contains_char "034" s.
Proof.
  induction s as [|a s [IH1 IH2]]; [split; reflexivity|].
  destruct (eqb_lower_char_quote a) as (H1 & H2 & _).
  change (lower (String a s)) with (String (lower_char a) (lower s)).
  rewrite !contains_char_cons, H1, H2, IH1, IH2. split; reflexivity.
Qed.

Lemma split_lower (s : string) : split (lower s) = map lower (split s).
Proof.
  induction s as [|c s IH]; [reflexivity|].
  simpl. rewrite isspace_lower_char.
  destruct (isspace c); [exact IH|].
  change (match lower s with
          | EmptyString => false
          | String c0 _ => negb (isspace c0)
          end) with (head_nonspace (lower s)).
  change (match s with
          | EmptyString => false
          | String c0 _ => negb (isspace c0)
          end) with (head_nonspace s).
  rewrite head_nonspace_lower, IH.
  destruct (head_nonspace s); [|reflexivity].
  destruct (split s); reflexivity.
Qed.

Lemma at_eol_lower (s : string) : at_eol (lower s) = at_eol s.
Proof.
  destruct s as [|a s]; [reflexivity|].
  destruct (eqb_lower_char_quote a) as (_ & _ & H).
  unfold at_eol. simpl. rewrite H.
  destruct (Ascii.eqb a "010"); [|reflexivity].
  destruct s; reflexivity.
Qed.

Lemma spaces_then_lower (k k' : bool -> string -> bool) (b : bool)
      (s : string) :
  (forall b' s', k' b' (lower s') = k b' s') ->
  spaces_then k' b (lower s) = spaces_then k b s.
Proof.
  intros Hk. revert b. induction s as [|a s IH]; intros b; simpl.
  - apply (Hk b EmptyString).
  - rewrite isspace_lower_char, IH. f_equal. apply (Hk b (String a s)).
Qed.

(** The matcher gives the same answer on a text and on its lower-case
    form. *)
Lemma matches_lower (r : regex) :
  forall (b : bool) (s : string) (k k' : bool -> string -> bool),
    (forall b' s', k' b' (lower s') = k b' s') ->
    matches r b (lower s) k' = matches r b s k.
Proof.
  induction r as [| | |c| |r1 IH1 r2 IH2|r1 IH1 r2 IH2]; intros b s k k' Hk;
    simpl.
  - apply Hk.
  - rewrite Hk. reflexivity.
  - rewrite at_eol_lower, Hk. reflexivity.
  - destruct s as [|a s]; [reflexivity|]. simpl.
    rewrite lower_char_idempotent, Hk. reflexivity.
  - apply spaces_then_lower, Hk.
  - rewrite (IH1 b s k k' Hk), (IH2 b s k k' Hk). reflexivity.
  - apply IH1. intros b' s'. apply IH2, Hk.
Qed.

Lemma match_here_lower (r : regex) (b : bool) (s : string) :
  match_here r b (lower s) = match_here r b s.
Proof. unfold match_here. apply matches_lower. reflexivity. Qed.

Lemma search_lower (r : regex) (s : string) :
  search r (lower s) = search r s.
Proof.
  unfold search. generalize true. induction s as [|a s IH]; intros b.
  - reflexivity.
  - change (search_from r b (lower (String a s)))
      with (match_here r b (lower (String a s))
            || search_from r false (lower s)).
    rewrite match_here_lower, IH. reflexivity.
Qed.

Lemma method_of_lower (t : string) (p : option Platform)
      (m : option SearchMethod) (fs : option (gmap string Any)) (n : Z) :
  determine_search_method
    {| query := lower t; platform := p; method := m; filters := fs;
       limit := n |}
  = determine_search_method
      {| query := t; platform := p; method := m; filters := fs; limit := n |}.
Proof.
  unfold determine_search_method. cbn [query method filters].
  rewrite strip_lower.
  destruct (contains_quote_lower (strip t)) as [-> ->].
  rewrite (existsb_ext_in
             (fun pattern => search pattern (lower (strip t)))
             (fun pattern => search pattern (strip t)))
    by (intros r _; apply search_lower).
  rewrite split_lower, length_map. reflexivity.
Qed.

Lemma platforms_of_lower (t : string) (p : option Platform)
      (m : option SearchMethod) (fs : option (gmap string Any)) (n : Z) :
  determine_platforms
    {| query := lower t; platform := p; method := m; filters := fs;
       limit := n |}
  = determine_platforms
      {| query := t; platform := p; method := m; filters := fs; limit := n |}.
Proof.
  unfold determine_platforms. cbn [query platform].
  rewrite lower_idempotent. reflexivity.
Qed.

(** X11. On texts of ASCII characters letter case plays no role in the
    classification: two such texts with the same lower-case form get the
    same method and the same platforms.  (Beyond ASCII the lower-case
    form does not decide the method: [str.lower] and [re.IGNORECASE]
    treat dotted capital I differently.) *)
Theorem classifier_ignores_case
        (t1 t2 : string) (p : option Platform) (m : option SearchMethod)
        (fs : option (gmap string Any)) (n : Z) :
  ascii_text t1 = true ->
  ascii_text t2 = true ->
  lower t1 = lower t2 ->
  determine_search_method
    {| query := t1; platform := p; method := m; filters := fs; limit := n |}
  = determine_search_method
      {| query := t2; platform := p; method := m; filters := fs; limit := n |}
  /\ determine_platforms
       {| query := t1; platform := p; method := m; filters := fs;
          limit := n |}
     = determine_platforms
         {| query := t2; platform := p; method := m; filters := fs;
            limit := n |}.
Proof.
  intros _ _ H. split.
  - rewrite <- (method_of_lower t1), <- (method_of_lower t2), H. reflexivity.
  - rewrite <- (platforms_of_lower t1), <- (platforms_of_lower t2), H.
    reflexivity.
Qed.

Lemma classifier_ignores_case_witness :
  determine_search_method (plain_query "EXPLAIN the Notion Workspace")
  = determine_search_method (plain_query "explain The NOTION workspace")
  /\ determine_platforms (plain_query "EXPLAIN the Notion Workspace")
     = determine_platforms (plain_query "explain The NOTION workspace").
Proof.
  apply (classifier_ignores_case
           "EXPLAIN the Notion Workspace" "explain The NOTION workspace"
           None None None 10); reflexivity.
Defined.

(** *** Filters *)

Lemma has_metadata_filter_keys (d : gmap string Any) :
  has_metadata_filter (Some d)
  = existsb (fun key => bool_decide (is_Some (d !! key))) metadata_keys.
Proof.
  unfold has_metadata_filter.
  destruct (bool_decide (d = ∅)) eqn:E; [|reflexivity].
  apply bool_decide_eq_true in E as ->. simpl.
  rewrite !lookup_empty. reflexivity.
Qed.

(** X12. Method selection looks at the filters only to see which of the
    recognized keys are present: two filter dicts that hold the same
    recognized keys give the same method, whatever their values and
    their other keys, and a dict with none of them counts as no filters
    at all. *)
Theorem method_sees_only_recognized_keys
        (t : string) (p : option Platform) (m : option SearchMethod) (n : Z)
        (d1 d2 : gmap string Any) :
  (forall k, In k recognized_keys ->
             (is_Some (d1 !! k) <-> is_Some (d2 !! k))) ->
  determine_search_method
    {| query := t; platform := p; method := m; filters := Some d1;
       limit := n |}
  = determine_search_method
      {| query := t; platform := p; method := m; filters := Some d2;
         limit := n |}
  /\ ((forall k, In k recognized_keys -> d1 !! k = None) ->
      determine_search_method
        {| query := t; platform := p; method := m; filters := Some d1;
           limit := n |}
      = determine_search_method
          {| query := t; platform := p; method := m; filters := None;
             limit := n |}).
Proof.
  intros Hkeys.
  assert (forall k, In k metadata_keys -> In k recognized_keys) as Hsub.
  { unfold metadata_keys, recognized_keys. simpl. tauto. }
  split.
  - unfold determine_search_method. cbn [query method filters].
    rewrite !has_metadata_filter_keys.
    rewrite (existsb_ext_in
               (fun key => bool_decide (is_Some (d1 !! key)))
               (fun key => bool_decide (is_Some (d2 !! key)))); [reflexivity|].
    intros k Hk. apply bool_decide_ext, Hkeys, Hsub, Hk.
  - intros Hnone. unfold determine_search_method. cbn [query method filters].
    rewrite has_metadata_filter_keys.
    rewrite (existsb_ext_in
               (fun key => bool_decide (is_Some (d1 !! key)))
               (fun _ => false)).
    + reflexivity.
    + intros k Hk. rewrite (Hnone k (Hsub k Hk)).
      apply bool_decide_eq_false. intros [? [=]].
Qed.

Lemma method_sees_only_recognized_keys_witness :
  determine_search_method
    {| query := "reports"; platform := None; method := None;
       filters := Some {[ "author" := AnyStr "john" ]}; limit := 10 |}
  = determine_search_method
      {| query := "reports"; platform := None; method := None;
         filters := Some (<[ "tag" := AnyInt 3 ]>
                            {[ "author" := AnyNone ]});
         limit := 10 |}.
Proof.
  apply (method_sees_only_recognized_keys
           "reports" None None 10
           {[ "author" := AnyStr "john" ]}
           (<[ "tag" := AnyInt 3 ]> {[ "author" := AnyNone ]})).
  intros k Hk. unfold recognized_keys in Hk. simpl in Hk.
  repeat (destruct Hk as [<-|Hk]; [vm_compute; split; eauto; intros [? [=]]|]).
  destruct Hk.
Defined.

End CaseFacts.

(** ** File names *)

Section ExportFacts.
Import Text PyStrFacts ExportDrive.

Lemma replace_chars_cons (cs : list ascii) (c : ascii) (s : string) :
  fold_left (fun filename char => replace_char char "_" filename) cs
            (String c s)
  = String (fold_left (fun a char => if Ascii.eqb a char then "_"%char else a)
                      cs c)
           (fold_left (fun filename char => replace_char char "_" filename)
                      cs s).
Proof.
  revert c s. induction cs as [|ch cs IH]; intros c s; [reflexivity|].
  simpl. apply IH.
Qed.

Lemma replace_chars_nil (cs : list ascii) :
  fold_left (fun filename char => replace_char char "_" filename) cs
            EmptyString
  = EmptyString.
Proof. induction cs as [|ch cs IH]; [reflexivity|exact IH]. Qed.

(** The nine replacements, made one after the other on one character. *)
Lemma replace_chars_one (c : ascii) :
  fold_left (fun a char => if Ascii.eqb a char then "_"%char else a)
            (list_ascii_of_string invalid_chars) c
  = if is_invalid c then "_"%char else c.
Proof. destruct c as [[] [] [] [] [] [] [] []]; reflexivity. Qed.

Lemma sanitize_filename_cons (c : ascii) (s : string) :
  sanitize_filename (String c s)
  = String (if is_invalid c then "_"%char else c) (sanitize_filename s).
Proof.
  unfold sanitize_filename. rewrite replace_chars_cons, replace_chars_one.
  reflexivity.
Qed.

Lemma is_invalid_underscored (c : ascii) :
  is_invalid (if is_invalid c then "_"%char else c) = false.
Proof. destruct c as [[] [] [] [] [] [] [] []]; reflexivity. Qed.

(** X13. [sanitize_filename] is a character-by-character substitution:
    each of the nine invalid characters becomes an underscore and every
    other character stays where it is.  Hence a name without invalid
    characters is returned unchanged, and sanitizing twice is the same as
    sanitizing once. *)
Theorem sanitize_filename_pointwise (filename : string) :
  sanitize_filename filename = underscored filename
  /\ ((forall c, In c (chars filename) -> is_invalid c = false) ->
      sanitize_filename filename = filename)
  /\ sanitize_filename (sanitize_filename filename)
     = sanitize_filename filename.
Proof.
  induction filename as [|c s (IH1 & IH2 & IH3)].
  - unfold sanitize_filename. rewrite !replace_chars_nil. auto.
  - rewrite !sanitize_filename_cons. split; [|split].
    + simpl. rewrite IH1. reflexivity.
    + intros H. rewrite (H c (or_introl eq_refl)), IH2; [reflexivity|].
      intros c' Hc'. apply H. right. exact Hc'.
    + rewrite is_invalid_underscored, IH3. reflexivity.
Qed.

Lemma sanitize_filename_pointwise_witness :
  sanitize_filename "Q4 goals (final).txt" = "Q4 goals (final).txt".
Proof.
  apply (proj1 (proj2 (sanitize_filename_pointwise "Q4 goals (final).txt"))).
  unfold chars. simpl. intros c H.
  repeat (destruct H as [<-|H]; [reflexivity|]). destruct H.
Defined.

(** X14. The name that [sanitize_filename] returns contains none of the
    nine invalid characters and is as long as the name it was given. *)
Theorem sanitized_name_is_safe (filename : string) :
  (forall c, In c (chars (sanitize_filename filename)) ->
             is_invalid c = false)
  /\ String.length (sanitize_filename filename) = String.length filename.
Proof.
  induction filename as [|c s [IH1 IH2]].
  - unfold sanitize_filename. rewrite replace_chars_nil.
    split; [intros c []|reflexivity].
  - rewrite sanitize_filename_cons. split.
    + intros c' [<-|H]; [apply is_invalid_underscored|apply IH1, H].
    + simpl. rewrite IH2. reflexivity.
Qed.

Lemma sanitized_name_is_safe_witness :
  is_invalid "_" = false.
Proof.
  apply (proj1 (sanitized_name_is_safe "a/b:c?") "_"%char).
  vm_compute. auto.
Defined.

End ExportFacts.

(** ** Normalization of texts *)

Section NormalizeFacts.
Import PyStr Text PyStrFacts Chunking.

Lemma is_newline_space (c : ascii) : is_newline c = true -> isspace c = true.
Proof. unfold is_newline. intros H. apply Ascii.eqb_eq in H as ->. reflexivity. Qed.

Lemma is_blank_space (c : ascii) : is_blank c = true -> isspace c = true.
Proof.
  unfold is_blank. intros H.
  apply orb_true_iff in H as [H|H]; apply Ascii.eqb_eq in H as ->; reflexivity.
Qed.

Lemma ink_cons (c : ascii) (s : string) :
  ink (String c s) = if isspace c then ink s else c :: ink s.
Proof. unfold ink. simpl. destruct (isspace c); reflexivity. Qed.

Lemma ink_app (s t : string) : ink (s +:+ t) = (ink s ++ ink t)%list.
Proof.
  unfold ink. fold (chars (s +:+ t)). rewrite chars_app.
  apply List.filter_app.
Qed.

Lemma ink_blank (s : string) : allspace s = true -> ink s = [].
Proof.
  induction s as [|c s IH]; [reflexivity|].
  simpl. rewrite andb_true_iff. intros [Hc Hs].
  rewrite ink_cons, Hc. auto.
Qed.

Lemma ink_collapse_from (run : nat) (s : string) :
  ink (collapse_from run s) = ink s.
Proof.
  revert run. induction s as [|c s IH]; intros run; [reflexivity|].
  simpl. destruct (is_newline c) eqn:Hc.
  - rewrite (ink_cons c s), (is_newline_space c Hc).
    destruct run as [|[|run]]; [| |apply IH];
      rewrite ink_cons, (is_newline_space c Hc); apply IH.
  - rewrite !ink_cons, IH. reflexivity.
Qed.

Lemma ink_strip_line_ends (s : string) : ink (strip_line_ends s) = ink s.
Proof.
  induction s as [|c s IH]; [reflexivity|].
  simpl. destruct (is_blank c && before_newline s) eqn:Hc.
  - apply andb_true_iff in Hc as [Hc _].
    rewrite (ink_cons c s), (is_blank_space c Hc). exact IH.
  - rewrite !ink_cons, IH. reflexivity.
Qed.

Lemma ink_strip (s : string) : ink (strip s) = ink s.
Proof.
  destruct (strip_decompose s) as (l & r & Hs & Hl & Hr).
  rewrite Hs at 2. rewrite !ink_app, (ink_blank l Hl), (ink_blank r Hr).
  simpl. rewrite app_nil_r. reflexivity.
Qed.

(** X15. [normalize] only touches white space: the characters that are
    not white space come out as they went in, none lost, none added, in
    the same order. *)
Theorem normalize_keeps_ink (text : string) :
  ink (normalize text) = ink text.
Proof.
  unfold normalize, collapse_newlines.
  rewrite ink_strip, ink_strip_line_ends. apply ink_collapse_from.
Qed.

Lemma head_newline_strip_line_ends (s : string) :
  head_newline (strip_line_ends s) = true -> before_newline s = true.
Proof.
  induction s as [|c s IH]; [discriminate|].
  simpl. destruct (is_blank c && before_newline s) eqn:Hc.
  - apply andb_true_iff in Hc as [Hb Hn]. intros _.
    rewrite Hb, Hn. destruct (is_newline c); reflexivity.
  - simpl. intros ->. reflexivity.
Qed.

Lemma strip_line_ends_tidy (s : string) :
  tidy_line_ends (strip_line_ends s) = true.
Proof.
  induction s as [|c s IH]; [reflexivity|].
  simpl. destruct (is_blank c && before_newline s) eqn:Hc; [exact IH|].
  simpl. rewrite IH, andb_true_r.
  destruct (is_blank c); [|reflexivity]. simpl in *.
  destruct (head_newline (strip_line_ends s)) eqn:Hh; [|reflexivity].
  rewrite (head_newline_strip_line_ends s Hh) in Hc. discriminate.
Qed.

Lemma tidy_line_ends_app (s t : string) :
  tidy_line_ends (s +:+ t) = true -> tidy_line_ends t = true.
Proof.
  induction s as [|c s IH]; [auto|].
  rewrite str_app_cons. simpl. rewrite andb_true_iff. intros [_ H]. auto.
Qed.

Lemma tidy_line_ends_occurs (b : ascii) (s : string) :
  tidy_line_ends s = true -> is_blank b = true ->
  ~ occurs_in (String b (String "010" EmptyString)) s.
Proof.
  intros Hs Hb (pre & post & ->).
  apply tidy_line_ends_app in Hs. rewrite !str_app_cons in Hs.
  simpl in Hs. rewrite Hb in Hs. discriminate.
Qed.

Lemma occurs_in_strip (k s : string) : occurs_in k (strip s) -> occurs_in k s.
Proof.
  intros (pre & post & Hk).
  destruct (strip_decompose s) as (l & r & Hs & _).
  exists (l +:+ pre), (post +:+ r). rewrite Hs at 1.
  rewrite Hk, !str_app_assoc. reflexivity.
Qed.

Lemma rstrip_solid_end (s : string) :
  rstrip s = EmptyString \/ last_nonspace (rstrip s) = true.
Proof.
  induction s as [|c s IH]; [left; reflexivity|].
  simpl. destruct (rstrip s) as [|a r].
  - destruct (isspace c) eqn:Hc; [left; reflexivity|].
    right. simpl. rewrite Hc. reflexivity.
  - right. destruct IH as [IH|IH]; [discriminate|exact IH].
Qed.

Lemma lstrip_solid_start (s : string) :
  lstrip s = EmptyString \/ head_nonspace (lstrip s) = true.
Proof.
  induction s as [|c s IH]; [left; reflexivity|].
  simpl. destruct (isspace c) eqn:Hc; [exact IH|].
  right. simpl. rewrite Hc. reflexivity.
Qed.

(** What [strip] returns is empty or begins and ends with a character
    that is not white space. *)
Lemma strip_solid (s : string) : strip s = EmptyString \/ solid (strip s).
Proof.
  unfold strip, solid.
  destruct (rstrip_solid_end (lstrip s)) as [H|H]; [left; exact H|].
  right. split; [|exact H].
  destruct (rstrip (lstrip s)) as [|a r] eqn:E; [discriminate|].
  rewrite <- E, (rstrip_head _ _ _ E).
  destruct (lstrip_solid_start s) as [H'|H']; [|exact H'].
  rewrite H' in E. discriminate.
Qed.

(** X16. The text that [normalize] returns has no white space at its
    start or at its end, and in it no space or tab stands directly
    before a newline. *)
Theorem normalize_is_tidy (text : string) :
  (normalize text = EmptyString \/ solid (normalize text))
  /\ forall b, is_blank b = true ->
               ~ occurs_in (String b (String "010" EmptyString))
                           (normalize text).
Proof.
  split; [apply strip_solid|].
  intros b Hb H. unfold normalize in H. apply occurs_in_strip in H.
  revert H. apply tidy_line_ends_occurs; [apply strip_line_ends_tidy|exact Hb].
Qed.

Lemma normalize_is_tidy_witness :
  ~ occurs_in (String " " (String "010" EmptyString))
      (normalize (String " " ("Title  " +:+ String "010" ("body " +:+
                    String "009" (String "010" EmptyString))))).
Proof.
  apply (proj2 (normalize_is_tidy _) " "%char). reflexivity.
Defined.

End NormalizeFacts.

(** ** Chunks *)

Section ChunkFacts.
Import PyStr Text PyStrFacts Chunks.

Lemma string_of_uint_inj (d d' : Decimal.uint) :
  NilEmpty.string_of_uint d = NilEmpty.string_of_uint d' -> d = d'.
Proof.
  intros H. apply (f_equal NilEmpty.uint_of_string) in H.
  rewrite !NilEmpty.usu in H. congruence.
Qed.

Lemma str_of_index_inj (i j : nat) : str_of_index i = str_of_index j -> i = j.
Proof.
  unfold str_of_index. intros H.
  apply DecimalNat.Unsigned.to_uint_inj, string_of_uint_inj, H.
Qed.

Lemma string_of_uint_no_colon (d : Decimal.uint) :
  ~ In ":"%char (chars (NilEmpty.string_of_uint d)).
Proof.
  unfold chars. induction d; simpl; intros H;
    try (destruct H as [H|H]; [discriminate H|]); auto.
Qed.

(** Two texts that end in a colon and a colon-free tail are equal only
    if their parts are. *)
Lemma colon_split_unique (p1 p2 d1 d2 : string) :
  ~ In ":"%char (chars d1) -> ~ In ":"%char (chars d2) ->
  p1 +:+ String ":" d1 = p2 +:+ String ":" d2 ->
  p1 = p2 /\ d1 = d2.
Proof.
  intros H1 H2. revert p2.
  induction p1 as [|c p1 IH]; intros [|c' p2]; str_norm.
  - intros [= ->]. auto.
  - intros [= <- ->]. exfalso. apply H1.
    rewrite chars_app, in_app_iff. right. left. reflexivity.
  - intros [= -> <-]. exfalso. apply H2.
    rewrite chars_app, in_app_iff. right. left. reflexivity.
  - intros [= -> H]. destruct (IH _ H) as [-> ->]. auto.
Qed.

Lemma chunk_id_of_parts (path1 path2 : string) (i j : nat) :
  chunk_id_of path1 i = chunk_id_of path2 j -> path1 = path2 /\ i = j.
Proof.
  unfold chunk_id_of. intros H.
  apply colon_split_unique in H as [-> H];
    [|apply string_of_uint_no_colon..].
  split; [reflexivity|apply str_of_index_inj, H].
Qed.

(** X17. The id of a chunk determines the file and the index it was
    made for: two ids are equal only for the same path and the same
    index, also when the path itself contains colons or digits. *)
Theorem chunk_id_is_injective (path1 path2 : string) (i j : nat) :
  chunk_id_of path1 i = chunk_id_of path2 j -> path1 = path2 /\ i = j.
Proof. apply chunk_id_of_parts. Qed.

Lemma chunk_id_is_injective_witness :
  "docs/a:1.txt" = "docs/a:1.txt" /\ 10 = 10.
Proof.
  apply (chunk_id_is_injective "docs/a:1.txt" "docs/a:1.txt" 10 10).
  reflexivity.
Defined.

Lemma enumerate_from_snd {A : Type} (k : nat) (l : list A) :
  map snd (enumerate_from k l) = l.
Proof.
  revert k. induction l as [|x l IH]; intros k; [reflexivity|].
  simpl. rewrite IH. reflexivity.
Qed.

Lemma enumerate_from_fst {A : Type} (k : nat) (l : list A) :
  map fst (enumerate_from k l) = seq k (length l).
Proof.
  revert k. induction l as [|x l IH]; intros k; [reflexivity|].
  simpl. rewrite IH. reflexivity.
Qed.

Lemma enumerate_from_nth {A : Type} (k i : nat) (l : list A) :
  nth_error (enumerate_from k l) i
  = option_map (fun x => (k + i, x)) (nth_error l i).
Proof.
  revert k i. induction l as [|x l IH]; intros k [|i]; try reflexivity.
  - simpl. rewrite Nat.add_0_r. reflexivity.
  - simpl. rewrite IH. rewrite Nat.add_succ_r. reflexivity.
Qed.

Lemma enumerate_from_in {A : Type} (k i : nat) (x : A) (l : list A) :
  In (i, x) (enumerate_from k l) ->
  k <= i /\ i < k + length l /\ nth_error l (i - k) = Some x.
Proof.
  revert k. induction l as [|y l IH]; intros k; simpl; [tauto|].
  intros [[= <- <-]|H].
  - rewrite Nat.sub_diag. repeat split; lia.
  - destruct (IH _ H) as (H1 & H2 & H3). repeat split; try lia.
    replace (i - k) with (S (i - S k)) by lia. exact H3.
Qed.

Lemma NoDup_map_injective {A B : Type} (f : A -> B) (l : list A) :
  (forall x y, f x = f y -> x = y) -> List.NoDup l -> List.NoDup (map f l).
Proof.
  intros Hf. induction 1 as [|x l Hx Hl IH]; simpl; constructor; [|exact IH].
  intros H. apply in_map_iff in H as (y & Hy & Hin).
  apply Hf in Hy. subst y. contradiction.
Qed.

Lemma chunk_id_of_inj (path : string) (i j : nat) :
  chunk_id_of path i = chunk_id_of path j -> i = j.
Proof. intros H. apply (chunk_id_of_parts _ _ _ _ H). Qed.

(** X18. [process_docs] keeps the pieces the splitter returns, all of
    them and in order: the i-th chunk carries the i-th piece as its text,
    the id [path:i], the index i and the number of pieces as its total;
    no two chunks of the file share an id. *)
Theorem process_docs_numbers_pieces
        (split_text : string -> list string) (text path name : string) :
  let chunks := process_docs split_text text path name in
  map chunk_text chunks = split_text text
  /\ (forall i c,
         nth_error chunks i = Some c ->
         nth_error (split_text text) i = Some (chunk_text c)
         /\ chunk_id c = chunk_id_of path i
         /\ chunk_index (chunk_metadata c) = Z.of_nat i
         /\ chunk_total (chunk_metadata c)
            = Z.of_nat (length (split_text text))
         /\ file_path (chunk_metadata c) = path
         /\ filename (chunk_metadata c) = name)
  /\ List.NoDup (map chunk_id chunks).
Proof.
  unfold process_docs. cbv zeta. set (pieces := split_text text).
  set (mk := fun '(i, chunk) => make_chunk path name (length pieces) i chunk).
  split; [|split].
  - rewrite map_map.
    rewrite (map_ext (fun x => chunk_text (mk x)) snd) by (intros []; reflexivity).
    apply enumerate_from_snd.
  - intros i c. rewrite nth_error_map. unfold enumerate.
    rewrite enumerate_from_nth.
    destruct (nth_error pieces i) as [x|]; [|discriminate].
    simpl. intros [= <-]. simpl. auto 10.
  - rewrite map_map.
    rewrite (map_ext (fun x => chunk_id (mk x))
                     (fun x => chunk_id_of path (fst x)))
      by (intros []; reflexivity).
    rewrite <- (map_map fst (chunk_id_of path)).
    unfold enumerate. rewrite enumerate_from_fst.
    apply NoDup_map_injective; [apply chunk_id_of_inj|apply seq_NoDup].
Qed.

Lemma process_docs_numbers_pieces_witness :
  nth_error ["alpha"; "beta"; "gamma"] 2 = Some "gamma"
  /\ chunk_id_of "docs/plan.txt" 2 = "docs/plan.txt:2".
Proof.
  destruct (process_docs_numbers_pieces
              (fun _ => ["alpha"; "beta"; "gamma"]) "any text"
              "docs/plan.txt" "plan.txt")
    as (_ & Hnth & _).
  destruct (Hnth 2 _ eq_refl) as (H1 & H2 & _).
  split; [exact H1|]. symmetry. exact H2.
Defined.

(** The chunks made from the sections numbered from [k] on. *)
Lemma slide_chunks_from (path name : string) (total k : nat)
      (sections : list string) :
  let chunks :=
    flat_map
      (fun '(i, section) =>
         let section := strip section in
         if truthy section
         then [make_chunk path name total i section]
         else [])
      (enumerate_from k sections) in
  (forall c, In c chunks ->
             exists i section,
               k <= i /\ i < k + length sections
               /\ nth_error sections (i - k) = Some section
               /\ strip section <> EmptyString
               /\ c = make_chunk path name total i (strip section))
  /\ List.NoDup (map chunk_id chunks)
  /\ length chunks <= length sections.
Proof.
  revert k. induction sections as [|x l IH]; intros k; cbv zeta.
  - simpl. split; [intros c []|]. split; [constructor|lia].
  - specialize (IH (S k)). cbv zeta in IH. destruct IH as (IH1 & IH2 & IH3).
    simpl flat_map.
    assert (forall c,
               In c (flat_map
                       (fun '(i, section) =>
                          if truthy (strip section)
                          then [make_chunk path name total i (strip section)]
                          else [])
                       (enumerate_from (S k) l)) ->
               exists i section,
                 k <= i /\ i < k + length (x :: l)
                 /\ nth_error (x :: l) (i - k) = Some section
                 /\ strip section <> EmptyString
                 /\ c = make_chunk path name total i (strip section)
                 /\ S k <= i) as Hrest.
    { intros c Hc. destruct (IH1 c Hc) as (i & s & H1 & H2 & H3 & H4 & H5).
      exists i, s. simpl length. repeat split; try lia; try assumption.
      replace (i - k) with (S (i - S k)) by lia. exact H3. }
    destruct (truthy (strip x)) eqn:Hx.
    + split; [|split].
      * intros c [<-|Hc].
        -- exists k, x. rewrite Nat.sub_diag. simpl length.
           repeat split; try lia. intros E. rewrite E in Hx. discriminate.
        -- destruct (Hrest c Hc) as (i & s & H); exists i, s; tauto.
      * simpl. constructor; [|exact IH2].
        intros Hin. apply in_map_iff in Hin as (c & Hid & Hc).
        destruct (Hrest c Hc) as (i & s & _ & _ & _ & _ & -> & Hi).
        simpl in Hid. apply chunk_id_of_inj in Hid. lia.
      * simpl. lia.
    + split; [|split].
      * intros c Hc. destruct (Hrest c Hc) as (i & s & H); exists i, s; tauto.
      * exact IH2.
      * simpl. simpl in IH3. lia.
Qed.

(** X19. Every chunk that [process_slides] makes comes from one section
    of the split text: its text is that section stripped and is not
    empty, its id is [path:i] and its index i for the position i of the
    section, which is below the total, the number of sections.  No two
    chunks share an id, and there are no more chunks than sections. *)
Theorem process_slides_chunks (text path name : string) :
  let chunks := process_slides text path name in
  let sections := split_slides text in
  (forall c, In c chunks ->
             exists i section,
               nth_error sections i = Some section
               /\ chunk_text c = strip section
               /\ chunk_text c <> EmptyString
               /\ solid (chunk_text c)
               /\ chunk_id c = chunk_id_of path i
               /\ chunk_index (chunk_metadata c) = Z.of_nat i
               /\ (chunk_index (chunk_metadata c)
                   < chunk_total (chunk_metadata c))%Z
               /\ chunk_total (chunk_metadata c) = Z.of_nat (length sections)
               /\ file_path (chunk_metadata c) = path
               /\ filename (chunk_metadata c) = name)
  /\ List.NoDup (map chunk_id chunks)
  /\ length chunks <= length sections.
Proof.
  intros chunks sections.
  destruct (slide_chunks_from path name (length sections) 0 sections)
    as (H1 & H2 & H3).
  split; [|split; assumption].
  intros c Hc. destruct (H1 c Hc) as (i & s & _ & Hi & Hn & Hs & ->).
  rewrite Nat.sub_0_r in Hn. exists i, s. simpl.
  repeat split; try assumption; try lia.
  - destruct (strip_solid s) as [E|[Hh _]]; [contradiction|exact Hh].
  - destruct (strip_solid s) as [E|[_ Hl]]; [contradiction|exact Hl].
Qed.

Lemma process_slides_chunks_witness :
  exists i section,
    nth_error (split_slides "=== Slide 1 === Intro === Slide 2 ===") i
    = Some section
    /\ "Intro" = strip section
    /\ chunk_id_of "deck.txt" 1 = chunk_id_of "deck.txt" i.
Proof.
  destruct (process_slides_chunks
              "=== Slide 1 === Intro === Slide 2 ===" "deck.txt" "deck.txt")
    as (H & _).
  destruct (H (make_chunk "deck.txt" "deck.txt" 3 1 "Intro"))
    as (i & section & H1 & H2 & _ & _ & H3 & _).
  - vm_compute. auto.
  - exists i, section. auto.
Defined.

Lemma startswith_occurs (k s : string) :
  startswith k s = true -> occurs_in k s.
Proof.
  intros H. apply startswith_spec in H as [post ->].
  exists EmptyString, post. reflexivity.
Qed.

Lemma match_marker_occurs (s : string) (n : nat) :
  match_marker s = Some n -> occurs_in marker_head s.
Proof.
  unfold match_marker. destruct (startswith marker_head s) eqn:E; [|discriminate].
  intros _. apply startswith_occurs, E.
Qed.

Lemma split_slides_unmarked (cur s : string) :
  ~ occurs_in marker_head s ->
  split_slides_from 0 cur s = [cur +:+ s].
Proof.
  revert cur. induction s as [|c s IH]; intros cur Hs.
  - simpl. rewrite str_app_nil_r. reflexivity.
  - simpl split_slides_from.
    destruct (match_marker (String c s)) as [n|] eqn:E.
    + exfalso. apply Hs. eapply match_marker_occurs, E.
    + rewrite IH.
      * rewrite str_app_assoc. reflexivity.
      * intros (pre & post & ->). apply Hs.
        exists (String c pre), post. reflexivity.
Qed.

(** X20. A text in which the words [=== Slide ] do not occur is one
    section: [process_slides] makes no chunk of it when it is blank, and
    otherwise one chunk, with the whole text stripped, the index 0 and
    the total 1. *)
Theorem unmarked_text_is_one_chunk (text path name : string) :
  ~ occurs_in marker_head text ->
  process_slides text path name
  = if truthy (strip text)
    then [make_chunk path name 1 0 (strip text)]
    else [].
Proof.
  intros H. unfold process_slides, split_slides.
  rewrite (split_slides_unmarked EmptyString text H), str_app_nil_l.
  simpl. destruct (truthy (strip text)); reflexivity.
Qed.

Lemma unmarked_text_is_one_chunk_witness :
  process_slides "  Agenda == Slide 1  " "deck.txt" "deck.txt"
  = [make_chunk "deck.txt" "deck.txt" 1 0 "Agenda == Slide 1"].
Proof.
  apply (unmarked_text_is_one_chunk "  Agenda == Slide 1  ").
  rewrite <- contains_spec. vm_compute. discriminate.
Defined.

End ChunkFacts.

(** ** Splitting at the slide markers *)

Section SlideFacts.
Import PyStr Text PyStrFacts Chunks Slides.

Lemma str_length_app (s t : string) :
  String.length (s +:+ t) = String.length s + String.length t.
Proof.
  induction s as [|c s IH]; [reflexivity|].
  rewrite str_app_cons. simpl. rewrite IH. reflexivity.
Qed.

Lemma drop_app (s t : string) : drop (String.length s) (s +:+ t) = t.
Proof. induction s as [|c s IH]; [reflexivity|exact IH]. Qed.

(** What [digits_then_tail] accepts: digits, at least one with those
    already seen, and the tail of the marker. *)
Lemma digits_then_tail_spec (seen : nat) (s : string) (n : nat) :
  digits_then_tail seen s = Some n ->
  exists ds rest,
    s = ds +:+ marker_tail +:+ rest
    /\ all_digits ds = true
    /\ 1 <= seen + String.length ds
    /\ n = seen + String.length ds + String.length marker_tail.
Proof.
  revert seen. induction s as [|c s IH]; intros seen; [discriminate|].
  change (digits_then_tail seen (String c s))
    with (if is_digit c then digits_then_tail (S seen) s
          else if (1 <=? seen) && startswith marker_tail (String c s)
               then Some (seen + String.length marker_tail)
               else None).
  destruct (is_digit c) eqn:Hc.
  - intros H. destruct (IH _ H) as (ds & rest & -> & Hds & Hlen & ->).
    exists (String c ds), rest.
    change (all_digits (String c ds)) with (is_digit c && all_digits ds).
    rewrite Hc, Hds. simpl String.length.
    repeat split; lia.
  - destruct (1 <=? seen) eqn:Hseen; [|discriminate].
    destruct (startswith marker_tail (String c s)) eqn:Ht; [|discriminate].
    intros [= <-].
    apply startswith_spec in Ht as [rest Hrest].
    exists EmptyString, rest. rewrite str_app_nil_l.
    apply Nat.leb_le in Hseen. simpl String.length.
    repeat split; [exact Hrest|lia|lia].
Qed.

Lemma match_marker_spec (s : string) (n : nat) :
  match_marker s = Some n ->
  exists m rest,
    s = m +:+ rest /\ is_marker m /\ n = String.length m.
Proof.
  unfold match_marker.
  destruct (startswith marker_head s) eqn:Hh; [|discriminate].
  apply startswith_spec in Hh as [s1 ->]. rewrite drop_app.
  destruct (digits_then_tail 0 s1) as [n'|] eqn:Hd; [|discriminate].
  intros [= <-].
  destruct (digits_then_tail_spec _ _ _ Hd) as (ds & rest & -> & Hds & Hlen & ->).
  exists (marker_head +:+ ds +:+ marker_tail), rest.
  split; [rewrite !str_app_assoc; reflexivity|]. split.
  - exists ds. repeat split; [|exact Hds].
    intros ->. simpl in Hlen. lia.
  - rewrite !str_length_app. simpl. lia.
Qed.

(** Passing over [k] characters. *)
Lemma split_slides_skip (k : nat) (cur s : string) :
  k <= String.length s ->
  split_slides_from k cur s = split_slides_from 0 cur (drop k s).
Proof.
  revert k. induction s as [|c s IH]; intros [|k] Hk; try reflexivity.
  simpl in Hk.
  change (split_slides_from (S k) cur (String c s))
    with (split_slides_from k cur s).
  change (drop (S k) (String c s)) with (drop k s).
  apply IH. lia.
Qed.

Lemma split_slides_from_round_trip (n : nat) :
  forall (s cur : string),
    String.length s <= n ->
    exists markers,
      length (split_slides_from 0 cur s) = S (length markers)
      /\ (forall m, In m markers -> is_marker m)
      /\ weave (split_slides_from 0 cur s) markers = cur +:+ s.
Proof.
  induction n as [|n IH]; intros s cur Hn.
  - destruct s; [|simpl in Hn; lia].
    exists []. simpl. rewrite str_app_nil_r. repeat split. intros m [].
  - destruct s as [|c s].
    { exists []. simpl. rewrite str_app_nil_r. repeat split. intros m []. }
    simpl in Hn. simpl split_slides_from.
    destruct (match_marker (String c s)) as [k|] eqn:E.
    + destruct (match_marker_spec _ _ E) as (m & rest & Hs & Hm & ->).
      destruct m as [|c' m].
      { destruct Hm as (ds & _ & _ & Hm).
        apply (f_equal String.length) in Hm.
        rewrite !str_length_app in Hm. simpl in Hm. lia. }
      rewrite str_app_cons in Hs. injection Hs as <- ->.
      change (String.length (String c m) - 1) with (String.length m - 0).
      rewrite Nat.sub_0_r.
      rewrite split_slides_skip by (rewrite str_length_app; lia).
      rewrite drop_app.
      destruct (IH rest EmptyString) as (markers & Hlen & Hms & Hw).
      { rewrite str_length_app in Hn. lia. }
      exists (String c m :: markers). simpl length. rewrite Hlen.
      split; [reflexivity|]. split.
      * intros m' [<-|Hm']; [exact Hm|apply Hms, Hm'].
      * simpl weave. rewrite Hw, str_app_nil_l. reflexivity.
    + destruct (IH s (cur +:+ String c EmptyString)) as (markers & Hlen & Hms & Hw);
        [lia|].
      exists markers. rewrite Hw, str_app_assoc. auto.
Qed.

(** X21. Splitting a text at the slide markers loses nothing but the
    markers: there is one section more than there are markers, every
    marker is the words [=== Slide ], digits and [ ===], and the sections
    with the markers put back between them are the text. *)
Theorem split_slides_round_trip (text : string) :
  exists markers,
    length (split_slides text) = S (length markers)
    /\ (forall m, In m markers -> is_marker m)
    /\ weave (split_slides text) markers = text.
Proof.
  destruct (split_slides_from_round_trip
              (String.length text) text EmptyString (le_n _))
    as (markers & H). exists markers. exact H.
Qed.

End SlideFacts.
